(** * reterm: the component tree engine, embedded in Rocq

    A shallow embedding of [reterm/events.py], [reterm/state.py],
    [reterm/component.py] and [reterm/container.py].

    Python objects are mutable and shared, so components live in a store
    (a list indexed by references) and every method takes and returns the
    store.  Recursive methods walk the store and therefore carry fuel:
    [None] stands for a call that has not returned within the fuel given.
    Each [emit] call of a component is recorded in a trace.  Handlers that
    users register are arbitrary callables and are not run by the model;
    the calls that [emit] hands to the signal library are modelled on the
    emitter alone.  The state object that a component owns, and its
    wiring to [update], are modelled on the state alone. *)

From Stdlib Require Import ZArith Lia.
From stdpp Require Import base option list strings gmap.

Local Open Scope string_scope.
Local Open Scope list_scope.
Local Open Scope Z_scope.
Local Open Scope nat_scope.

(* ================================================================== *)
(** * Part I: definitions *)
(* ================================================================== *)

(** ** reterm/constants.py *)

Module Events.
Definition INIT := "init".
Definition MOUNT := "mount".
Definition UNMOUNT := "unmount".
Definition UPDATE := "update".
Definition RENDER := "render".
Definition STATE_CHANGE := "state_change".
End Events.

Inductive ComponentState := CREATED | MOUNTED | UPDATED | UNMOUNTED.

(** Python values that states and payloads carry.  Equality on them is
    Python's [==]; booleans are the integers 0 and 1 there. *)
Inductive value :=
  | VNone
  | VInt (z : Z)
  | VStr (s : string).

#[global] Instance value_eq_dec : EqDecision value.
Proof. solve_decision. Defined.

(** ** The component store *)

Abbreviation ref := nat.

(** The class of an object: [Component], or [Container] (of which [VBox]
    and [HBox] are presets). *)
Inductive Kind := KComponent | KContainer.

(** One component object.  [intercepts] lists the event names that a
    subclass override of [handle_event] consumes before delegating to the
    inherited behaviour (empty for the classes of the library itself). *)
Record Component := mkComponent {
  cls : Kind;
  intercepts : list string;
  id : option string;
  name : option string;
  _lifecycle_state : ComponentState;
  _parent : option ref;
  _children : list ref;
  _is_mounted : bool;
  _is_visible : bool;
  _position : Z * Z;
  _size : Z * Z;
  _layout_direction : string;
  _layout_spacing : Z
}.

Abbreviation heap := (list Component).

(** An [emit] call: the emitting object and the event name. *)
Definition trace := list (ref * string).

Definition set_lifecycle (f : bool) (s : ComponentState) (c : Component) :=
  mkComponent (cls c) (intercepts c) (id c) (name c) s (_parent c)
    (_children c) f (_is_visible c) (_position c) (_size c)
    (_layout_direction c) (_layout_spacing c).

Definition set_state (s : ComponentState) (c : Component) :=
  set_lifecycle (_is_mounted c) s c.

Definition set_parent (p : option ref) (c : Component) :=
  mkComponent (cls c) (intercepts c) (id c) (name c) (_lifecycle_state c) p
    (_children c) (_is_mounted c) (_is_visible c) (_position c) (_size c)
    (_layout_direction c) (_layout_spacing c).

Definition set_children (l : list ref) (c : Component) :=
  mkComponent (cls c) (intercepts c) (id c) (name c) (_lifecycle_state c)
    (_parent c) l (_is_mounted c) (_is_visible c) (_position c) (_size c)
    (_layout_direction c) (_layout_spacing c).

Definition set_visible_flag (b : bool) (c : Component) :=
  mkComponent (cls c) (intercepts c) (id c) (name c) (_lifecycle_state c)
    (_parent c) (_children c) (_is_mounted c) b (_position c) (_size c)
    (_layout_direction c) (_layout_spacing c).

Definition set_pos (v : Z * Z) (c : Component) :=
  mkComponent (cls c) (intercepts c) (id c) (name c) (_lifecycle_state c)
    (_parent c) (_children c) (_is_mounted c) (_is_visible c) v (_size c)
    (_layout_direction c) (_layout_spacing c).

Definition set_sz (v : Z * Z) (c : Component) :=
  mkComponent (cls c) (intercepts c) (id c) (name c) (_lifecycle_state c)
    (_parent c) (_children c) (_is_mounted c) (_is_visible c) (_position c) v
    (_layout_direction c) (_layout_spacing c).

Definition set_direction (d : string) (c : Component) :=
  mkComponent (cls c) (intercepts c) (id c) (name c) (_lifecycle_state c)
    (_parent c) (_children c) (_is_mounted c) (_is_visible c) (_position c)
    (_size c) d (_layout_spacing c).

Definition set_spacing (z : Z) (c : Component) :=
  mkComponent (cls c) (intercepts c) (id c) (name c) (_lifecycle_state c)
    (_parent c) (_children c) (_is_mounted c) (_is_visible c) (_position c)
    (_size c) (_layout_direction c) z.

(** [Component.__init__] and [Container.__init__]: a fresh object at the
    end of the store.  [name] is [props.get("name")].  The [init] event
    that the constructor emits has no listener yet. *)
Definition new_object (k : Kind) (ic : list string) (i n : option string)
  : Component :=
  mkComponent k ic i n CREATED None [] false true (0, 0)%Z (0, 0)%Z
    "vertical" 0%Z.

Definition new_component (k : Kind) (i n : option string) (h : heap)
  : ref * heap :=
  (length h, h ++ [new_object k [] i n]).

(** ** Sequencing helpers *)

(** [for x in xs: g(x)] where [g] changes the store and emits. *)
Fixpoint for_each (g : ref -> heap -> option (heap * trace))
    (xs : list ref) (h : heap) : option (heap * trace) :=
  match xs with
  | [] => Some (h, [])
  | x :: xs' =>
      match g x h with
      | None => None
      | Some (h1, t1) =>
          match for_each g xs' h1 with
          | None => None
          | Some (h2, t2) => Some (h2, t1 ++ t2)
          end
      end
  end.

(** ** reterm/component.py *)

(** [Component.root]: walk the parent references to the top. *)
Fixpoint root (fuel : nat) (h : heap) (cur : ref) : option ref :=
  match fuel with
  | O => None
  | S f =>
      match h !! cur with
      | None => None
      | Some c =>
          match _parent c with
          | None => Some cur
          | Some p => root f h p
          end
      end
  end.

(** The loop of [find_by_id]: the first child whose search succeeds. *)
Fixpoint first_found (g : ref -> option (option ref)) (xs : list ref)
  : option (option ref) :=
  match xs with
  | [] => Some None
  | x :: xs' =>
      match g x with
      | None => None
      | Some (Some y) => Some (Some y)
      | Some None => first_found g xs'
      end
  end.

(** [Component.find_by_id]: self first, then the children in order,
    depth first. *)
Fixpoint find_by_id (fuel : nat) (h : heap) (r : ref) (i : string)
  : option (option ref) :=
  match fuel with
  | O => None
  | S f =>
      match h !! r with
      | None => None
      | Some c =>
          if decide (id c = Some i) then Some (Some r)
          else first_found (fun x => find_by_id f h x i) (_children c)
      end
  end.

(** The loop of [_get_all_descendants]. *)
Fixpoint collect (g : ref -> option (list ref)) (xs : list ref)
  : option (list ref) :=
  match xs with
  | [] => Some []
  | x :: xs' =>
      match g x with
      | None => None
      | Some ds =>
          match collect g xs' with
          | None => None
          | Some rest => Some (x :: ds ++ rest)
          end
      end
  end.

(** [Component._get_all_descendants]. *)
Fixpoint _get_all_descendants (fuel : nat) (h : heap) (r : ref)
  : option (list ref) :=
  match fuel with
  | O => None
  | S f =>
      match h !! r with
      | None => None
      | Some c => collect (_get_all_descendants f h) (_children c)
      end
  end.

(** [Component.mount]. *)
Fixpoint mount (fuel : nat) (r : ref) (h : heap) : option (heap * trace) :=
  match fuel with
  | O => None
  | S f =>
      match h !! r with
      | None => None
      | Some c =>
          if _is_mounted c then Some (h, [])
          else
            let h1 := alter (set_lifecycle true MOUNTED) r h in
            match for_each (mount f) (_children c) h1 with
            | None => None
            | Some (h2, t) => Some (h2, (r, Events.MOUNT) :: t)
            end
      end
  end.

(** [Component.unmount]. *)
Fixpoint unmount (fuel : nat) (r : ref) (h : heap) : option (heap * trace) :=
  match fuel with
  | O => None
  | S f =>
      match h !! r with
      | None => None
      | Some c =>
          if _is_mounted c then
            match for_each (unmount f) (_children c) h with
            | None => None
            | Some (h1, t) =>
                Some (alter (set_lifecycle false UNMOUNTED) r h1,
                      t ++ [(r, Events.UNMOUNT)])
            end
          else Some (h, [])
      end
  end.

(** [child.visible], read through a reference. *)
Definition visible (h : heap) (x : ref) : bool :=
  match h !! x with
  | Some c => _is_visible c
  | None => false
  end.

(** The loop of [Container.render]: children in insertion order. *)
Fixpoint render_each (g : ref -> option trace) (xs : list ref)
  : option trace :=
  match xs with
  | [] => Some []
  | x :: xs' =>
      match g x with
      | None => None
      | Some t =>
          match render_each g xs' with
          | None => None
          | Some t' => Some (t ++ t')
          end
      end
  end.

(** [Component.render] emits; [Container.render] then renders every
    visible child.  Rendering changes no field of any component. *)
Fixpoint render (fuel : nat) (h : heap) (r : ref) : option trace :=
  match fuel with
  | O => None
  | S f =>
      match h !! r with
      | None => None
      | Some c =>
          match cls c with
          | KComponent => Some [(r, Events.RENDER)]
          | KContainer =>
              match render_each (render f h)
                      (List.filter (visible h) (_children c)) with
              | None => None
              | Some t => Some ((r, Events.RENDER) :: t)
              end
          end
      end
  end.

(** [Component.update], with [self.render()] passed in. *)
Definition Component_update (rnd : heap -> ref -> option trace)
    (r : ref) (h : heap) : option (heap * trace) :=
  match h !! r with
  | None => None
  | Some c =>
      if _is_mounted c then
        let h1 := alter (set_state UPDATED) r h in
        match rnd h1 r with
        | None => None
        | Some t => Some (h1, (r, Events.UPDATE) :: t)
        end
      else Some (h, [])
  end.

(** The [position] and [size] property setters, with [self.update()]
    passed in. *)
Definition position_setter (upd : ref -> heap -> option (heap * trace))
    (r : ref) (v : Z * Z) (h : heap) : option (heap * trace) :=
  match h !! r with
  | None => None
  | Some c =>
      let h1 := alter (set_pos v) r h in
      if _is_mounted c then upd r h1 else Some (h1, [])
  end.

Definition size_setter (upd : ref -> heap -> option (heap * trace))
    (r : ref) (v : Z * Z) (h : heap) : option (heap * trace) :=
  match h !! r with
  | None => None
  | Some c =>
      let h1 := alter (set_sz v) r h in
      if _is_mounted c then upd r h1 else Some (h1, [])
  end.

(** The positioning loop of [calculate_layout].  [place cur] is the
    position and the size a child gets at coordinate [cur] of the primary
    axis; [step] is the extent given to each child.  The spacing is read
    from the container on every round, as the source does. *)
Fixpoint layout_loop (upd : ref -> heap -> option (heap * trace))
    (r : ref) (place : Z -> (Z * Z) * (Z * Z)) (step : Z) (cur : Z)
    (xs : list ref) (h : heap) : option (heap * trace) :=
  match xs with
  | [] => Some (h, [])
  | x :: xs' =>
      match position_setter upd x (fst (place cur)) h with
      | None => None
      | Some (h1, t1) =>
          match size_setter upd x (snd (place cur)) h1 with
          | None => None
          | Some (h2, t2) =>
              match h2 !! r with
              | None => None
              | Some c =>
                  match layout_loop upd r place step
                          (cur + (step + _layout_spacing c))%Z xs' h2 with
                  | None => None
                  | Some (h3, t3) => Some (h3, t1 ++ t2 ++ t3)
                  end
              end
          end
      end
  end.

(** [Container.calculate_layout], with the children's [update] passed
    in.  [//] is floor division, which is [Z.div]. *)
Definition calculate_layout_with (upd : ref -> heap -> option (heap * trace))
    (r : ref) (h : heap) : option (heap * trace) :=
  match h !! r with
  | None => None
  | Some c =>
      match _children c with
      | [] => Some (h, [])
      | _ :: _ =>
          let container_height := fst (_size c) in
          let container_width := snd (_size c) in
          let start_y := fst (_position c) in
          let start_x := snd (_position c) in
          let visible_children := List.filter (visible h) (_children c) in
          match visible_children with
          | [] => Some (h, [])
          | _ :: _ =>
              let n := Z.of_nat (length visible_children) in
              if decide (_layout_direction c = "vertical") then
                let total_spacing := (_layout_spacing c * (n - 1))%Z in
                let available_height :=
                  Z.max 0 (container_height - total_spacing) in
                let height_per_child := (available_height / n)%Z in
                layout_loop upd r
                  (fun cur => ((cur, start_x),
                               (height_per_child, container_width)))
                  height_per_child start_y visible_children h
              else
                let total_spacing := (_layout_spacing c * (n - 1))%Z in
                let available_width :=
                  Z.max 0 (container_width - total_spacing) in
                let width_per_child := (available_width / n)%Z in
                layout_loop upd r
                  (fun cur => ((start_y, cur),
                               (container_height, width_per_child)))
                  width_per_child start_x visible_children h
          end
      end
  end.

(** [update], dispatched on the class: [Container.update] runs the
    inherited update and then recalculates the layout, whose setters call
    the children's [update]. *)
Fixpoint update (fuel : nat) (r : ref) (h : heap) : option (heap * trace) :=
  match fuel with
  | O => None
  | S f =>
      match h !! r with
      | None => None
      | Some c =>
          match cls c with
          | KComponent => Component_update (render f) r h
          | KContainer =>
              match Component_update (render f) r h with
              | None => None
              | Some (h1, t1) =>
                  match calculate_layout_with (update f) r h1 with
                  | None => None
                  | Some (h2, t2) => Some (h2, t1 ++ t2)
                  end
              end
          end
      end
  end.

Definition calculate_layout (fuel : nat) := calculate_layout_with (update fuel).
Definition set_position (fuel : nat) := position_setter (update fuel).
Definition set_size (fuel : nat) := size_setter (update fuel).

(** The [visible] property setter. *)
Definition set_visible (fuel : nat) (r : ref) (v : bool) (h : heap)
  : option (heap * trace) :=
  match h !! r with
  | None => None
  | Some c =>
      if bool_decide (_is_visible c <> v) then
        let h1 := alter (set_visible_flag v) r h in
        if _is_mounted c then update fuel r h1 else Some (h1, [])
      else Some (h, [])
  end.

(** The [layout_direction] setter: anything but the two axes raises,
    which [None] in the first component stands for, and leaves the
    container as it was. *)
Definition set_layout_direction (fuel : nat) (r : ref) (direction : string)
    (h : heap) : option (heap * trace) + unit :=
  if bool_decide (direction ∈ ["vertical"; "horizontal"]) then
    inl (update fuel r (alter (set_direction direction) r h))
  else inr tt.

(** The [layout_spacing] setter clamps at zero. *)
Definition set_layout_spacing (fuel : nat) (r : ref) (spacing : Z) (h : heap)
  : option (heap * trace) :=
  update fuel r (alter (set_spacing (Z.max 0 spacing)) r h).

(** [Component.handle_event]: emit on self, report unhandled. *)
Definition Component_handle_event (r : ref) (ev : string) : bool * trace :=
  (false, [(r, ev)]).

(** The propagation loop of [Container.handle_event] over the reversed
    child list. *)
Fixpoint propagate (g : ref -> option (bool * trace)) (vis : ref -> bool)
    (xs : list ref) : option (bool * trace) :=
  match xs with
  | [] => Some (false, [])
  | x :: xs' =>
      if vis x then
        match g x with
        | None => None
        | Some (true, t) => Some (true, t)
        | Some (false, t) =>
            match propagate g vis xs' with
            | None => None
            | Some (b, t') => Some (b, t ++ t')
            end
        end
      else propagate g vis xs'
  end.

(** [handle_event], dispatched on the class.  A subclass override that
    consumes the event returns [True] before the inherited behaviour
    runs. *)
Fixpoint handle_event (fuel : nat) (h : heap) (r : ref) (ev : string)
  : option (bool * trace) :=
  match fuel with
  | O => None
  | S f =>
      match h !! r with
      | None => None
      | Some c =>
          if bool_decide (ev ∈ intercepts c) then Some (true, [])
          else
            match cls c with
            | KComponent => Some (Component_handle_event r ev)
            | KContainer =>
                let '(handled, t0) := Component_handle_event r ev in
                if handled then Some (true, t0)
                else
                  match propagate (fun x => handle_event f h x ev)
                          (visible h) (rev (_children c)) with
                  | None => None
                  | Some (b, t) => Some (b, t0 ++ t)
                  end
            end
      end
  end.

(** The two [ValueError]s of [add_child]. *)
Inductive exn :=
  | DuplicateName (n : string)
  | DuplicateId (i : string).

Inductive outcome :=
  | Returned
  | Raised (e : exn).

Definition name_of (h : heap) (x : ref) : option string :=
  match h !! x with
  | Some c => name c
  | None => None
  end.

(** The sibling-name loop of [add_child]. *)
Definition name_clash (h : heap) (n : option string) (siblings : list ref)
  : bool :=
  match n with
  | None => false
  | Some s => existsb (fun e => bool_decide (name_of h e = Some s)) siblings
  end.

(** [self.root.find_by_id(i) is not None]. *)
Definition exists_in_tree (fuel : nat) (h : heap) (p : ref) (i : string)
  : option bool :=
  match root fuel h p with
  | None => None
  | Some rt =>
      match find_by_id fuel h rt i with
      | None => None
      | Some None => Some false
      | Some (Some _) => Some true
      end
  end.

(** [x.id is not None] and the tree of [p] already holds that id. *)
Definition id_taken (fuel : nat) (h : heap) (p : ref) (i : option string)
  : option bool :=
  match i with
  | None => Some false
  | Some s => exists_in_tree fuel h p s
  end.

(** The loop of [add_child] over the descendants of the child: the first
    descendant whose id the tree of the parent already holds. *)
Fixpoint first_duplicate (fuel : nat) (h : heap) (p : ref) (ds : list ref)
  : option (option ref) :=
  match ds with
  | [] => Some None
  | d :: ds' =>
      match h !! d with
      | None => None
      | Some dc =>
          match id_taken fuel h p (id dc) with
          | None => None
          | Some true => Some (Some d)
          | Some false => first_duplicate fuel h p ds'
          end
      end
  end.

Definition id_of (h : heap) (x : ref) : option string :=
  match h !! x with
  | Some c => id c
  | None => None
  end.

(** [Component.add_child].  The three checks come first and raise before
    any field is written. *)
Definition add_child (fuel : nat) (p c : ref) (h : heap)
  : option (outcome * heap * trace) :=
  match h !! p, h !! c with
  | Some pc, Some cc =>
      if bool_decide (c ∈ _children pc) then Some (Returned, h, [])
      else if name_clash h (name cc) (_children pc) then
        Some (Raised (DuplicateName (default "" (name cc))), h, [])
      else
        match id_taken fuel h p (id cc) with
        | None => None
        | Some true => Some (Raised (DuplicateId (default "" (id cc))), h, [])
        | Some false =>
            match _get_all_descendants fuel h c with
            | None => None
            | Some descendants =>
                match first_duplicate fuel h p descendants with
                | None => None
                | Some (Some d) =>
                    Some (Raised (DuplicateId (default "" (id_of h d))), h, [])
                | Some None =>
                    let h1 :=
                      alter (fun x => set_children (_children x ++ [c]) x)
                        p h in
                    let h2 := alter (set_parent (Some p)) c h1 in
                    if _is_mounted pc then
                      match mount fuel c h2 with
                      | None => None
                      | Some (h3, t) => Some (Returned, h3, t)
                      end
                    else Some (Returned, h2, [])
                end
            end
        end
  | _, _ => None
  end.

(** [list.remove(x)]: the list without the first occurrence of [x]. *)
Fixpoint list_remove (c : ref) (l : list ref) : list ref :=
  match l with
  | [] => []
  | x :: l' => if Nat.eqb x c then l' else x :: list_remove c l'
  end.

(** [Component.remove_child]: nothing for a component that is not a
    child; otherwise the child is unmounted when the parent is mounted,
    taken out of the child list, and its parent reference is cleared. *)
Definition remove_child (fuel : nat) (p c : ref) (h : heap)
  : option (heap * trace) :=
  match h !! p with
  | None => None
  | Some pc =>
      if bool_decide (c ∈ _children pc) then
        match (if _is_mounted pc then unmount fuel c h else Some (h, [])) with
        | None => None
        | Some (h1, t) =>
            let h2 :=
              alter (fun x => set_children (list_remove c (_children x)) x)
                p h1 in
            Some (alter (set_parent None) c h2, t)
        end
      else Some (h, [])
  end.

(** The [children] property: a copy of the child list. *)
Definition children (h : heap) (r : ref) : list ref :=
  match h !! r with
  | Some c => _children c
  | None => []
  end.

(** ** reterm/events.py *)

(** [blinker], the signal library that [EventEmitter] delegates to, is
    not part of the repository.  What the emitter relies on is kept here:
    [signal(name)] names one signal per process, a signal keeps one entry
    per connected receiver, and [send(sender, **kwargs)] calls each
    receiver with the sender and the keyword arguments.  Receivers are
    listed in connection order; the library itself promises no order.
    The library holds its receivers weakly: a receiver that is
    garbage-collected leaves every signal, which [collect] stands for.
    Its [send] has a keyword parameter of its own, [_async_wrapper],
    which it does not pass on; the statements about the payload that a
    handler receives are made for payloads without that keyword. *)
Module Blinker.
Definition handler := nat.

(** One call of a handler, as the callee sees it. *)
Record call := mkCall {
  callee : handler;
  sender : nat;
  args : list value;
  kwargs : list (string * value)
}.

Definition signal := list handler.
Definition namespace := gmap string signal.

Definition receivers (ns : namespace) (n : string) : signal :=
  default [] (ns !! n).

Definition connect (n : string) (f : handler) (ns : namespace)
  : namespace :=
  if bool_decide (f ∈ receivers ns n) then <[n := receivers ns n]> ns
  else <[n := receivers ns n ++ [f]]> ns.

Definition disconnect (n : string) (f : handler) (ns : namespace)
  : namespace :=
  <[n := List.filter (fun g => negb (Nat.eqb g f)) (receivers ns n)]> ns.

(** A receiver is garbage-collected: it leaves every signal. *)
Definition collect (f : handler) (ns : namespace) : namespace :=
  List.filter (fun g => negb (Nat.eqb g f)) <$> ns.

Definition send (ns : namespace) (n : string) (snd : nat)
    (kw : list (string * value)) : list call :=
  map (fun f => mkCall f snd [] kw) (receivers ns n).
End Blinker.

Module EventEmitter.
Import Blinker.

(** An emitter: its identity, the handler lists it keeps per event
    name, and the event names for which it holds a signal. *)
Record t := mk {
  self : nat;
  _event_handlers : gmap string (list handler);
  _signals : gset string
}.

Definition init (i : nat) : t := mk i ∅ ∅.

Definition on (n : string) (f : handler) (st : namespace * t)
  : namespace * t :=
  let '(ns, e) := st in
  (connect n f ns,
   mk (self e)
      (<[n := default [] (_event_handlers e !! n) ++ [f]]>
         (_event_handlers e))
      ({[ n ]} ∪ _signals e)).

(** [list.remove]: drop the first occurrence. *)
Fixpoint remove_first (f : handler) (l : list handler) : list handler :=
  match l with
  | [] => []
  | g :: l' => if Nat.eqb g f then l' else g :: remove_first f l'
  end.

(** [off(event_name, handler)]; [None] removes every handler that this
    emitter registered for the name. *)
Definition off (n : string) (f : option handler) (st : namespace * t)
  : namespace * t :=
  let '(ns, e) := st in
  if bool_decide (n ∈ _signals e) then
    match f with
    | None =>
        match _event_handlers e !! n with
        | Some l =>
            (foldr (disconnect n) ns l,
             mk (self e) (<[n := []]> (_event_handlers e)) (_signals e))
        | None => st
        end
    | Some g =>
        (disconnect n g ns,
         match _event_handlers e !! n with
         | Some l =>
             if bool_decide (g ∈ l) then
               mk (self e) (<[n := remove_first g l]> (_event_handlers e))
                  (_signals e)
             else e
         | None => e
         end)
    end
  else st.

(** [emit(event_name, *args, **kwargs)]: the calls that reach handlers.
    The source hands [self] and [**kwargs] to [send]. *)
Definition emit (n : string) (a : list value) (kw : list (string * value))
    (st : namespace * t) : list call :=
  let '(ns, e) := st in
  if bool_decide (n ∈ _signals e) then send ns n (self e) kw
  else [].
End EventEmitter.

(** [EventBus]: the process-wide emitter.  [__new__] creates the
    instance once, with [_initialized] set to [False]; [__init__] probes
    and sets the attribute under the same name. *)
Module EventBus.
Import Blinker.

(** The instance: its identity, the attribute [_initialized] when it is
    set, and the emitter fields when [EventEmitter.__init__] has run. *)
Record object := mkObject {
  oid : nat;
  _initialized : option bool;
  emitter : option EventEmitter.t
}.

Record process := mkProcess {
  next_id : nat;
  _instance : option object
}.

Definition start : process := mkProcess 0 None.

(** [__new__]. *)
Definition __new__ (pr : process) : process * object :=
  match _instance pr with
  | None =>
      let o := mkObject (next_id pr) (Some false) None in
      (mkProcess (S (next_id pr)) (Some o), o)
  | Some o => (pr, o)
  end.

(** [__init__]. *)
Definition __init__ (o : object) : object :=
  match _initialized o with
  | Some true => o
  | _ => mkObject (oid o) (Some true) (Some (EventEmitter.init (oid o)))
  end.

(** [EventBus()]. *)
Definition acquire (pr : process) : process * nat :=
  let '(pr1, o) := __new__ pr in
  let o' := __init__ o in
  (mkProcess (next_id pr1) (Some o'), oid o').

(** A method of [EventEmitter] called through a reference to the bus. *)
Definition through
    (m : namespace * EventEmitter.t -> namespace * EventEmitter.t)
    (st : namespace * process) : namespace * process :=
  match _instance st.2 with
  | Some o =>
      match emitter o with
      | Some e =>
          let '(ns', e') := m (st.1, e) in
          (ns', mkProcess (next_id st.2)
                  (Some (mkObject (oid o) (_initialized o) (Some e'))))
      | None => st
      end
  | None => st
  end.

(** [emit] called through a reference to the bus. *)
Definition emit (n : string) (a : list value) (kw : list (string * value))
    (st : namespace * process) : list call :=
  match _instance st.2 with
  | Some o =>
      match emitter o with
      | Some e => EventEmitter.emit n a kw (st.1, e)
      | None => []
      end
  | None => []
  end.
End EventBus.

(** ** reterm/state.py *)

(** What a keyword argument of a state notification holds. *)
Inductive kwarg :=
  | KVal (v : value)
  | KKeys (ks : list string)
  | KDict (d : list (string * value)).

(** An [emit] call of a state: the event name and the keyword
    arguments. *)
Definition emission := (string * list (string * kwarg))%type.

Module State.
Record t := mk {
  _state : gmap string value;
  _previous_state : gmap string value
}.

(** [State(initial_state)]. *)
Definition init (initial_state : gmap string value) : t :=
  mk initial_state ∅.

(** [get(key, default=None)]. *)
Definition get_default (s : t) (key : string) (d : value) : value :=
  default d (_state s !! key).

Definition get (s : t) (key : string) : value := get_default s key VNone.

Definition get_previous (s : t) (key : string) (d : value) : value :=
  default d (_previous_state s !! key).

Definition get_all (s : t) : gmap string value := _state s.

(** [set(key, value)]. *)
Definition set (key : string) (v : value) (s : t) : t * list emission :=
  let old_value := get s key in
  if bool_decide (old_value <> v) then
    (mk (<[key := v]> (_state s)) (<[key := old_value]> (_previous_state s)),
     [(Events.STATE_CHANGE,
       [("key", KVal (VStr key)); ("value", KVal v);
        ("old_value", KVal old_value)])])
  else (s, []).

(** The loop of [update] over [updates.items()]. *)
Fixpoint update_loop (items : list (string * value)) (s : t)
    (changed_keys : list string) : t * list string :=
  match items with
  | [] => (s, changed_keys)
  | (key, v) :: rest =>
      let old_value := get s key in
      if bool_decide (old_value <> v) then
        update_loop rest
          (mk (<[key := v]> (_state s))
              (<[key := old_value]> (_previous_state s)))
          (changed_keys ++ [key])
      else update_loop rest s changed_keys
  end.

(** [update(updates)]; [updates] is a dict, given by its items in
    insertion order. *)
Definition update (updates : list (string * value)) (s : t)
  : t * list emission :=
  let '(s', changed_keys) := update_loop updates s [] in
  match changed_keys with
  | [] => (s', [])
  | _ :: _ =>
      (s', [(Events.STATE_CHANGE,
             [("keys", KKeys changed_keys); ("updates", KDict updates)])])
  end.
End State.

(** [StateManager]: the process-wide registry.  Instance attributes are
    kept by name, because [__init__] asks [hasattr] for one by name. *)
Module StateManager.
Inductive attr :=
  | ABool (b : bool)
  | AStates (m : gmap string State.t).

(** An object: its identity and its attribute dictionary. *)
Record object := mkObject {
  oid : nat;
  attrs : gmap string attr
}.

(** The class: the class attribute [_instance] and the next free
    identity. *)
Record process := mkProcess {
  next_id : nat;
  _instance : option object
}.

Definition start : process := mkProcess 0 None.

(** Private name mangling: inside [class C], the identifier [__x] in an
    attribute reference stands for [_C__x].  String literals are left
    as written. *)
Definition mangle (c x : string) : string := "_" +:+ c +:+ x.

Definition hasattr (o : object) (n : string) : bool :=
  bool_decide (is_Some (attrs o !! n)).

Definition setattr (n : string) (a : attr) (o : object) : object :=
  mkObject (oid o) (<[n := a]> (attrs o)).

(** [__new__]. *)
Definition __new__ (pr : process) : process * object :=
  match _instance pr with
  | None =>
      let o := setattr (mangle "StateManager" "__initialized")
                 (ABool false) (mkObject (next_id pr) ∅) in
      (mkProcess (S (next_id pr)) (Some o), o)
  | Some o => (pr, o)
  end.

(** Truth value of an attribute read; reading one that is not there
    raises [AttributeError], which [None] stands for. *)
Definition getattr_bool (o : object) (n : string) : option bool :=
  match attrs o !! n with
  | Some (ABool b) => Some b
  | Some (AStates m) => Some (negb (bool_decide (m = ∅)))
  | None => None
  end.

(** [__init__]: [hasattr(self, "__initialized")] names the attribute by
    a string literal, [self.__initialized] by an identifier; [or] reads
    its right operand only when the left one is false. *)
Definition __init__ (o : object) : option object :=
  let body :=
    setattr (mangle "StateManager" "__initialized") (ABool true)
      (setattr "_states" (AStates ∅) o) in
  if negb (hasattr o "__initialized") then Some body
  else
    match getattr_bool o (mangle "StateManager" "__initialized") with
    | None => None
    | Some b => if negb b then Some body else Some o
    end.

(** [StateManager()]: [__new__], then [__init__] on what it returned.
    The result is the identity of the object handed out. *)
Definition acquire (pr : process) : option (process * nat) :=
  let '(pr1, o) := __new__ pr in
  match __init__ o with
  | None => None
  | Some o' => Some (mkProcess (next_id pr1) (Some o'), oid o')
  end.

Inductive result (A : Type) :=
  | Ok (a : A)
  | ValueError
  | KeyError.
Arguments Ok {A} a.
Arguments ValueError {A}.
Arguments KeyError {A}.

Definition _states (o : object) : gmap string State.t :=
  match attrs o !! "_states" with
  | Some (AStates m) => m
  | _ => ∅
  end.

(** [create_state(name, initial_state)]. *)
Definition create_state (n : string) (initial_state : gmap string value)
    (o : object) : object * result State.t :=
  if bool_decide (is_Some (_states o !! n)) then (o, ValueError)
  else
    let st := State.init initial_state in
    (setattr "_states" (AStates (<[n := st]> (_states o))) o, Ok st).

(** [get_state(name)]. *)
Definition get_state (n : string) (o : object) : result State.t :=
  match _states o !! n with
  | Some st => Ok st
  | None => KeyError
  end.

(** A method call through a reference to the instance: every reference
    handed out denotes the one object in [_instance]. *)
Definition call {A : Type} (m : object -> object * A) (pr : process)
  : option (process * A) :=
  match _instance pr with
  | None => None
  | Some o =>
      let '(o', a) := m o in
      Some (mkProcess (next_id pr) (Some o'), a)
  end.
End StateManager.

(* ================================================================== *)
(** * Part II: vocabulary of the statements *)
(* ================================================================== *)

Section RegistryVocabulary.
Import StateManager.

(** The attribute that [__init__] probes by its literal name is never
    set by this class. *)
Definition unprobed (o : object) : Prop := attrs o !! "__initialized" = None.

(** Acquire, create ["a"], acquire again, create ["a"] again. *)
Definition create_acquire_create
  : option (result State.t * result State.t) :=
  match acquire start with
  | None => None
  | Some (pr1, _) =>
      match call (create_state "a" ∅) pr1 with
      | None => None
      | Some (pr2, r1) =>
          match acquire pr2 with
          | None => None
          | Some (pr3, _) =>
              match call (create_state "a" ∅) pr3 with
              | None => None
              | Some (_, r2) => Some (r1, r2)
              end
          end
      end
  end.
End RegistryVocabulary.

Section StateVocabulary.
Import State.

(** The keys of [updates] whose value differs from the one in [s]. *)
Definition changed_in (s : t) (updates : list (string * value))
  : list string :=
  map fst
    (List.filter (fun kv => bool_decide (get s kv.1 <> kv.2)) updates).

(** A state that holds one key. *)
Definition C7_state0 : t := mk {[ "a" := VInt 1 ]} ∅.
End StateVocabulary.

(** The fields that no lifecycle or layout method writes. *)
Definition skel (c : Component) :=
  (cls c, intercepts c, id c, name c, _parent c, _children c,
   _is_visible c, _layout_direction c, _layout_spacing c).

(** Position and size. *)
Definition geom (c : Component) := (_position c, _size c).

(** Two stores hold the same objects and agree on the projection [f]. *)
Definition same_on {A : Type} (f : Component -> A) (h h' : heap) : Prop :=
  forall x, f <$> (h' !! x) = f <$> (h !! x).

(** [edge h p c]: [c] is in the child list of [p]. *)
Definition edge (h : heap) (p c : ref) : Prop :=
  exists pc, h !! p = Some pc /\ c ∈ _children pc.

(** [reach h r x]: [x] is [r] or one of its descendants. *)
Definition reach (h : heap) : ref -> ref -> Prop := rtc (edge h).

(** [below h r x]: [x] is a descendant of [r]. *)
Definition below (h : heap) : ref -> ref -> Prop := tc (edge h).

(** [root_of h x R]: walking the parent references from [x] ends in
    [R]. *)
Inductive root_of (h : heap) : ref -> ref -> Prop :=
  | root_of_top r c :
      h !! r = Some c -> _parent c = None -> root_of h r r
  | root_of_up r c p R :
      h !! r = Some c -> _parent c = Some p -> root_of h p R ->
      root_of h r R.

Definition is_mounted (h : heap) (x : ref) : bool :=
  match h !! x with
  | Some c => _is_mounted c
  | None => false
  end.

(** The child lists are acyclic: [rank] decreases along every edge, and
    every child reference denotes an object. *)
Definition ranked (h : heap) (rank : ref -> nat) : Prop :=
  forall x cx y, h !! x = Some cx -> y ∈ _children cx ->
    is_Some (h !! y) /\ rank y < rank x.

(** The parent references are acyclic: [depth] decreases towards the
    root. *)
Definition parents_ranked (h : heap) (depth : ref -> nat) : Prop :=
  forall x cx p, h !! x = Some cx -> _parent cx = Some p ->
    is_Some (h !! p) /\ depth p < depth x.

(** The bound that the checks of [add_child] need. *)
Definition enough (h : heap) (rank depth : ref -> nat) (fuel : nat) : Prop :=
  forall x, is_Some (h !! x) -> rank x < fuel /\ depth x < fuel.

(** Executable versions of the fuel conditions, for concrete stores. *)
Definition ranked_check (h : heap) (rank : ref -> nat) : bool :=
  forallb
    (fun x =>
       match h !! x with
       | Some cx =>
           forallb
             (fun y =>
                match h !! y with
                | Some _ => rank y <? rank x
                | None => false
                end)
             (_children cx)
       | None => true
       end)
    (seq 0 (length h)).

Definition parents_ranked_check (h : heap) (depth : ref -> nat) : bool :=
  forallb
    (fun x =>
       match h !! x with
       | Some cx =>
           match _parent cx with
           | Some p =>
               match h !! p with
               | Some _ => depth p <? depth x
               | None => false
               end
           | None => true
           end
       | None => true
       end)
    (seq 0 (length h)).

Definition enough_check (h : heap) (rank depth : ref -> nat) (fuel : nat)
  : bool :=
  forallb (fun x => (rank x <? fuel) && (depth x <? fuel)) (seq 0 (length h)).

(** A small store: a container [0] with the children [1] and [2], and
    three detached components. *)
Definition sample : heap :=
  [ set_children [1; 2] (new_object KContainer [] (Some "root") None);
    set_parent (Some 0) (new_object KComponent [] (Some "a") (Some "left"));
    set_parent (Some 0) (new_object KComponent [] (Some "b") (Some "right"));
    new_object KComponent [] (Some "a") None;
    new_object KComponent [] None (Some "left");
    set_children [6] (new_object KContainer [] None None);
    set_parent (Some 5) (new_object KComponent [] (Some "b") None) ].

Definition sample_rank (x : ref) : nat :=
  match x with 0 => 1 | 5 => 1 | _ => 0 end.

Definition sample_depth (x : ref) : nat :=
  match x with 1 => 1 | 2 => 1 | 6 => 1 | _ => 0 end.

(** [flips d ev h h' t]: between [h] and [h'] mounted flags only moved
    to [d], and [t] holds one [ev] emission for each component whose flag
    moved, and nothing else. *)
Definition flips (d : bool) (ev : string) (h h' : heap) (t : trace) : Prop :=
  (forall x, is_mounted h x = d -> is_mounted h' x = d) /\
  (forall x, (x, ev) ∈ t -> is_mounted h x = negb d /\ is_mounted h' x = d) /\
  (forall x, is_mounted h x = negb d -> is_mounted h' x = d -> (x, ev) ∈ t) /\
  NoDup t /\
  (forall e, e ∈ t -> e.2 = ev).

(** The sample tree after [mount] on its root. *)
Definition sample_mounted : heap :=
  match mount 3 0 sample with
  | Some (h, _) => h
  | None => []
  end.

(** A container with a plain child, a child whose class consumes
    ["click"], and a hidden child whose class consumes it too. *)
Definition buttons : heap :=
  [ set_children [1; 2; 3] (new_object KContainer [] None None);
    set_parent (Some 0) (new_object KComponent [] (Some "label") None);
    set_parent (Some 0) (new_object KComponent ["click"] (Some "ok") None);
    set_visible_flag false
      (set_parent (Some 0)
         (new_object KComponent ["click"] (Some "hidden") None)) ].

(** What an [update] of [x] may write: lifecycle status anywhere, and
    position and size of descendants of [x] only. *)
Definition frames (upd : ref -> heap -> option (heap * trace)) : Prop :=
  forall x h h' t, upd x h = Some (h', t) ->
    same_on skel h h' /\ same_on _is_mounted h h' /\
    forall y, ~ below h x y -> geom <$> (h' !! y) = geom <$> (h !! y).

(** The container of the layout test, with the given spacing. *)
Definition vbox (sp : Z) : heap :=
  [ set_spacing sp
      (set_sz (100, 200)%Z
         (set_children [1; 2] (new_object KContainer [] None None)));
    set_parent (Some 0) (new_object KComponent [] (Some "child1") None);
    set_parent (Some 0) (new_object KComponent [] (Some "child2") None) ].

(** A mounted plain component at position (0, 0). *)
Definition mounted_leaf : heap :=
  [set_lifecycle true MOUNTED (new_object KComponent [] None None)].

(** No two components below one component share an id. *)
Definition unique_ids (h : heap) : Prop :=
  forall R x y i, reach h R x -> reach h R y ->
    id_of h x = Some i -> id_of h y = Some i -> x = y.

(** Four constructor calls and three [add_child] calls: [c] is added to
    [q] and then to [p], and [d] is added to [c]. *)
Definition shared_child_build : option heap :=
  let '(q, h) := new_component KComponent (Some "x") None [] in
  let '(c, h) := new_component KComponent None None h in
  let '(p, h) := new_component KComponent None None h in
  let '(d, h) := new_component KComponent (Some "x") None h in
  match add_child 5 q c h with
  | Some (Returned, h, _) =>
      match add_child 5 p c h with
      | Some (Returned, h, _) =>
          match add_child 5 c d h with
          | Some (Returned, h, _) => Some h
          | _ => None
          end
      | _ => None
      end
  | _ => None
  end.

(** The store is a forest: parent references and child lists agree,
    every parent chain ends, and ids are unique within each tree. *)
Definition forest (h : heap) : Prop :=
  (forall x cx p, h !! x = Some cx -> _parent cx = Some p -> edge h p x) /\
  (forall p x, edge h p x ->
     exists cx, h !! x = Some cx /\ _parent cx = Some p) /\
  (forall x, is_Some (h !! x) -> exists R, root_of h x R) /\
  (forall R x y i, root_of h x R -> root_of h y R ->
     id_of h x = Some i -> id_of h y = Some i -> x = y).

(** The store after the two writes of [add_child]. *)
Definition inserted (h : heap) (p c : ref) : heap :=
  alter (set_parent (Some p)) c
    (alter (fun x => set_children (_children x ++ [c]) x) p h).

(** [c] can be attached to [p]: it has no parent and is not the root of
    the tree of [p]. *)
Definition detached (h : heap) (p c : ref) : Prop :=
  (exists cc, h !! c = Some cc /\ _parent cc = None) /\ ~ root_of h p c.

(** Stores built from constructor calls, [add_child] calls that attach a
    detached component, and [mount] and [unmount] calls. *)
Inductive built : heap -> Prop :=
  | built_empty : built []
  | built_new h k i n : built h -> built (new_component k i n h).2
  | built_add h fuel p c h' t :
      built h -> detached h p c ->
      add_child fuel p c h = Some (Returned, h', t) -> built h'
  | built_mount h fuel r h' t :
      built h -> mount fuel r h = Some (h', t) -> built h'
  | built_unmount h fuel r h' t :
      built h -> unmount fuel r h = Some (h', t) -> built h'.

(** The number of parent steps from [x] to its root. *)
Fixpoint depth_of (fuel : nat) (h : heap) (x : ref) : nat :=
  match fuel with
  | O => O
  | S f =>
      match h !! x with
      | Some c =>
          match _parent c with
          | Some p => S (depth_of f h p)
          | None => O
          end
      | None => O
      end
  end.

(** A parent with id ["x"], its child with id ["y"], a detached
    component with id ["x"] and one with id ["z"]. *)
Definition small_tree : heap :=
  [ set_children [1] (new_object KComponent [] (Some "x") None);
    set_parent (Some 0) (new_object KComponent [] (Some "y") None);
    new_object KComponent [] (Some "x") None;
    new_object KComponent [] (Some "z") None ].

(** Every child of a mounted component is mounted. *)
Definition mounted_down (h : heap) : Prop :=
  forall p c, edge h p c -> is_mounted h p = true -> is_mounted h c = true.

(** Every child of an unmounted component is unmounted. *)
Definition unmounted_down (h : heap) : Prop :=
  forall p c, edge h p c -> is_mounted h p = false -> is_mounted h c = false.

(** Executable versions, for concrete stores. *)
Definition mounted_down_check (h : heap) : bool :=
  forallb
    (fun p => negb (is_mounted h p) || forallb (is_mounted h) (children h p))
    (seq 0 (length h)).

Definition unmounted_down_check (h : heap) : bool :=
  forallb
    (fun p => is_mounted h p ||
              forallb (fun c => negb (is_mounted h c)) (children h p))
    (seq 0 (length h)).

(** The closed form of the positioning loop of [calculate_layout]:
    [share] is the extent each of [n] visible children gets along the
    primary axis, [slot c n i] the position and the size of the [i]-th
    visible child of the container [c]. *)
Definition share (total sp : Z) (n : nat) : Z :=
  (Z.max 0 (total - sp * (Z.of_nat n - 1)) / Z.of_nat n)%Z.

Definition slot (c : Component) (n i : nat) : (Z * Z) * (Z * Z) :=
  if decide (_layout_direction c = "vertical") then
    let per := share (_size c).1 (_layout_spacing c) n in
    (((_position c).1 + Z.of_nat i * (per + _layout_spacing c),
      (_position c).2), (per, (_size c).2))%Z
  else
    let per := share (_size c).2 (_layout_spacing c) n in
    (((_position c).1,
      (_position c).2 + Z.of_nat i * (per + _layout_spacing c)),
     ((_size c).1, per))%Z.

(** The coordinate of a pair along the primary axis of [c]: the row or
    the height for a vertical container, the column or the width
    otherwise. *)
Definition along (c : Component) (v : Z * Z) : Z :=
  if decide (_layout_direction c = "vertical") then v.1 else v.2.

(** A horizontal container at (5, 7) of size (10, 100) with spacing 2,
    two visible children and a hidden one between them. *)
Definition hbox : heap :=
  [ set_direction "horizontal"
      (set_spacing 2
         (set_pos (5, 7)%Z
            (set_sz (10, 100)%Z
               (set_children [1; 2; 3]
                  (new_object KContainer [] None None)))));
    set_parent (Some 0) (new_object KComponent [] (Some "first") None);
    set_visible_flag false
      (set_parent (Some 0) (new_object KComponent [] (Some "hidden") None));
    set_parent (Some 0) (new_object KComponent [] (Some "last") None) ].

(** [shows h p c]: [p] is a container and [c] one of its visible
    children; [shown h r x]: [x] is [r] or is linked to [r] by such
    steps. *)
Definition shows (h : heap) (p c : ref) : Prop :=
  exists pc, h !! p = Some pc /\ cls pc = KContainer /\
             c ∈ _children pc /\ visible h c = true.

Definition shown (h : heap) : ref -> ref -> Prop := rtc (shows h).

(** Stores built like [built] ones, with [remove_child] calls too. *)
Inductive assembled : heap -> Prop :=
  | assembled_empty : assembled []
  | assembled_new h k i n :
      assembled h -> assembled (new_component k i n h).2
  | assembled_add h fuel p c h' t :
      assembled h -> detached h p c ->
      add_child fuel p c h = Some (Returned, h', t) -> assembled h'
  | assembled_remove h fuel p c h' t :
      assembled h -> remove_child fuel p c h = Some (h', t) -> assembled h'
  | assembled_mount h fuel r h' t :
      assembled h -> mount fuel r h = Some (h', t) -> assembled h'
  | assembled_unmount h fuel r h' t :
      assembled h -> unmount fuel r h = Some (h', t) -> assembled h'.

(** The store after the two writes of [remove_child]. *)
Definition removed (h : heap) (p c : ref) : heap :=
  alter (set_parent None) c
    (alter (fun o => set_children (list_remove c (_children o)) o) p h).

(* ================================================================== *)
(** * Part III: properties *)
(* ================================================================== *)

(** ** The named-state registry *)

Section Registry.
Import StateManager.

Lemma __new___unprobed pr pr' o :
  (forall o0, _instance pr = Some o0 -> unprobed o0) ->
  __new__ pr = (pr', o) -> unprobed o /\ _instance pr' = Some o.
Proof.
  unfold __new__. intros Hinv Hnew.
  destruct (_instance pr) as [o0|] eqn:Hi.
  - inversion Hnew; subst. auto.
  - inversion Hnew; subst. split; [|reflexivity].
    unfold unprobed, setattr, mangle. simpl.
    apply lookup_insert_None. split; [apply lookup_empty|discriminate].
Qed.

(** Every acquisition runs the body of [__init__], which empties the
    registry. *)
Lemma acquire_resets pr :
  (forall o0, _instance pr = Some o0 -> unprobed o0) ->
  exists pr' o',
    acquire pr = Some (pr', oid o') /\ _instance pr' = Some o' /\
    unprobed o' /\ _states o' = ∅.
Proof.
  intros Hinv. unfold acquire.
  destruct (__new__ pr) as [pr1 o] eqn:Hnew.
  destruct (__new___unprobed _ _ _ Hinv Hnew) as [Hun _].
  unfold __init__, hasattr. rewrite Hun.
  rewrite bool_decide_eq_false_2 by (intros [? ?]; discriminate).
  simpl.
  eexists _, (setattr (mangle "StateManager" "__initialized") (ABool true)
                (setattr "_states" (AStates ∅) o)).
  split; [reflexivity|]. split; [reflexivity|].
  split.
  - unfold unprobed, setattr, mangle. simpl.
    rewrite lookup_insert_ne by discriminate.
    rewrite lookup_insert_ne by discriminate. exact Hun.
  - unfold _states, setattr, mangle. simpl.
    rewrite lookup_insert_ne by discriminate.
    by rewrite lookup_insert_eq.
Qed.

(** Two acquisitions hand out the same object. *)
Lemma acquire_same_instance pr pr1 r1 pr2 r2 :
  acquire pr = Some (pr1, r1) -> acquire pr1 = Some (pr2, r2) -> r1 = r2.
Proof.
  unfold acquire. intros H1 H2.
  destruct (__new__ pr) as [pa oa] eqn:Ha.
  destruct (__init__ oa) as [oa'|] eqn:Hia; [|discriminate].
  inversion H1; subst; clear H1.
  unfold __new__ in H2. simpl in H2.
  destruct (__init__ oa') as [ob'|] eqn:Hib; [|discriminate].
  inversion H2; subst; clear H2.
  assert (Hoid : forall o o', __init__ o = Some o' -> oid o' = oid o).
  { intros o o'. unfold __init__.
    destruct (negb (hasattr o "__initialized")).
    - intros [= <-]. reflexivity.
    - destruct (getattr_bool _ _) as [[]|]; intros [= <-]; reflexivity. }
  symmetry. eauto.
Qed.

(** A name that was never created is a lookup miss. *)
Lemma get_state_missing o n :
  _states o !! n = None -> get_state n o = KeyError.
Proof. unfold get_state. by intros ->. Qed.

(** On one reference, creating a name twice is refused. *)
Lemma create_state_twice o n i1 i2 :
  (create_state n i2 (create_state n i1 o).1).2 = ValueError.
Proof.
  unfold create_state at 2.
  destruct (bool_decide (is_Some (_states o !! n))) eqn:Hd; simpl.
  - unfold create_state. by rewrite Hd.
  - assert (Hs : _states
                   (setattr "_states"
                      (AStates (<[n := State.init i1]> (_states o))) o)
                 = <[n := State.init i1]> (_states o)).
    { unfold _states at 1, setattr. simpl. by rewrite lookup_insert_eq. }
    unfold create_state. rewrite Hs, lookup_insert_eq.
    rewrite bool_decide_eq_true_2 by eauto. reflexivity.
Qed.

(** C2: a named container is meant to be created at most once per name
    whatever acquisitions happen in between.  The code does otherwise:
    after [StateManager()] is called again, creating the name a second
    time returns a fresh container instead of raising. *)
Theorem C2_recreate_after_reacquire :
  create_acquire_create = Some (Ok (State.init ∅), Ok (State.init ∅)).
Proof. vm_compute. reflexivity. Qed.
End Registry.

(** ** The event emitter *)

Section Emitter.
Import Blinker EventEmitter.

(** Without a handler registered through this emitter, [emit] does
    nothing. *)
Lemma emit_fresh_noop i n a kw ns :
  emit n a kw (ns, init i) = [].
Proof. reflexivity. Qed.

(** One handler, one emission with a positional payload. *)
Example emit_positional_example :
  emit "test" [VInt 1] [] (on "test" 7 (∅, init 0)) = [mkCall 7 0 [] []].
Proof. vm_compute. reflexivity. Qed.

(** Keyword payload does arrive. *)
Example emit_keyword_example :
  emit "test" [] [("value", VStr "hello")] (on "test" 7 (∅, init 0))
  = [mkCall 7 0 [] [("value", VStr "hello")]].
Proof. vm_compute. reflexivity. Qed.

(** Signals are named per process: a handler registered through another
    emitter for the same event name is called as well. *)
Example emit_reaches_other_emitters :
  emit "test" [] [] (on "test" 7 ((on "test" 8 (∅, init 1)).1, init 0))
  = [mkCall 8 0 [] []; mkCall 7 0 [] []].
Proof. vm_compute. reflexivity. Qed.

(** C5: [emit] is meant to pass the emitting object and the payload to
    every handler.  The code passes the emitting object and the keyword
    arguments only: whatever positional payload [emit] receives, every
    call it makes carries none. *)
Theorem C5_emit_drops_positional_payload
    (n : string) (a : list value) (kw : list (string * value))
    (st : namespace * t) :
  Forall (fun c => args c = [] /\ kwargs c = kw /\ sender c = self st.2)
    (emit n a kw st).
Proof.
  destruct st as [ns e]. unfold emit, send. simpl.
  destruct (bool_decide (n ∈ _signals e)); [|constructor].
  induction (receivers ns n) as [|f fs IH]; simpl; constructor; auto.
Qed.
End Emitter.

(** ** The observable state *)

Section ObservableState.
Import State.

Lemma get_insert_ne s k k' v p :
  k <> k' -> get (mk (<[k := v]> (_state s)) p) k' = get s k'.
Proof.
  intros Hne. unfold get, get_default. simpl.
  by rewrite lookup_insert_ne.
Qed.

Lemma changed_in_insert_fresh s k v p items :
  k ∉ map fst items ->
  changed_in (mk (<[k := v]> (_state s)) p) items = changed_in s items.
Proof.
  unfold changed_in. induction items as [|[k' v'] items IH]; [done|].
  intros Hk. simpl in Hk. apply not_elem_of_cons in Hk as [Hne Hk].
  simpl. rewrite get_insert_ne by done.
  destruct (bool_decide (get s k' <> v')); simpl; by rewrite IH.
Qed.

(** With distinct keys, the loop collects the keys that differ from
    the state it started with. *)
Lemma update_loop_changed items : forall s acc,
  NoDup (map fst items) ->
  (update_loop items s acc).2 = acc ++ changed_in s items.
Proof.
  induction items as [|[k v] items IH]; intros s acc Hnd.
  - simpl. unfold changed_in. simpl. by rewrite app_nil_r.
  - simpl in Hnd. apply NoDup_cons in Hnd as [Hk Hnd].
    simpl. unfold changed_in at 1. simpl.
    destruct (bool_decide (get s k <> v)) eqn:Hd.
    + rewrite IH by done. simpl.
      rewrite changed_in_insert_fresh by done.
      by rewrite <- app_assoc.
    + by rewrite IH.
Qed.

Lemma changed_in_keys s items k :
  k ∈ changed_in s items -> k ∈ map fst items.
Proof.
  unfold changed_in. intros Hk.
  apply list_elem_of_In, in_map_iff in Hk as ([k' v'] & <- & Hin).
  apply filter_In in Hin as [Hin _].
  apply list_elem_of_In, in_map_iff. by exists (k', v').
Qed.

Lemma changed_in_cons s k v items :
  changed_in s ((k, v) :: items) =
    if bool_decide (get s k <> v) then k :: changed_in s items
    else changed_in s items.
Proof. unfold changed_in. simpl. by destruct (bool_decide _). Qed.

Lemma NoDup_keys_fun (items : list (string * value)) k v v' :
  NoDup (map fst items) -> (k, v) ∈ items -> (k, v') ∈ items -> v = v'.
Proof.
  induction items as [|[k0 v0] items IH]; simpl; intros Hnd Hv Hv'.
  { by apply elem_of_nil in Hv. }
  apply NoDup_cons in Hnd as [Hk0 Hnd].
  assert (Hkey : forall w, (k0, w) ∈ items -> False).
  { intros w Hw. apply Hk0. apply list_elem_of_In, in_map_iff.
    exists (k0, w). split; [done|]. by apply list_elem_of_In. }
  apply elem_of_cons in Hv as [Hv|Hv]; apply elem_of_cons in Hv' as [Hv'|Hv'].
  - congruence.
  - injection Hv as -> ->. by destruct (Hkey v').
  - injection Hv' as -> ->. by destruct (Hkey v).
  - by apply IH.
Qed.

(** With distinct keys, the loop stores the new value and records the
    old one for every key it collects, and leaves every other key as it
    was. *)
Lemma update_loop_stores items : forall s acc k,
  NoDup (map fst items) ->
  (k ∈ changed_in s items ->
   exists v, (k, v) ∈ items /\ get s k <> v /\
     _state (update_loop items s acc).1 !! k = Some v /\
     _previous_state (update_loop items s acc).1 !! k = Some (get s k)) /\
  (k ∉ changed_in s items ->
   _state (update_loop items s acc).1 !! k = _state s !! k /\
   _previous_state (update_loop items s acc).1 !! k =
     _previous_state s !! k).
Proof.
  induction items as [|[k0 v0] items IH]; intros s acc k Hnd.
  { split; [|done]. intros Hk. by apply elem_of_nil in Hk. }
  simpl in Hnd. apply NoDup_cons in Hnd as [Hk0 Hnd].
  rewrite changed_in_cons.
  change (update_loop ((k0, v0) :: items) s acc) with
    (if bool_decide (get s k0 <> v0)
     then update_loop items
            (mk (<[k0 := v0]> (_state s))
                (<[k0 := get s k0]> (_previous_state s)))
            (acc ++ [k0])
     else update_loop items s acc).
  destruct (bool_decide (get s k0 <> v0)) eqn:Hd.
  - apply bool_decide_eq_true in Hd.
    set (s1 := mk (<[k0 := v0]> (_state s))
                  (<[k0 := get s k0]> (_previous_state s))).
    assert (Hch : changed_in s1 items = changed_in s items)
      by (by apply changed_in_insert_fresh).
    destruct (IH s1 (acc ++ [k0]) k Hnd) as [IHin IHout].
    rewrite Hch in IHin, IHout.
    destruct (decide (k = k0)) as [->|Hne].
    + assert (Hfresh : k0 ∉ changed_in s items).
      { intros Hin. by apply Hk0, (changed_in_keys s). }
      destruct (IHout Hfresh) as [Hst Hpr]. split.
      * intros _. exists v0. split; [apply list_elem_of_here|].
        split; [done|]. rewrite Hst, Hpr. unfold s1. simpl.
        by rewrite !lookup_insert_eq.
      * intros Hnin. destruct Hnin. apply list_elem_of_here.
    + assert (Hget : get s1 k = get s k).
      { unfold s1. by apply get_insert_ne. }
      split.
      * intros Hk. apply elem_of_cons in Hk as [Hk|Hk]; [done|].
        destruct (IHin Hk) as (v & Hin & Hv & Hst & Hpr).
        exists v. split; [by apply list_elem_of_further|].
        rewrite Hget in Hv, Hpr. done.
      * intros Hnin. apply not_elem_of_cons in Hnin as [_ Hnin].
        destruct (IHout Hnin) as [Hst Hpr]. rewrite Hst, Hpr.
        unfold s1. simpl. by rewrite !lookup_insert_ne.
  - destruct (IH s acc k Hnd) as [IHin IHout]. split; [|done].
    intros Hk. destruct (IHin Hk) as (v & Hin & Hrest).
    exists v. split; [by apply list_elem_of_further|done].
Qed.

(** C7: [set] emits one single-key notification with [key], [value]
    and [old_value] when the value differs from the current one (unset
    reads as [None]) and nothing when it is equal; [update] emits one
    batch notification with [keys] (the changed keys) and [updates] (the
    whole input) exactly when some key changed ([updates] is a dict, so
    its keys are distinct); the two shapes have different keyword
    names.  The keys in [keys] are the keys whose value after [update]
    differs from the one before: for each of them the new value is
    stored and the old one recorded as previous, every item of [updates]
    reads back, and every key outside [keys] is left as it was. *)
Theorem C7_state_notifications (s : t) :
  (forall key v, get s key <> v ->
     set key v s =
       (mk (<[key := v]> (_state s))
           (<[key := get s key]> (_previous_state s)),
        [(Events.STATE_CHANGE,
          [("key", KVal (VStr key)); ("value", KVal v);
           ("old_value", KVal (get s key))])])) /\
  (forall key v, get s key = v -> set key v s = (s, [])) /\
  (forall updates, NoDup (map fst updates) ->
     (update updates s).2 =
       match changed_in s updates with
       | [] => []
       | _ :: _ =>
           [(Events.STATE_CHANGE,
             [("keys", KKeys (changed_in s updates));
              ("updates", KDict updates)])]
       end) /\
  (forall key v updates e1 e2,
     e1 ∈ (set key v s).2 -> e2 ∈ (update updates s).2 ->
     map fst e1.2 = ["key"; "value"; "old_value"] /\
     map fst e2.2 = ["keys"; "updates"] /\ e1 <> e2) /\
  (forall updates, NoDup (map fst updates) ->
     (forall k, k ∈ changed_in s updates <->
                get (update updates s).1 k <> get s k) /\
     (forall k v, (k, v) ∈ updates -> get (update updates s).1 k = v) /\
     (forall k d, k ∈ changed_in s updates ->
        get_previous (update updates s).1 k d = get s k) /\
     (forall k, k ∉ changed_in s updates ->
        _state (update updates s).1 !! k = _state s !! k /\
        _previous_state (update updates s).1 !! k =
          _previous_state s !! k)).
Proof.
  split; [|split; [|split; [|split]]].
  - intros key v Hne. unfold set.
    by rewrite bool_decide_eq_true_2.
  - intros key v Heq. unfold set.
    rewrite bool_decide_eq_false_2; [done|]. intros Hne. by apply Hne.
  - intros updates Hnd. unfold update.
    pose proof (update_loop_changed updates s [] Hnd) as Hl.
    destruct (update_loop updates s []) as [s' ch]. simpl in Hl. subst ch.
    by destruct (changed_in s updates).
  - intros key v updates e1 e2 H1 H2.
    assert (Hk1 : map fst e1.2 = ["key"; "value"; "old_value"]).
    { unfold set in H1. destruct (bool_decide _); simpl in H1.
      - apply list_elem_of_singleton in H1. by subst.
      - by apply elem_of_nil in H1. }
    assert (Hk2 : map fst e2.2 = ["keys"; "updates"]).
    { unfold update in H2. destruct (update_loop _ _ _) as [s' [|k ks]];
        simpl in H2.
      - by apply elem_of_nil in H2.
      - apply list_elem_of_singleton in H2. by subst. }
    split; [done|]. split; [done|].
    intros ->. rewrite Hk1 in Hk2. discriminate.
  - intros updates Hnd.
    assert (Hst : (update updates s).1 = (update_loop updates s []).1).
    { unfold update.
      destruct (update_loop updates s []) as [s' [|c cs]]; reflexivity. }
    rewrite Hst.
    pose proof (fun k => update_loop_stores updates s [] k Hnd) as Hl.
    assert (Hin : forall k, k ∈ changed_in s updates ->
              get (update_loop updates s []).1 k <> get s k /\
              forall d, get_previous (update_loop updates s []).1 k d
                        = get s k).
    { intros k Hk. destruct (proj1 (Hl k) Hk) as (v & _ & Hv & Hs & Hp).
      split.
      - unfold get at 1, get_default. rewrite Hs. simpl. congruence.
      - intros d. unfold get_previous. by rewrite Hp. }
    assert (Hout : forall k, k ∉ changed_in s updates ->
              get (update_loop updates s []).1 k = get s k).
    { intros k Hk. destruct (proj2 (Hl k) Hk) as [Hs _].
      unfold get, get_default. by rewrite Hs. }
    split; [|split; [|split]].
    + intros k. split; [by apply Hin|].
      intros Hne. destruct (decide (k ∈ changed_in s updates)); [done|].
      by destruct Hne; apply Hout.
    + intros k v Hkv.
      destruct (decide (k ∈ changed_in s updates)) as [Hk|Hk].
      * destruct (proj1 (Hl k) Hk) as (v' & Hkv' & _ & Hs & _).
        assert (v' = v).
        { by eapply NoDup_keys_fun. }
        subst v'. unfold get, get_default. by rewrite Hs.
      * rewrite (Hout k Hk).
        destruct (decide (get s k = v)) as [|Hne]; [done|].
        destruct Hk. unfold changed_in.
        apply list_elem_of_In, in_map_iff. exists (k, v). split; [done|].
        apply filter_In. split; [by apply list_elem_of_In|].
        by apply bool_decide_eq_true_2.
    + intros k d Hk. by apply Hin.
    + intros k Hk. apply (proj2 (Hl k) Hk).
Qed.

Lemma C7_state_notifications_witness :
  set "a" (VInt 2) C7_state0 =
    (mk (<["a" := VInt 2]> {[ "a" := VInt 1 ]}) (<["a" := VInt 1]> ∅),
     [(Events.STATE_CHANGE,
       [("key", KVal (VStr "a")); ("value", KVal (VInt 2));
        ("old_value", KVal (VInt 1))])]) /\
  set "a" (VInt 1) C7_state0 = (C7_state0, []) /\
  (update [("a", VInt 1); ("b", VInt 5)] C7_state0).2 =
    [(Events.STATE_CHANGE,
      [("keys", KKeys ["b"]);
       ("updates", KDict [("a", VInt 1); ("b", VInt 5)])])] /\
  get (update [("a", VInt 1); ("b", VInt 5)] C7_state0).1 "b" = VInt 5 /\
  get (update [("a", VInt 1); ("b", VInt 5)] C7_state0).1 "b"
    <> get C7_state0 "b".
Proof.
  destruct (C7_state_notifications C7_state0) as (Hs & He & Hu & _ & Hst).
  assert (Hnd : NoDup (map fst [("a", VInt 1); ("b", VInt 5)])).
  { apply (bool_decide_unpack (NoDup ["a"; "b"])). vm_compute. exact I. }
  destruct (Hst _ Hnd) as (Hkeys & Hread & _).
  split; [|split; [|split; [|split]]].
  - apply (Hs "a" (VInt 2)). vm_compute. discriminate.
  - apply (He "a" (VInt 1)). vm_compute. reflexivity.
  - rewrite (Hu [("a", VInt 1); ("b", VInt 5)] Hnd).
    vm_compute. reflexivity.
  - apply Hread. apply list_elem_of_further, list_elem_of_here.
  - apply Hkeys. vm_compute. apply list_elem_of_here.
Defined.
End ObservableState.

(** ** The component tree: shape of the store *)

Lemma same_on_refl {A} (f : Component -> A) h : same_on f h h.
Proof. intros x. reflexivity. Qed.

Lemma same_on_trans {A} (f : Component -> A) h1 h2 h3 :
  same_on f h1 h2 -> same_on f h2 h3 -> same_on f h1 h3.
Proof. intros H12 H23 x. by rewrite H23, H12. Qed.

Lemma same_on_sym {A} (f : Component -> A) h1 h2 :
  same_on f h1 h2 -> same_on f h2 h1.
Proof. intros H x. by rewrite H. Qed.

Lemma same_on_alter {A} (f : Component -> A) g r h :
  (forall c, f (g c) = f c) -> same_on f h (alter g r h).
Proof.
  intros Hg x. destruct (decide (r = x)) as [->|Hne].
  - rewrite list_lookup_alter_eq. destruct (h !! x); simpl; [|done].
    by rewrite Hg.
  - by rewrite list_lookup_alter_ne.
Qed.

Lemma same_on_lookup {A} (f : Component -> A) h h' x c :
  same_on f h h' -> h !! x = Some c ->
  exists c', h' !! x = Some c' /\ f c' = f c.
Proof.
  intros Hs Hx. specialize (Hs x). rewrite Hx in Hs.
  destruct (h' !! x) as [c'|]; simpl in Hs; [|discriminate].
  exists c'. split; [done|]. congruence.
Qed.

Lemma same_on_lookup_None {A} (f : Component -> A) h h' x :
  same_on f h h' -> h !! x = None -> h' !! x = None.
Proof.
  intros Hs Hx. specialize (Hs x). rewrite Hx in Hs.
  by destruct (h' !! x).
Qed.

Lemma skel_children c c' : skel c' = skel c -> _children c' = _children c.
Proof. unfold skel. congruence. Qed.

Lemma skel_parent c c' : skel c' = skel c -> _parent c' = _parent c.
Proof. unfold skel. congruence. Qed.

Lemma skel_id c c' : skel c' = skel c -> id c' = id c.
Proof. unfold skel. congruence. Qed.

Lemma skel_cls c c' : skel c' = skel c -> cls c' = cls c.
Proof. unfold skel. congruence. Qed.

Lemma skel_visible c c' :
  skel c' = skel c -> _is_visible c' = _is_visible c.
Proof. unfold skel. congruence. Qed.

Lemma skel_spacing c c' :
  skel c' = skel c -> _layout_spacing c' = _layout_spacing c.
Proof. unfold skel. congruence. Qed.

Lemma edge_same h h' p c : same_on skel h h' -> edge h p c -> edge h' p c.
Proof.
  intros Hs (pc & Hp & Hc).
  destruct (same_on_lookup _ _ _ _ _ Hs Hp) as (pc' & Hp' & Hsk).
  exists pc'. split; [done|]. by rewrite (skel_children _ _ Hsk).
Qed.

Lemma below_same h h' x y : same_on skel h h' -> below h x y -> below h' x y.
Proof.
  intros Hs Hb. induction Hb as [x y He|x y z He _ IH].
  - apply tc_once. eauto using edge_same.
  - eapply tc_l; eauto using edge_same.
Qed.

Lemma reach_same h h' x y : same_on skel h h' -> reach h x y -> reach h' x y.
Proof.
  intros Hs Hb. induction Hb as [x|x y z He _ IH].
  - apply rtc_refl.
  - eapply rtc_l; eauto using edge_same.
Qed.

Lemma root_of_fun h x R1 R2 : root_of h x R1 -> root_of h x R2 -> R1 = R2.
Proof.
  intros H1. revert R2. induction H1 as [r c Hr Hp|r c p R Hr Hp _ IH];
    intros R2 H2; inversion H2; subst; try congruence.
  apply IH. congruence.
Qed.

Lemma root_sound fuel : forall h x R, root fuel h x = Some R -> root_of h x R.
Proof.
  induction fuel as [|f IH]; intros h x R; simpl; [discriminate|].
  destruct (h !! x) as [c|] eqn:Hx; [|discriminate].
  destruct (_parent c) as [p|] eqn:Hp.
  - intros H. eapply root_of_up; eauto.
  - intros [= <-]. eapply root_of_top; eauto.
Qed.

Lemma root_complete h x R :
  root_of h x R -> exists f0, forall f, f0 <= f -> root f h x = Some R.
Proof.
  induction 1 as [r c Hr Hp|r c p R Hr Hp _ [f0 IH]].
  - exists 1. intros [|f] Hf; [lia|]. simpl. by rewrite Hr, Hp.
  - exists (S f0). intros [|f] Hf; [lia|]. simpl. rewrite Hr, Hp.
    apply IH. lia.
Qed.

Lemma root_of_same h h' x R :
  same_on skel h h' -> root_of h x R -> root_of h' x R.
Proof.
  intros Hs. induction 1 as [r c Hr Hp|r c p R Hr Hp _ IH].
  - destruct (same_on_lookup _ _ _ _ _ Hs Hr) as (c' & Hr' & Hsk).
    eapply root_of_top; [done|]. by rewrite (skel_parent _ _ Hsk).
  - destruct (same_on_lookup _ _ _ _ _ Hs Hr) as (c' & Hr' & Hsk).
    eapply root_of_up; [done| |done]. by rewrite (skel_parent _ _ Hsk).
Qed.

Lemma id_of_same h h' x : same_on skel h h' -> id_of h' x = id_of h x.
Proof.
  intros Hs. unfold id_of. specialize (Hs x).
  destruct (h !! x), (h' !! x); simpl in Hs; try done.
  inversion Hs as [Hsk]. by apply skel_id.
Qed.

(** ** Searching the tree *)

Lemma first_found_None g xs :
  first_found g xs = Some None -> forall x, x ∈ xs -> g x = Some None.
Proof.
  induction xs as [|a xs IH]; simpl; intros H x Hx.
  - by apply elem_of_nil in Hx.
  - destruct (g a) as [[y|]|] eqn:Ha; try discriminate.
    apply elem_of_cons in Hx as [->|Hx]; auto.
Qed.

Lemma first_found_Some g xs y :
  first_found g xs = Some (Some y) ->
  exists x, x ∈ xs /\ g x = Some (Some y).
Proof.
  induction xs as [|a xs IH]; simpl; intros H; [discriminate|].
  destruct (g a) as [[z|]|] eqn:Ha; try discriminate.
  - inversion H; subst. exists a. split; [left|done].
  - destruct (IH H) as (x & Hx & Hg). exists x. split; [by right|done].
Qed.

(** A search that comes back empty has seen every node below [r]. *)
Lemma find_by_id_None fuel : forall h r i,
  find_by_id fuel h r i = Some None ->
  forall x, reach h r x -> id_of h x <> Some i.
Proof.
  induction fuel as [|f IH]; intros h r i; simpl; [discriminate|].
  destruct (h !! r) as [c|] eqn:Hr; [|discriminate].
  destruct (decide (id c = Some i)) as [|Hne]; [discriminate|].
  intros Hff x Hreach.
  apply rtc_inv in Hreach as [<-|(y & (pc & Hp & Hy) & Hreach)].
  - unfold id_of. by rewrite Hr.
  - rewrite Hr in Hp. inversion Hp; subst pc.
    eapply IH; [|exact Hreach].
    by apply (first_found_None _ _ Hff).
Qed.

(** A search that finds a node finds one below [r] with that id. *)
Lemma find_by_id_Some fuel : forall h r i x,
  find_by_id fuel h r i = Some (Some x) ->
  reach h r x /\ id_of h x = Some i.
Proof.
  induction fuel as [|f IH]; intros h r i x; simpl; [discriminate|].
  destruct (h !! r) as [c|] eqn:Hr; [|discriminate].
  destruct (decide (id c = Some i)) as [Heq|Hne].
  - intros [= <-]. split; [apply rtc_refl|]. unfold id_of. by rewrite Hr.
  - intros Hff. apply first_found_Some in Hff as (y & Hy & Hg).
    destruct (IH _ _ _ _ Hg) as [Hreach Hid]. split; [|done].
    eapply rtc_l; [|exact Hreach]. exists c. auto.
Qed.

Lemma collect_complete g xs ds :
  collect g xs = Some ds ->
  forall x, x ∈ xs ->
    x ∈ ds /\ exists dx, g x = Some dx /\ forall y, y ∈ dx -> y ∈ ds.
Proof.
  revert ds. induction xs as [|a xs IH]; simpl; intros ds H x Hx.
  - by apply elem_of_nil in Hx.
  - destruct (g a) as [da|] eqn:Ha; [|discriminate].
    destruct (collect g xs) as [rest|] eqn:Hc; [|discriminate].
    inversion H; subst ds; clear H.
    apply elem_of_cons in Hx as [->|Hx].
    + split; [left|]. exists da. split; [done|].
      intros y Hy. right. apply elem_of_app. by left.
    + destruct (IH _ eq_refl x Hx) as (Hin & dx & Hg & Hsub).
      split; [right; apply elem_of_app; by right|].
      exists dx. split; [done|]. intros y Hy. right. apply elem_of_app.
      right. auto.
Qed.

(** [_get_all_descendants] lists every descendant. *)
Lemma descendants_complete fuel : forall h r ds,
  _get_all_descendants fuel h r = Some ds ->
  forall y, below h r y -> y ∈ ds.
Proof.
  induction fuel as [|f IH]; intros h r ds; simpl; [discriminate|].
  destruct (h !! r) as [c|] eqn:Hr; [|discriminate].
  intros Hc y Hb.
  assert (Hstep : exists x, x ∈ _children c /\ (x = y \/ below h x y)).
  { inversion Hb as [? ? (pc & Hp & Hx)|? x ? (pc & Hp & Hx) Hb']; subst;
      rewrite Hr in Hp; inversion Hp; subst pc; eauto. }
  destruct Hstep as (x & Hx & Hxy).
  destruct (collect_complete _ _ _ Hc x Hx) as (Hin & dx & Hg & Hsub).
  destruct Hxy as [->|Hb']; [done|].
  apply Hsub. eapply IH; eauto.
Qed.

Lemma first_duplicate_None fuel h p ds :
  first_duplicate fuel h p ds = Some None ->
  forall d, d ∈ ds -> id_taken fuel h p (id_of h d) = Some false.
Proof.
  induction ds as [|a ds IH]; simpl; intros H d Hd.
  - by apply elem_of_nil in Hd.
  - destruct (h !! a) as [ac|] eqn:Ha; [|discriminate].
    destruct (id_taken fuel h p (id ac)) as [[]|] eqn:Ht; try discriminate.
    apply elem_of_cons in Hd as [->|Hd]; [|auto].
    unfold id_of. by rewrite Ha.
Qed.

Lemma id_taken_false fuel h p i :
  id_taken fuel h p (Some i) = Some false ->
  exists rt, root_of h p rt /\ forall x, reach h rt x -> id_of h x <> Some i.
Proof.
  unfold id_taken, exists_in_tree.
  destruct (root fuel h p) as [rt|] eqn:Hroot; [|discriminate].
  destruct (find_by_id fuel h rt i) as [[x|]|] eqn:Hf; try discriminate.
  intros _. exists rt. split; [by eapply root_sound|].
  by eapply find_by_id_None.
Qed.

(** ** [add_child] *)

(** What a normal return of an effective [add_child] went through. *)
Lemma add_child_Returned_inv fuel p c h pc cc h' t :
  h !! p = Some pc -> h !! c = Some cc -> c ∉ _children pc ->
  add_child fuel p c h = Some (Returned, h', t) ->
  name_clash h (name cc) (_children pc) = false /\
  id_taken fuel h p (id cc) = Some false /\
  (exists ds, _get_all_descendants fuel h c = Some ds /\
              first_duplicate fuel h p ds = Some None) /\
  let h2 := alter (set_parent (Some p)) c
              (alter (fun x => set_children (_children x ++ [c]) x) p h) in
  if _is_mounted pc then mount fuel c h2 = Some (h', t)
  else h' = h2 /\ t = [].
Proof.
  intros Hp Hc Hnin. unfold add_child. rewrite Hp, Hc.
  rewrite bool_decide_eq_false_2 by done.
  destruct (name_clash h (name cc) (_children pc)); [discriminate|].
  destruct (id_taken fuel h p (id cc)) as [[]|]; try discriminate.
  destruct (_get_all_descendants fuel h c) as [ds|]; [|discriminate].
  destruct (first_duplicate fuel h p ds) as [[d|]|] eqn:Hfd;
    try discriminate.
  intros H. split; [done|]. split; [done|]. split; [eauto|].
  simpl. destruct (_is_mounted pc).
  - destruct (mount fuel c _) as [[h3 t3]|]; [|discriminate].
    by inversion H; subst.
  - by inversion H; subst.
Qed.

(** An insertion that returns normally found no id of the attached
    subtree in the tree of the parent. *)
Lemma add_child_no_collision fuel p c h pc cc h' t rt x y i :
  h !! p = Some pc -> h !! c = Some cc -> c ∉ _children pc ->
  add_child fuel p c h = Some (Returned, h', t) ->
  root_of h p rt -> reach h rt x -> reach h c y ->
  id_of h x = Some i -> id_of h y = Some i -> False.
Proof.
  intros Hp Hc Hnin Hadd Hroot Hx Hy Hix Hiy.
  destruct (add_child_Returned_inv _ _ _ _ _ _ _ _ Hp Hc Hnin Hadd)
    as (_ & Hself & (ds & Hds & Hfd) & _).
  assert (Htaken : id_taken fuel h p (Some i) = Some false).
  { apply rtc_tc in Hy as [<-|Hb].
    - unfold id_of in Hiy. rewrite Hc in Hiy. by rewrite <- Hiy.
    - rewrite <- Hiy. eapply first_duplicate_None; [exact Hfd|].
      eapply descendants_complete; eauto. }
  apply id_taken_false in Htaken as (rt' & Hroot' & Hnone).
  rewrite (root_of_fun _ _ _ _ Hroot' Hroot) in Hnone.
  by apply (Hnone x Hx).
Qed.

(** ** Fuel that is enough *)

Lemma ranked_same h h' rank :
  same_on skel h h' -> ranked h rank -> ranked h' rank.
Proof.
  intros Hs Hr x cx' y Hx Hy.
  destruct (same_on_lookup _ _ _ _ _ (same_on_sym _ _ _ Hs) Hx)
    as (cx & Hx0 & Hsk).
  rewrite <- (skel_children _ _ Hsk) in Hy.
  destruct (Hr x cx y Hx0 Hy) as [[cy Hcy] Hlt]. split; [|done].
  destruct (same_on_lookup _ _ _ _ _ Hs Hcy) as (cy' & ? & _). eauto.
Qed.

Lemma ranked_alter g r h rank :
  (forall c, _children (g c) = _children c) ->
  ranked h rank -> ranked (alter g r h) rank.
Proof.
  intros Hg Hrk x cx' y Hx Hy.
  assert (Hx0 : exists cx, h !! x = Some cx /\ _children cx' = _children cx).
  { destruct (decide (r = x)) as [->|Hne].
    - rewrite list_lookup_alter_eq in Hx.
      destruct (h !! x) as [cx|]; simpl in Hx; [|discriminate].
      inversion Hx; subst cx'. eauto.
    - rewrite list_lookup_alter_ne in Hx by done. eauto. }
  destruct Hx0 as (cx & Hx0 & Hch). rewrite Hch in Hy.
  destruct (Hrk x cx y Hx0 Hy) as [[cy Hcy] Hlt]. split; [|done].
  destruct (decide (r = y)) as [->|Hne].
  - rewrite list_lookup_alter_eq, Hcy. simpl. eauto.
  - rewrite list_lookup_alter_ne by done. eauto.
Qed.

Lemma root_terminates h depth :
  parents_ranked h depth ->
  forall fuel x, is_Some (h !! x) -> depth x < fuel ->
    exists R, root fuel h x = Some R /\ is_Some (h !! R).
Proof.
  intros Hpr. induction fuel as [|f IH]; intros x [c Hx] Hlt; [lia|].
  simpl. rewrite Hx. destruct (_parent c) as [p|] eqn:Hp.
  - destruct (Hpr x c p Hx Hp) as [Hvalid Hd]. apply IH; [done|lia].
  - eauto.
Qed.

Lemma first_found_terminates g xs :
  (forall x, x ∈ xs -> is_Some (g x)) -> is_Some (first_found g xs).
Proof.
  induction xs as [|a xs IH]; simpl; intros H; [eauto|].
  destruct (H a) as [[y|] ->]; [left|eauto|].
  apply IH. intros x Hx. apply H. by right.
Qed.

Lemma find_by_id_terminates h rank i :
  ranked h rank ->
  forall fuel r, is_Some (h !! r) -> rank r < fuel ->
    is_Some (find_by_id fuel h r i).
Proof.
  intros Hr. induction fuel as [|f IH]; intros r [c Hc] Hlt; [lia|].
  simpl. rewrite Hc. destruct (decide (id c = Some i)); [eauto|].
  apply first_found_terminates. intros x Hx.
  destruct (Hr r c x Hc Hx) as [Hv Hlt']. apply IH; [done|lia].
Qed.

Lemma collect_terminates g xs :
  (forall x, x ∈ xs -> is_Some (g x)) -> is_Some (collect g xs).
Proof.
  induction xs as [|a xs IH]; simpl; intros H; [eauto|].
  destruct (H a) as [da ->]; [left|].
  destruct IH as [rest ->]; [|eauto].
  intros x Hx. apply H. by right.
Qed.

Lemma descendants_terminates h rank :
  ranked h rank ->
  forall fuel r, is_Some (h !! r) -> rank r < fuel ->
    is_Some (_get_all_descendants fuel h r).
Proof.
  intros Hr. induction fuel as [|f IH]; intros r [c Hc] Hlt; [lia|].
  simpl. rewrite Hc. apply collect_terminates. intros x Hx.
  destruct (Hr r c x Hc Hx) as [Hv Hlt']. apply IH; [done|lia].
Qed.

Lemma collect_sound g xs ds :
  collect g xs = Some ds ->
  forall y, y ∈ ds ->
    y ∈ xs \/ exists x dx, x ∈ xs /\ g x = Some dx /\ y ∈ dx.
Proof.
  revert ds. induction xs as [|a xs IH]; simpl; intros ds H y Hy.
  - inversion H; subst. by apply elem_of_nil in Hy.
  - destruct (g a) as [da|] eqn:Ha; [|discriminate].
    destruct (collect g xs) as [rest|] eqn:Hc; [|discriminate].
    inversion H; subst ds; clear H.
    apply elem_of_cons in Hy as [->|Hy]; [left; left|].
    apply elem_of_app in Hy as [Hy|Hy].
    + right. exists a, da. split; [left|done].
    + destruct (IH _ eq_refl y Hy) as [Hin|(x & dx & Hx & Hg & Hin)].
      * left. by right.
      * right. exists x, dx. split; [by right|done].
Qed.

(** [_get_all_descendants] lists descendants only. *)
Lemma descendants_sound fuel : forall h r ds,
  _get_all_descendants fuel h r = Some ds ->
  forall y, y ∈ ds -> below h r y.
Proof.
  induction fuel as [|f IH]; intros h r ds; simpl; [discriminate|].
  destruct (h !! r) as [c|] eqn:Hr; [|discriminate].
  intros Hc y Hy.
  destruct (collect_sound _ _ _ Hc y Hy) as [Hin|(x & dx & Hx & Hg & Hin)].
  - apply tc_once. exists c. auto.
  - eapply tc_l; [exists c; eauto|]. eapply IH; eauto.
Qed.

Lemma below_valid h rank x y :
  ranked h rank -> below h x y -> is_Some (h !! y) /\ rank y < rank x.
Proof.
  intros Hr. induction 1 as [x y (pc & Hp & Hy)|x y z (pc & Hp & Hy) _ IH].
  - eapply Hr; eauto.
  - destruct (Hr x pc y Hp Hy) as [_ Hlt]. destruct IH as [Hv Hlt'].
    split; [done|lia].
Qed.

Lemma id_taken_terminates h rank depth fuel p i :
  ranked h rank -> parents_ranked h depth -> enough h rank depth fuel ->
  is_Some (h !! p) -> is_Some (id_taken fuel h p i).
Proof.
  intros Hr Hpr He Hp. destruct i as [s|]; simpl; [|eauto].
  unfold exists_in_tree.
  destruct (root_terminates h depth Hpr fuel p Hp) as (R & -> & HR).
  { by apply He. }
  destruct (find_by_id_terminates h rank s Hr fuel R HR) as [[y|] ->];
    [by apply He|eauto|eauto].
Qed.

Lemma first_duplicate_terminates h rank depth fuel p ds :
  ranked h rank -> parents_ranked h depth -> enough h rank depth fuel ->
  is_Some (h !! p) -> (forall d, d ∈ ds -> is_Some (h !! d)) ->
  is_Some (first_duplicate fuel h p ds).
Proof.
  intros Hr Hpr He Hp. induction ds as [|a ds IH]; simpl; intros Hv; [eauto|].
  destruct (Hv a) as [ac ->]; [left|].
  destruct (id_taken_terminates h rank depth fuel p (id ac)) as [[] ->];
    eauto.
  apply IH. intros d Hd. apply Hv. by right.
Qed.

Lemma ranked_check_ok h rank : ranked_check h rank = true -> ranked h rank.
Proof.
  unfold ranked_check. rewrite forallb_forall. intros H x cx y Hx Hy.
  specialize (H x). rewrite Hx in H.
  assert (Hin : In x (seq 0 (length h))).
  { apply in_seq. apply lookup_lt_Some in Hx. lia. }
  specialize (H Hin). rewrite forallb_forall in H.
  specialize (H y (proj1 (list_elem_of_In _ _) Hy)).
  destruct (h !! y); [|discriminate]. split; [eauto|].
  by apply Nat.ltb_lt.
Qed.

Lemma parents_ranked_check_ok h depth :
  parents_ranked_check h depth = true -> parents_ranked h depth.
Proof.
  unfold parents_ranked_check. rewrite forallb_forall. intros H x cx p Hx Hp.
  specialize (H x). rewrite Hx, Hp in H.
  assert (Hin : In x (seq 0 (length h))).
  { apply in_seq. apply lookup_lt_Some in Hx. lia. }
  specialize (H Hin). destruct (h !! p); [|discriminate].
  split; [eauto|]. by apply Nat.ltb_lt.
Qed.

Lemma enough_check_ok h rank depth fuel :
  enough_check h rank depth fuel = true -> enough h rank depth fuel.
Proof.
  unfold enough_check. rewrite forallb_forall. intros H x [c Hx].
  assert (Hin : In x (seq 0 (length h))).
  { apply in_seq. apply lookup_lt_Some in Hx. lia. }
  specialize (H x Hin). apply andb_true_iff in H as [H1 H2].
  split; by apply Nat.ltb_lt.
Qed.

Lemma add_child_again fuel p c h pc cc :
  h !! p = Some pc -> h !! c = Some cc -> c ∈ _children pc ->
  add_child fuel p c h = Some (Returned, h, []).
Proof.
  intros Hp Hc Hin. unfold add_child. rewrite Hp, Hc.
  by rewrite bool_decide_eq_true_2.
Qed.

(** C10: when [c] is already in the child list of [p], [p.add_child(c)]
    returns without raising, without running the name or id checks (no
    fuel is used), and leaves every object, hence the child list, the
    parent reference and the mounted flags, as it was. *)
Theorem C10_add_child_again_is_noop
    (fuel : nat) (p c : ref) (h : heap) (pc cc : Component) :
  h !! p = Some pc -> h !! c = Some cc -> c ∈ _children pc ->
  add_child fuel p c h = Some (Returned, h, []).
Proof. apply add_child_again. Qed.

Lemma C10_add_child_again_is_noop_witness :
  add_child 0 0 1 sample = Some (Returned, sample, []).
Proof.
  eapply (C10_add_child_again_is_noop 0 0 1 sample).
  - reflexivity.
  - reflexivity.
  - simpl. apply (bool_decide_unpack (1 ∈ [1; 2])). vm_compute. exact I.
Defined.

Lemma add_child_Raised_inv fuel p c h e h' t :
  add_child fuel p c h = Some (Raised e, h', t) -> h' = h /\ t = [].
Proof.
  unfold add_child.
  destruct (h !! p) as [pc|]; [|discriminate].
  destruct (h !! c) as [cc|]; [|discriminate].
  destruct (bool_decide (c ∈ _children pc)); [discriminate|].
  destruct (name_clash h (name cc) (_children pc)).
  { intros H. by inversion H. }
  destruct (id_taken fuel h p (id cc)) as [[]|]; try discriminate.
  { intros H. by inversion H. }
  destruct (_get_all_descendants fuel h c) as [ds|]; [|discriminate].
  destruct (first_duplicate fuel h p ds) as [[d|]|]; try discriminate.
  { intros H. by inversion H. }
  destruct (_is_mounted pc); [|discriminate].
  destruct (mount fuel c _) as [[h3 t3]|]; discriminate.
Qed.

Lemma name_clash_true h n s siblings :
  s ∈ siblings -> name_of h s = Some n ->
  name_clash h (Some n) siblings = true.
Proof.
  intros Hs Hn. unfold name_clash. apply existsb_exists.
  exists s. split; [by apply list_elem_of_In|].
  by apply bool_decide_eq_true_2.
Qed.

(** C6: every rejection of [add_child] leaves the store exactly as it
    was and emits nothing; a sibling with the same name makes the call
    raise; and an id of the child or of one of its descendants that the
    tree of the parent already holds makes the call raise, given fuel for
    the searches. *)
Theorem C6_rejection_leaves_tree_unchanged
    (fuel : nat) (p c : ref) (h : heap) (pc cc : Component)
    (rank depth : ref -> nat) :
  h !! p = Some pc -> h !! c = Some cc -> c ∉ _children pc ->
  ranked h rank -> parents_ranked h depth -> enough h rank depth fuel ->
  (forall e h' t,
     add_child fuel p c h = Some (Raised e, h', t) -> h' = h /\ t = []) /\
  (forall n s,
     name cc = Some n -> s ∈ _children pc -> name_of h s = Some n ->
     add_child fuel p c h = Some (Raised (DuplicateName n), h, [])) /\
  (forall rt x y i,
     root_of h p rt -> reach h rt x -> reach h c y ->
     id_of h x = Some i -> id_of h y = Some i ->
     exists e, add_child fuel p c h = Some (Raised e, h, [])).
Proof.
  intros Hp Hc Hnin Hr Hpr He. split; [|split].
  - intros e h' t. apply add_child_Raised_inv.
  - intros n s Hn Hs Hsn. unfold add_child. rewrite Hp, Hc.
    rewrite bool_decide_eq_false_2 by done.
    rewrite Hn. by rewrite (name_clash_true h n s).
  - intros rt x y i Hroot Hx Hy Hix Hiy. unfold add_child. rewrite Hp, Hc.
    rewrite bool_decide_eq_false_2 by done.
    destruct (name_clash h (name cc) (_children pc)); [eauto|].
    destruct (id_taken_terminates h rank depth fuel p (id cc))
      as [[] Hself]; eauto; rewrite Hself; [eauto|].
    destruct (descendants_terminates h rank Hr fuel c) as [ds Hds];
      [eauto|by apply He; eauto|]. rewrite Hds.
    destruct (first_duplicate_terminates h rank depth fuel p ds)
      as [[d|] Hfd]; eauto.
    { intros d Hd. eapply below_valid; [exact Hr|].
      eapply descendants_sound; eauto. }
    { rewrite Hfd. eauto. }
    exfalso.
    assert (Htaken : id_taken fuel h p (Some i) = Some false).
    { apply rtc_tc in Hy as [<-|Hb].
      - unfold id_of in Hiy. rewrite Hc in Hiy. by rewrite <- Hiy.
      - rewrite <- Hiy. eapply first_duplicate_None; [exact Hfd|].
        eapply descendants_complete; eauto. }
    apply id_taken_false in Htaken as (rt' & Hroot' & Hnone).
    rewrite (root_of_fun _ _ _ _ Hroot' Hroot) in Hnone.
    by apply (Hnone x Hx).
Qed.

Lemma sample_ranked : ranked sample sample_rank.
Proof. apply ranked_check_ok. vm_compute. reflexivity. Defined.

Lemma sample_parents_ranked : parents_ranked sample sample_depth.
Proof. apply parents_ranked_check_ok. vm_compute. reflexivity. Defined.

Lemma sample_enough : enough sample sample_rank sample_depth 3.
Proof. apply enough_check_ok. vm_compute. reflexivity. Defined.

Lemma C6_rejection_leaves_tree_unchanged_witness :
  add_child 3 0 4 sample = Some (Raised (DuplicateName "left"), sample, []) /\
  exists e, add_child 3 0 5 sample = Some (Raised e, sample, []).
Proof.
  split.
  - refine (proj1 (proj2 (C6_rejection_leaves_tree_unchanged 3 0 4 sample
              _ _ sample_rank sample_depth eq_refl eq_refl _
              sample_ranked sample_parents_ranked sample_enough))
              "left" 1 eq_refl _ eq_refl).
    + apply (bool_decide_unpack (4 ∉ [1; 2])). vm_compute. exact I.
    + apply (bool_decide_unpack (1 ∈ [1; 2])). vm_compute. exact I.
  - refine (proj2 (proj2 (C6_rejection_leaves_tree_unchanged 3 0 5 sample
              _ _ sample_rank sample_depth eq_refl eq_refl _
              sample_ranked sample_parents_ranked sample_enough))
              0 2 6 "b" _ _ _ eq_refl eq_refl).
    + apply (bool_decide_unpack (5 ∉ [1; 2])). vm_compute. exact I.
    + eapply root_of_top; reflexivity.
    + apply rtc_once. eexists. split; [reflexivity|].
      apply (bool_decide_unpack (2 ∈ [1; 2])). vm_compute. exact I.
    + apply rtc_once. eexists. split; [reflexivity|].
      apply (bool_decide_unpack (6 ∈ [6])). vm_compute. exact I.
Defined.

(** ** Loops over children *)

(** An invariant [I] of the store and a relation [R] between the store
    before, the store after and the trace, closed under sequencing,
    carry over from the body of a loop to the loop. *)
Lemma for_each_inv g (I : heap -> Prop) (R : heap -> heap -> trace -> Prop)
    xs :
  (forall h, R h h []) ->
  (forall h1 h2 h3 t1 t2,
     R h1 h2 t1 -> R h2 h3 t2 -> R h1 h3 (t1 ++ t2)) ->
  (forall x h h' t,
     x ∈ xs -> I h -> g x h = Some (h', t) -> R h h' t /\ I h') ->
  forall h h' t,
    I h -> for_each g xs h = Some (h', t) -> R h h' t /\ I h'.
Proof.
  intros Hnil Happ. induction xs as [|a xs IH]; simpl; intros Hbody h h' t Hi.
  - intros [= <- <-]. auto.
  - destruct (g a h) as [[h1 t1]|] eqn:Ha; [|discriminate].
    destruct (for_each g xs h1) as [[h2 t2]|] eqn:Hrest; [|discriminate].
    intros [= <- <-].
    destruct (Hbody a h h1 t1) as [HR1 HI1]; [left|done|done|].
    destruct (IH (fun x h h' t Hx => Hbody x h h' t (list_elem_of_further _ _ _ Hx))
                h1 h2 t2 HI1 Hrest) as [HR2 HI2].
    split; [|done]. eapply Happ; eauto.
Qed.

(** A body that returns under [I] and keeps [I] makes the loop return. *)
Lemma for_each_total g (I : heap -> Prop) xs :
  (forall x h, x ∈ xs -> I h -> exists h' t, g x h = Some (h', t) /\ I h') ->
  forall h, I h -> exists h' t, for_each g xs h = Some (h', t) /\ I h'.
Proof.
  induction xs as [|a xs IH]; simpl; intros Hbody h Hi; [eauto|].
  destruct (Hbody a h) as (h1 & t1 & -> & Hi1); [left|done|].
  destruct (IH (fun x h Hx => Hbody x h (list_elem_of_further _ _ _ Hx))
              h1 Hi1) as (h2 & t2 & -> & Hi2).
  eauto.
Qed.

(** ** Mounting and unmounting *)

Lemma is_mounted_alter d s r h x :
  is_mounted (alter (set_lifecycle d s) r h) x =
    if decide (x = r) then match h !! r with Some _ => d | None => false end
    else is_mounted h x.
Proof.
  unfold is_mounted. destruct (decide (x = r)) as [->|Hne].
  - rewrite list_lookup_alter_eq. by destruct (h !! r).
  - by rewrite list_lookup_alter_ne.
Qed.

Lemma flips_nil d ev h : flips d ev h h [].
Proof.
  split; [|split; [|split; [|split]]].
  - done.
  - intros x Hx. by apply elem_of_nil in Hx.
  - intros x H1 H2. rewrite H1 in H2. by destruct d.
  - constructor.
  - intros e He. by apply elem_of_nil in He.
Qed.

Lemma flips_app d ev h1 h2 h3 t1 t2 :
  flips d ev h1 h2 t1 -> flips d ev h2 h3 t2 -> flips d ev h1 h3 (t1 ++ t2).
Proof.
  intros (Ha1 & Hb1 & Hc1 & Hd1 & He1) (Ha2 & Hb2 & Hc2 & Hd2 & He2).
  split; [|split; [|split; [|split]]].
  - auto.
  - intros x H. apply elem_of_app in H as [H|H].
    + destruct (Hb1 x H) as [Hn Hm]. auto.
    + destruct (Hb2 x H) as [Hn Hm]. split; [|done].
      destruct (is_mounted h1 x) eqn:Hm1, d; simpl in *; try done.
      * by rewrite (Ha1 x Hm1) in Hn.
      * by rewrite (Ha1 x Hm1) in Hn.
  - intros x Hx1 Hx3. apply elem_of_app.
    destruct (decide (is_mounted h2 x = d)) as [Hm|Hm].
    + left. by apply Hc1.
    + right. apply Hc2; [|done]. by destruct (is_mounted h2 x), d.
  - apply NoDup_app. split; [done|]. split; [|done].
    intros [x e] Hin1 Hin2.
    pose proof (He1 _ Hin1) as Hev. simpl in Hev. subst e.
    destruct (Hb1 x Hin1) as [_ Hm]. destruct (Hb2 x Hin2) as [Hn _].
    rewrite Hm in Hn. by destruct d.
  - intros e He. apply elem_of_app in He as [He|He]; auto.
Qed.

Lemma flips_one d s ev r h :
  is_mounted h r = negb d -> is_Some (h !! r) ->
  flips d ev h (alter (set_lifecycle d s) r h) [(r, ev)].
Proof.
  intros Hm [c Hc]. split; [|split; [|split; [|split]]].
  - intros x Hx. rewrite is_mounted_alter. destruct (decide (x = r)); [|done].
    by rewrite Hc.
  - intros x H. apply list_elem_of_singleton in H. inversion H; subst.
    split; [done|]. rewrite is_mounted_alter.
    rewrite decide_True by done. by rewrite Hc.
  - intros x Hx1 Hx2. rewrite is_mounted_alter in Hx2.
    destruct (decide (x = r)) as [->|]; [by left|].
    rewrite Hx1 in Hx2. by destruct d.
  - apply NoDup_singleton.
  - intros e He. apply list_elem_of_singleton in He. by subst.
Qed.

Lemma mount_flips fuel : forall r h h' t,
  mount fuel r h = Some (h', t) -> flips true Events.MOUNT h h' t.
Proof.
  induction fuel as [|f IH]; intros r h h' t; simpl; [discriminate|].
  destruct (h !! r) as [c|] eqn:Hr; [|discriminate].
  destruct (_is_mounted c) eqn:Hm.
  - intros [= <- <-]. apply flips_nil.
  - destruct (for_each _ _ _) as [[h2 t2]|] eqn:Hloop; [|discriminate].
    intros [= <- <-].
    change ((r, Events.MOUNT) :: t2) with ([(r, Events.MOUNT)] ++ t2).
    eapply flips_app.
    + apply flips_one; [|eauto]. unfold is_mounted. by rewrite Hr.
    + eapply (for_each_inv (mount f) (fun _ => True)
                (flips true Events.MOUNT)); eauto using flips_nil, flips_app.
Qed.

Lemma lifecycle_same_on {A} (f : Component -> A) d s :
  (forall c, f (set_lifecycle d s c) = f c) ->
  forall r h, same_on f h (alter (set_lifecycle d s) r h).
Proof. intros Hf r h. by apply same_on_alter. Qed.

(** Mounting and unmounting write the mounted flag and the lifecycle
    status only. *)
Lemma mount_same_on {A} (f : Component -> A) :
  (forall d s c, f (set_lifecycle d s c) = f c) ->
  forall fuel r h h' t, mount fuel r h = Some (h', t) -> same_on f h h'.
Proof.
  intros Hf. induction fuel as [|n IH]; intros r h h' t; simpl;
    [discriminate|].
  destruct (h !! r) as [c|] eqn:Hr; [|discriminate].
  destruct (_is_mounted c).
  - intros [= <- <-]. apply same_on_refl.
  - destruct (for_each _ _ _) as [[h2 t2]|] eqn:Hloop; [|discriminate].
    intros [= <- <-].
    eapply same_on_trans; [apply lifecycle_same_on; auto|].
    eapply (for_each_inv (mount n) (fun _ => True)
              (fun h h' _ => same_on f h h')); eauto using same_on_refl,
              same_on_trans.
Qed.

Lemma unmount_same_on {A} (f : Component -> A) :
  (forall d s c, f (set_lifecycle d s c) = f c) ->
  forall fuel r h h' t, unmount fuel r h = Some (h', t) -> same_on f h h'.
Proof.
  intros Hf. induction fuel as [|n IH]; intros r h h' t; simpl;
    [discriminate|].
  destruct (h !! r) as [c|] eqn:Hr; [|discriminate].
  destruct (_is_mounted c).
  - destruct (for_each _ _ _) as [[h2 t2]|] eqn:Hloop; [|discriminate].
    intros [= <- <-].
    eapply same_on_trans; [|apply lifecycle_same_on; auto].
    eapply (for_each_inv (unmount n) (fun _ => True)
              (fun h h' _ => same_on f h h')); eauto using same_on_refl,
              same_on_trans.
  - intros [= <- <-]. apply same_on_refl.
Qed.

Lemma is_mounted_Some h x : is_mounted h x = true -> is_Some (h !! x).
Proof. unfold is_mounted. destruct (h !! x); [eauto|discriminate]. Qed.

(** In an acyclic tree, unmounting flips flags to false, emits once per
    flag that moved, and stays within the subtree. *)
Lemma unmount_flips rank fuel : forall r h h' t,
  ranked h rank -> unmount fuel r h = Some (h', t) ->
  flips false Events.UNMOUNT h h' t /\
  (forall e, e ∈ t -> rank e.1 <= rank r).
Proof.
  induction fuel as [|f IH]; intros r h h' t Hrk; simpl; [discriminate|].
  destruct (h !! r) as [c|] eqn:Hr; [|discriminate].
  destruct (_is_mounted c) eqn:Hm.
  2:{ intros [= <- <-]. split; [apply flips_nil|].
      intros e He. by apply elem_of_nil in He. }
  destruct (for_each _ _ _) as [[h1 t1]|] eqn:Hloop; [|discriminate].
  intros [= <- <-].
  destruct (for_each_inv (unmount f) (fun h0 => ranked h0 rank)
              (fun h0 h0' t0 =>
                 flips false Events.UNMOUNT h0 h0' t0 /\
                 forall e, e ∈ t0 -> rank e.1 < rank r)
              (_children c)) with (h := h) (h' := h1) (t := t1)
    as [[Hfl Hlt] Hrk1]; try done.
  - intros h0. split; [apply flips_nil|].
    intros e He. by apply elem_of_nil in He.
  - intros ha hb hc ta tb [Hfa Hla] [Hfb Hlb]. split; [by eapply flips_app|].
    intros e He. apply elem_of_app in He as [He|He]; auto.
  - intros x h0 h0' t0 Hx Hrk0 Hun.
    destruct (IH _ _ _ _ Hrk0 Hun) as [Hfl Hle].
    destruct (Hrk r c x Hr Hx) as [_ Hlt].
    split; [split; [done|]|].
    + intros e He. specialize (Hle e He). lia.
    + eapply ranked_same; [|exact Hrk0].
      eapply unmount_same_on; [|exact Hun]. reflexivity.
  - assert (Hstill : is_mounted h1 r = true).
    { destruct (is_mounted h1 r) eqn:Hm1; [done|].
      destruct Hfl as (_ & _ & Hc & _).
      assert (Hin : (r, Events.UNMOUNT) ∈ t1).
      { apply Hc; [|done]. unfold is_mounted. by rewrite Hr. }
      specialize (Hlt _ Hin). simpl in Hlt. lia. }
    split.
    + eapply flips_app; [exact Hfl|].
      apply flips_one; [done|by apply is_mounted_Some].
    + intros e He. apply elem_of_app in He as [He|He].
      * specialize (Hlt e He). lia.
      * apply list_elem_of_singleton in He. by subst.
Qed.

(** After [mount] the component is mounted, so a second call returns at
    once. *)
Lemma mount_again fuel r h h' t :
  mount fuel r h = Some (h', t) ->
  forall fuel', mount (S fuel') r h' = Some (h', []).
Proof.
  intros Hm fuel'.
  assert (Hafter : is_mounted h' r = true).
  { destruct fuel as [|f]; simpl in Hm; [discriminate|].
    destruct (h !! r) as [c|] eqn:Hr; [|discriminate].
    destruct (_is_mounted c) eqn:Hc.
    - inversion Hm; subst. unfold is_mounted. by rewrite Hr.
    - destruct (for_each _ _ _) as [[h2 t2]|] eqn:Hloop; [|discriminate].
      inversion Hm; subst.
      destruct (for_each_inv (mount f) (fun _ => True)
                  (flips true Events.MOUNT) (_children c))
        with (h := alter (set_lifecycle true MOUNTED) r h) (h' := h')
             (t := t2) as [(Ha & _) _];
        eauto using flips_nil, flips_app, mount_flips.
      apply Ha. rewrite is_mounted_alter, decide_True by done.
      by rewrite Hr. }
  simpl. unfold is_mounted in Hafter.
  destruct (h' !! r) as [c'|]; [|discriminate]. by rewrite Hafter.
Qed.

(** After [unmount] the component is unmounted, so a second call returns
    at once. *)
Lemma unmount_again fuel r h h' t :
  unmount fuel r h = Some (h', t) ->
  forall fuel', unmount (S fuel') r h' = Some (h', []).
Proof.
  intros Hm fuel'.
  assert (Hafter : exists c', h' !! r = Some c' /\ _is_mounted c' = false).
  { destruct fuel as [|f]; simpl in Hm; [discriminate|].
    destruct (h !! r) as [c|] eqn:Hr; [|discriminate].
    destruct (_is_mounted c) eqn:Hc.
    - destruct (for_each _ _ _) as [[h1 t1]|] eqn:Hloop; [|discriminate].
      inversion Hm; subst.
      assert (Hs : same_on skel h h1).
      { eapply (for_each_inv (unmount f) (fun _ => True)
                  (fun h h' _ => same_on skel h h'));
          eauto using same_on_refl, same_on_trans.
        intros x h0 h0' t0 _ _ Hun. split; [|done].
        eapply unmount_same_on; [|exact Hun]. reflexivity. }
      destruct (same_on_lookup _ _ _ _ _ Hs Hr) as (c1 & Hr1 & _).
      exists (set_lifecycle false UNMOUNTED c1).
      rewrite list_lookup_alter_eq, Hr1. done.
    - inversion Hm; subst. eauto. }
  destruct Hafter as (c' & Hr' & Hc'). simpl. by rewrite Hr', Hc'.
Qed.

(** With fuel above the rank, [mount] and [unmount] return. *)
Lemma mount_terminates rank fuel : forall r h,
  ranked h rank -> is_Some (h !! r) -> rank r < fuel ->
  exists h' t, mount fuel r h = Some (h', t) /\ same_on skel h h'.
Proof.
  induction fuel as [|f IH]; intros r h Hrk [c Hr] Hlt; [lia|].
  simpl. rewrite Hr. destruct (_is_mounted c).
  { eauto using same_on_refl. }
  set (h1 := alter (set_lifecycle true MOUNTED) r h).
  assert (Hs1 : same_on skel h h1) by (by apply same_on_alter).
  destruct (for_each_total (mount f) (fun h0 => same_on skel h h0)
              (_children c)) with (h := h1) as (h2 & t2 & Hloop & Hs2);
    [|done|].
  - intros x h0 Hx Hs0.
    destruct (Hrk r c x Hr Hx) as [[cx Hcx] Hltx].
    destruct (same_on_lookup _ _ _ _ _ Hs0 Hcx) as (cx' & Hcx' & _).
    destruct (IH x h0) as (h' & t & Hm & Hs'); eauto using ranked_same.
    { lia. }
    exists h', t. split; [done|]. by eapply same_on_trans.
  - rewrite Hloop. eauto.
Qed.

Lemma unmount_terminates rank fuel : forall r h,
  ranked h rank -> is_Some (h !! r) -> rank r < fuel ->
  exists h' t, unmount fuel r h = Some (h', t) /\ same_on skel h h'.
Proof.
  induction fuel as [|f IH]; intros r h Hrk [c Hr] Hlt; [lia|].
  simpl. rewrite Hr. destruct (_is_mounted c).
  2:{ eauto using same_on_refl. }
  destruct (for_each_total (unmount f) (fun h0 => same_on skel h h0)
              (_children c)) with (h := h) as (h2 & t2 & Hloop & Hs2);
    [|apply same_on_refl|].
  - intros x h0 Hx Hs0.
    destruct (Hrk r c x Hr Hx) as [[cx Hcx] Hltx].
    destruct (same_on_lookup _ _ _ _ _ Hs0 Hcx) as (cx' & Hcx' & _).
    destruct (IH x h0) as (h' & t & Hm & Hs'); eauto using ranked_same.
    { lia. }
    exists h', t. split; [done|]. by eapply same_on_trans.
  - rewrite Hloop. eexists _, _. split; [done|].
    eapply same_on_trans; [exact Hs2|]. by apply same_on_alter.
Qed.

Lemma flips_exactly d ev h h' t :
  flips d ev h h' t ->
  NoDup t /\
  forall x e, (x, e) ∈ t <->
    e = ev /\ is_mounted h x = negb d /\ is_mounted h' x = d.
Proof.
  intros (_ & Hb & Hc & Hd & He). split; [done|]. intros x e. split.
  - intros Hin. pose proof (He _ Hin) as Hev. simpl in Hev. subst e.
    split; [done|]. by apply Hb.
  - intros (-> & Hn & Hm). by apply Hc.
Qed.

(** C8: a second [mount] (or [unmount]) right after the first returns at
    once, with the store as the first call left it and with nothing
    emitted; the first call emits the lifecycle event once for every
    component whose mounted flag it moved and for no other; and with fuel
    above the rank of the component both calls return. *)
Theorem C8_lifecycle_idempotent
    (fuel : nat) (r : ref) (h : heap) (rank : ref -> nat) :
  ranked h rank ->
  (forall h1 t1, mount fuel r h = Some (h1, t1) ->
     (forall fuel', mount (S fuel') r h1 = Some (h1, [])) /\
     NoDup t1 /\
     (forall x e, (x, e) ∈ t1 <->
        e = Events.MOUNT /\ is_mounted h x = false /\
        is_mounted h1 x = true)) /\
  (forall h1 t1, unmount fuel r h = Some (h1, t1) ->
     (forall fuel', unmount (S fuel') r h1 = Some (h1, [])) /\
     NoDup t1 /\
     (forall x e, (x, e) ∈ t1 <->
        e = Events.UNMOUNT /\ is_mounted h x = true /\
        is_mounted h1 x = false)) /\
  (is_Some (h !! r) -> rank r < fuel ->
     is_Some (mount fuel r h) /\ is_Some (unmount fuel r h)).
Proof.
  intros Hrk. split; [|split].
  - intros h1 t1 Hm. split; [by eapply mount_again|].
    apply (flips_exactly true). by eapply mount_flips.
  - intros h1 t1 Hm. split; [by eapply unmount_again|].
    apply (flips_exactly false).
    by destruct (unmount_flips rank fuel r h h1 t1 Hrk Hm).
  - intros Hv Hlt. split.
    + destruct (mount_terminates rank fuel r h Hrk Hv Hlt)
        as (h' & t & -> & _). eauto.
    + destruct (unmount_terminates rank fuel r h Hrk Hv Hlt)
        as (h' & t & -> & _). eauto.
Qed.

Lemma sample_mounted_ranked : ranked sample_mounted sample_rank.
Proof. apply ranked_check_ok. vm_compute. reflexivity. Defined.

Lemma C8_lifecycle_idempotent_witness :
  (exists h1 t1,
     mount 3 0 sample = Some (h1, t1) /\
     t1 = [(0, "mount"); (1, "mount"); (2, "mount")] /\
     (forall fuel', mount (S fuel') 0 h1 = Some (h1, [])) /\ NoDup t1) /\
  (exists h1 t1,
     unmount 3 0 sample_mounted = Some (h1, t1) /\
     t1 = [(1, "unmount"); (2, "unmount"); (0, "unmount")] /\
     (forall fuel', unmount (S fuel') 0 h1 = Some (h1, [])) /\ NoDup t1).
Proof.
  split.
  - eexists _, _. split; [vm_compute; reflexivity|]. split; [reflexivity|].
    pose proof (proj1 (C8_lifecycle_idempotent 3 0 sample sample_rank
                         sample_ranked) _ _ eq_refl) as (H1 & H2 & _).
    split; [exact H1|exact H2].
  - eexists _, _. split; [vm_compute; reflexivity|]. split; [reflexivity|].
    pose proof (proj1 (proj2 (C8_lifecycle_idempotent 3 0 sample_mounted
                         sample_rank sample_mounted_ranked)) _ _ eq_refl)
      as (H1 & H2 & _).
    split; [exact H1|exact H2].
Defined.

(** ** Event propagation *)

Lemma elem_of_rev {A} (x : A) (l : list A) : x ∈ rev l <-> x ∈ l.
Proof. rewrite !list_elem_of_In. symmetry. apply in_rev. Qed.

Lemma propagate_all_false g vis xs ts :
  Forall2 (fun x t => g x = Some (false, t)) (List.filter vis xs) ts ->
  propagate g vis xs = Some (false, concat ts).
Proof.
  revert ts. induction xs as [|a xs IH]; simpl; intros ts Hall.
  - by inversion Hall.
  - destruct (vis a); [|auto].
    inversion Hall as [|? t ? ts' Ha Hrest]; subst.
    rewrite Ha, (IH _ Hrest). reflexivity.
Qed.

Lemma propagate_first_true g vis pre x post ts tx :
  vis x = true ->
  Forall2 (fun y t => g y = Some (false, t)) (List.filter vis pre) ts ->
  g x = Some (true, tx) ->
  propagate g vis (pre ++ x :: post) = Some (true, concat ts ++ tx).
Proof.
  intros Hx. revert ts. induction pre as [|a pre IH]; simpl; intros ts Hall Hg.
  - inversion Hall; subst. by rewrite Hx, Hg.
  - destruct (vis a); [|auto].
    inversion Hall as [|? t ? ts' Ha Hrest]; subst.
    rewrite Ha, (IH _ Hrest Hg). simpl. by rewrite app_assoc.
Qed.

Lemma propagate_true_iff g vis xs b t :
  propagate g vis xs = Some (b, t) ->
  (b = true <->
   exists x tx, x ∈ xs /\ vis x = true /\ g x = Some (true, tx)).
Proof.
  revert b t. induction xs as [|a xs IH]; simpl; intros b t.
  - intros [= <- <-]. split; [discriminate|].
    intros (x & _ & Hx & _). by apply elem_of_nil in Hx.
  - destruct (vis a) eqn:Hva.
    + destruct (g a) as [[[] ta]|] eqn:Ha; [| |discriminate].
      * intros [= <- <-]. split; [|done]. intros _.
        exists a, ta. split; [left|done].
      * destruct (propagate g vis xs) as [[b' t']|] eqn:Hp; [|discriminate].
        intros [= <- <-]. rewrite (IH _ _ eq_refl). split.
        -- intros (x & tx & Hx & Hrest). exists x, tx.
           split; [by right|done].
        -- intros (x & tx & Hx & Hv & Hg).
           apply elem_of_cons in Hx as [->|Hx]; [congruence|eauto].
    + intros Hp. rewrite (IH _ _ Hp). split.
      * intros (x & tx & Hx & Hrest). exists x, tx. split; [by right|done].
      * intros (x & tx & Hx & Hv & Hg).
        apply elem_of_cons in Hx as [->|Hx]; [congruence|eauto].
Qed.

Lemma propagate_terminates g vis xs :
  (forall x, x ∈ xs -> is_Some (g x)) -> is_Some (propagate g vis xs).
Proof.
  induction xs as [|a xs IH]; simpl; intros H; [eauto|].
  assert (Hrest : is_Some (propagate g vis xs)).
  { apply IH. intros x Hx. apply H. by right. }
  destruct (vis a); [|done].
  destruct (H a) as [[[] ta] ->]; [left|eauto|].
  destruct Hrest as [[b t] ->]. eauto.
Qed.

Lemma handle_event_terminates h rank ev :
  ranked h rank ->
  forall fuel r, is_Some (h !! r) -> rank r < fuel ->
    is_Some (handle_event fuel h r ev).
Proof.
  intros Hrk. induction fuel as [|f IH]; intros r [c Hr] Hlt; [lia|].
  simpl. rewrite Hr. destruct (bool_decide (ev ∈ intercepts c)); [eauto|].
  destruct (cls c); [eauto|]. simpl.
  destruct (propagate_terminates (fun x => handle_event f h x ev)
              (visible h) (rev (_children c))) as [[b t] ->]; [|eauto].
  intros x Hx. apply (proj1 (elem_of_rev _ _)) in Hx.
  destruct (Hrk r c x Hr Hx) as [Hv Hltx]. apply IH; [done|lia].
Qed.

(** C4: a container first emits the event on itself; then it offers the
    event to its visible children, last added first, and stops at the
    first one that reports handling; it returns true exactly when a
    visible child reports handling, and it returns (with fuel above its
    rank). *)
Theorem C4_container_handle_event
    (fuel : nat) (h : heap) (r : ref) (c : Component) (ev : string) :
  h !! r = Some c -> cls c = KContainer -> ev ∉ intercepts c ->
  (forall ts,
     Forall2 (fun x t => handle_event fuel h x ev = Some (false, t))
       (List.filter (visible h) (rev (_children c))) ts ->
     handle_event (S fuel) h r ev = Some (false, (r, ev) :: concat ts)) /\
  (forall pre x post ts tx,
     rev (_children c) = pre ++ x :: post -> visible h x = true ->
     Forall2 (fun y t => handle_event fuel h y ev = Some (false, t))
       (List.filter (visible h) pre) ts ->
     handle_event fuel h x ev = Some (true, tx) ->
     handle_event (S fuel) h r ev =
       Some (true, (r, ev) :: concat ts ++ tx)) /\
  (forall b t,
     handle_event (S fuel) h r ev = Some (b, t) ->
     (b = true <->
      exists x tx, x ∈ _children c /\ visible h x = true /\
                   handle_event fuel h x ev = Some (true, tx))) /\
  (forall rank, ranked h rank -> rank r <= fuel ->
     is_Some (handle_event (S fuel) h r ev)).
Proof.
  intros Hr Hk Hni.
  assert (Hstep : handle_event (S fuel) h r ev =
            match propagate (fun x => handle_event fuel h x ev) (visible h)
                    (rev (_children c)) with
            | None => None
            | Some (b, t) => Some (b, (r, ev) :: t)
            end).
  { simpl. rewrite Hr, Hk. by rewrite bool_decide_eq_false_2. }
  split; [|split; [|split]].
  - intros ts Hall. rewrite Hstep.
    by rewrite (propagate_all_false _ _ _ ts Hall).
  - intros pre x post ts tx Hrev Hx Hall Hg. rewrite Hstep, Hrev.
    by rewrite (propagate_first_true _ _ pre x post ts tx Hx Hall Hg).
  - intros b t. rewrite Hstep.
    destruct (propagate _ _ _) as [[b' t']|] eqn:Hp; [|discriminate].
    intros [= <- <-]. rewrite (propagate_true_iff _ _ _ _ _ Hp).
    split; intros (x & tx & Hx & Hrest); exists x, tx; (split; [|done]).
    + by apply (proj1 (elem_of_rev _ _)).
    + by apply (proj2 (elem_of_rev _ _)).
  - intros rank Hrk Hle.
    apply (handle_event_terminates h rank ev Hrk); [eauto|lia].
Qed.

Lemma C4_container_handle_event_witness :
  handle_event 2 buttons 0 "key" =
    Some (false, [(0, "key"); (2, "key"); (1, "key")]) /\
  handle_event 2 buttons 0 "click" = Some (true, [(0, "click")]).
Proof.
  assert (Hni : forall ev : string, ev ∉ @nil string).
  { intros ev H. by apply elem_of_nil in H. }
  split.
  - refine (proj1 (C4_container_handle_event 1 buttons 0 _ "key"
              eq_refl eq_refl (Hni _)) [[(2, "key")]; [(1, "key")]] _).
    repeat constructor.
  - refine (proj1 (proj2 (C4_container_handle_event 1 buttons 0 _ "click"
              eq_refl eq_refl (Hni _))) [3] 2 [1] [] [] eq_refl eq_refl _
              eq_refl).
    constructor.
Defined.

(** ** Layout *)

Lemma geom_split (a b : option Component) :
  geom <$> a = geom <$> b ->
  _position <$> a = _position <$> b /\ _size <$> a = _size <$> b.
Proof.
  destruct a, b; simpl; intros H; try done.
  unfold geom in H. inversion H. split; congruence.
Qed.

Lemma geom_join (a b : option Component) :
  _position <$> a = _position <$> b -> _size <$> a = _size <$> b ->
  geom <$> a = geom <$> b.
Proof.
  destruct a, b; simpl; intros H1 H2; try done.
  unfold geom. congruence.
Qed.

Lemma Component_update_frame rnd r h h' t :
  Component_update rnd r h = Some (h', t) ->
  same_on skel h h' /\ same_on _is_mounted h h' /\ same_on geom h h'.
Proof.
  unfold Component_update. destruct (h !! r) as [c|]; [|discriminate].
  destruct (_is_mounted c).
  - destruct (rnd _ r); [|discriminate]. intros [= <- <-].
    repeat split; by apply same_on_alter.
  - intros [= <- <-]. repeat split; apply same_on_refl.
Qed.

Section Setters.
Variable upd : ref -> heap -> option (heap * trace).
Hypothesis Hupd : frames upd.

(** One setter call, with [wr] the field write ([set_pos v] or
    [set_sz v]): shape and mounted flags stay, and geometry moves only at
    [x] and below it. *)
Lemma setter_frame (wr : Component -> Component) x h h' t :
  (forall c, skel (wr c) = skel c) ->
  (forall c, _is_mounted (wr c) = _is_mounted c) ->
  match h !! x with
  | None => None
  | Some c =>
      if _is_mounted c then upd x (alter wr x h) else Some (alter wr x h, [])
  end = Some (h', t) ->
  same_on skel h h' /\ same_on _is_mounted h h' /\
  (forall y, y <> x -> ~ below h x y ->
     geom <$> (h' !! y) = geom <$> (h !! y)) /\
  (~ below h x x -> geom <$> (h' !! x) = geom <$> (wr <$> (h !! x))).
Proof.
  intros Hsk Hmt. destruct (h !! x) as [c|] eqn:Hx; [|discriminate].
  assert (Hs1 : same_on skel h (alter wr x h)) by (by apply same_on_alter).
  assert (Hm1 : same_on _is_mounted h (alter wr x h))
    by (by apply same_on_alter).
  destruct (_is_mounted c).
  - intros Hu. destruct (Hupd _ _ _ _ Hu) as (Hs2 & Hm2 & Hg2).
    split; [by eapply same_on_trans|]. split; [by eapply same_on_trans|].
    split.
    + intros y Hne Hnb. rewrite Hg2.
      * by rewrite list_lookup_alter_ne.
      * intros Hb. apply Hnb. eapply below_same; [|exact Hb].
        by apply same_on_sym.
    + intros Hnb. rewrite Hg2.
      * by rewrite list_lookup_alter_eq, Hx.
      * intros Hb. apply Hnb. eapply below_same; [|exact Hb].
        by apply same_on_sym.
  - intros [= <- <-]. split; [done|]. split; [done|]. split.
    + intros y Hne _. by rewrite list_lookup_alter_ne.
    + intros _. by rewrite list_lookup_alter_eq, Hx.
Qed.

Lemma position_setter_frame x v h h' t :
  position_setter upd x v h = Some (h', t) ->
  same_on skel h h' /\ same_on _is_mounted h h' /\
  (forall y, y <> x -> ~ below h x y ->
     geom <$> (h' !! y) = geom <$> (h !! y)) /\
  (~ below h x x ->
     _position <$> (h' !! x) = Some v /\
     _size <$> (h' !! x) = _size <$> (h !! x)).
Proof.
  intros Hp.
  destruct (setter_frame (set_pos v) x h h' t) as (Hs & Hm & Ho & Hx);
    [done|done|exact Hp|].
  split; [done|]. split; [done|]. split; [done|].
  intros Hnb. specialize (Hx Hnb). apply geom_split in Hx as [Hpos Hsz].
  rewrite Hpos, Hsz. unfold position_setter in Hp.
  destruct (h !! x); [|discriminate]. done.
Qed.

Lemma size_setter_frame x v h h' t :
  size_setter upd x v h = Some (h', t) ->
  same_on skel h h' /\ same_on _is_mounted h h' /\
  (forall y, y <> x -> ~ below h x y ->
     geom <$> (h' !! y) = geom <$> (h !! y)) /\
  (~ below h x x ->
     _size <$> (h' !! x) = Some v /\
     _position <$> (h' !! x) = _position <$> (h !! x)).
Proof.
  intros Hp.
  destruct (setter_frame (set_sz v) x h h' t) as (Hs & Hm & Ho & Hx);
    [done|done|exact Hp|].
  split; [done|]. split; [done|]. split; [done|].
  intros Hnb. specialize (Hx Hnb). apply geom_split in Hx as [Hpos Hsz].
  rewrite Hpos, Hsz. unfold size_setter in Hp.
  destruct (h !! x); [|discriminate]. done.
Qed.
End Setters.

Section Layout.
Variable upd : ref -> heap -> option (heap * trace).
Hypothesis Hupd : frames upd.

Lemma not_below_same h h' x y :
  same_on skel h h' -> ~ below h x y -> ~ below h' x y.
Proof.
  intros Hs Hnb Hb. apply Hnb. eapply below_same; [|exact Hb].
  by apply same_on_sym.
Qed.

(** The positioning loop writes geometry only at the children it places
    and below them. *)
Lemma layout_loop_frame r place step : forall xs cur h h' t,
  layout_loop upd r place step cur xs h = Some (h', t) ->
  same_on skel h h' /\ same_on _is_mounted h h' /\
  (forall y, y ∉ xs -> (forall x, x ∈ xs -> ~ below h x y) ->
     geom <$> (h' !! y) = geom <$> (h !! y)).
Proof.
  induction xs as [|x xs IH]; simpl; intros cur h h' t.
  { intros [= <- <-]. repeat split; try apply same_on_refl. }
  destruct (position_setter upd x _ h) as [[h1 t1]|] eqn:Hp; [|discriminate].
  destruct (size_setter upd x _ h1) as [[h2 t2]|] eqn:Hz; [|discriminate].
  destruct (h2 !! r) as [c2|] eqn:Hr2; [|discriminate].
  destruct (layout_loop upd r place step _ xs h2) as [[h3 t3]|] eqn:Hl;
    [|discriminate].
  intros [= <- <-].
  destruct (position_setter_frame upd Hupd _ _ _ _ _ Hp)
    as (Hs1 & Hm1 & Ho1 & _).
  destruct (size_setter_frame upd Hupd _ _ _ _ _ Hz)
    as (Hs2 & Hm2 & Ho2 & _).
  destruct (IH _ _ _ _ Hl) as (Hs3 & Hm3 & Ho3).
  assert (Hs12 : same_on skel h h2) by (by eapply same_on_trans).
  split; [by eapply same_on_trans|].
  split; [eapply same_on_trans; [|exact Hm3]; by eapply same_on_trans|].
  intros y Hnin Hnb. apply not_elem_of_cons in Hnin as [Hne Hnin].
  rewrite Ho3, Ho2, Ho1; try done.
  - apply Hnb. left.
  - eapply not_below_same; [exact Hs1|]. apply Hnb. left.
  - intros x' Hx'. eapply not_below_same; [exact Hs12|]. apply Hnb.
    by right.
Qed.

(** The positioning loop gives the [i]-th child the slot at
    [cur + i * (step + spacing)], provided no placed child is below
    another one or below itself. *)
Lemma layout_loop_places r place step sp : forall xs cur h h' t,
  layout_loop upd r place step cur xs h = Some (h', t) ->
  _layout_spacing <$> (h !! r) = Some sp ->
  NoDup xs ->
  (forall x y, x ∈ xs -> y ∈ xs -> ~ below h x y) ->
  forall i x, xs !! i = Some x ->
    geom <$> (h' !! x) =
      Some (place (cur + Z.of_nat i * (step + sp))%Z).
Proof.
  induction xs as [|x xs IH]; simpl; intros cur h h' t.
  { intros _ _ _ _ i x Hi. by rewrite lookup_nil in Hi. }
  destruct (position_setter upd x _ h) as [[h1 t1]|] eqn:Hp; [|discriminate].
  destruct (size_setter upd x _ h1) as [[h2 t2]|] eqn:Hz; [|discriminate].
  destruct (h2 !! r) as [c2|] eqn:Hr2; [|discriminate].
  destruct (layout_loop upd r place step _ xs h2) as [[h3 t3]|] eqn:Hl;
    [|discriminate].
  intros [= <- <-] Hsp Hnd Hnb.
  apply NoDup_cons in Hnd as [Hx Hnd].
  destruct (position_setter_frame upd Hupd _ _ _ _ _ Hp)
    as (Hs1 & Hm1 & Ho1 & Hat1).
  destruct (size_setter_frame upd Hupd _ _ _ _ _ Hz)
    as (Hs2 & Hm2 & Ho2 & Hat2).
  destruct (layout_loop_frame _ _ _ _ _ _ _ _ Hl) as (Hs3 & Hm3 & Ho3).
  assert (Hs12 : same_on skel h h2) by (by eapply same_on_trans).
  assert (Hsp2 : _layout_spacing c2 = sp).
  { specialize (Hs12 r). rewrite Hr2 in Hs12.
    destruct (h !! r) as [c|]; simpl in *; [|discriminate].
    assert (Hsk : skel c2 = skel c) by congruence.
    inversion Hsp. subst sp. by apply skel_spacing. }
  intros [|i] y Hi; simpl in Hi.
  - inversion Hi; subst y; clear Hi.
    rewrite Ho3; [|done|].
    2:{ intros x' Hx'. eapply not_below_same; [exact Hs12|].
        apply Hnb; [by right|left]. }
    assert (Hxx : ~ below h x x) by (apply Hnb; left).
    destruct (Hat1 Hxx) as [Hpos1 _].
    destruct (Hat2 (not_below_same _ _ _ _ Hs1 Hxx)) as [Hsz2 Hpos2].
    rewrite Hpos1 in Hpos2.
    replace (cur + Z.of_nat 0 * (step + sp))%Z with cur by lia.
    destruct (h2 !! x) as [cx|]; simpl in *; [|discriminate].
    unfold geom. inversion Hpos2 as [Hp2]. inversion Hsz2 as [Hz2].
    rewrite Hp2, Hz2. by destruct (place cur).
  - rewrite (IH _ _ _ _ Hl) with (i := i); try done.
    + f_equal. f_equal. rewrite Hsp2. lia.
    + by rewrite Hr2, <- Hsp2.
    + intros x' y' Hx' Hy'. eapply not_below_same; [exact Hs12|].
      apply Hnb; by right.
Qed.

Lemma calculate_layout_frame r h h' t :
  calculate_layout_with upd r h = Some (h', t) ->
  same_on skel h h' /\ same_on _is_mounted h h' /\
  forall y, ~ below h r y -> geom <$> (h' !! y) = geom <$> (h !! y).
Proof.
  unfold calculate_layout_with.
  destruct (h !! r) as [c|] eqn:Hr; [|discriminate].
  assert (Hnone : Some (h, @nil (ref * string)) = Some (h', t) ->
            same_on skel h h' /\ same_on _is_mounted h h' /\
            forall y, ~ below h r y ->
              geom <$> (h' !! y) = geom <$> (h !! y)).
  { intros [= <- <-]. repeat split; apply same_on_refl. }
  destruct (_children c) as [|k ks] eqn:Hks; [done|].
  rewrite <- Hks.
  destruct (List.filter (visible h) (_children c)) as [|v vs] eqn:Hvs;
    [done|].
  rewrite <- Hvs.
  assert (Hloop : forall place step cur,
            layout_loop upd r place step cur
              (List.filter (visible h) (_children c)) h = Some (h', t) ->
            same_on skel h h' /\ same_on _is_mounted h h' /\
            forall y, ~ below h r y ->
              geom <$> (h' !! y) = geom <$> (h !! y)).
  { intros place step cur Hl.
    destruct (layout_loop_frame _ _ _ _ _ _ _ _ Hl) as (Hs & Hm & Ho).
    split; [done|]. split; [done|]. intros y Hnb.
    assert (Hedge : forall x, x ∈ List.filter (visible h) (_children c) ->
              edge h r x).
    { intros x Hx. apply list_elem_of_In, filter_In in Hx as [Hx _].
      exists c. split; [done|]. by apply list_elem_of_In. }
    apply Ho.
    - intros Hy. apply Hnb, tc_once. auto.
    - intros x Hx Hb. apply Hnb. eapply tc_l; eauto. }
  destruct (decide (_layout_direction c = "vertical")); apply Hloop.
Qed.
End Layout.

(** [update] keeps shape and mounted flags and moves geometry only below
    the component it is called on. *)
Lemma update_frames fuel : frames (update fuel).
Proof.
  induction fuel as [|f IH]; intros r h h' t; simpl; [discriminate|].
  destruct (h !! r) as [c|] eqn:Hr; [|discriminate].
  destruct (cls c).
  - intros Hu. destruct (Component_update_frame _ _ _ _ _ Hu)
      as (Hs & Hm & Hg). auto.
  - destruct (Component_update (render f) r h) as [[h1 t1]|] eqn:Hu;
      [|discriminate].
    destruct (calculate_layout_with (update f) r h1) as [[h2 t2]|] eqn:Hl;
      [|discriminate].
    intros [= <- <-].
    destruct (Component_update_frame _ _ _ _ _ Hu) as (Hs1 & Hm1 & Hg1).
    destruct (calculate_layout_frame _ IH _ _ _ _ Hl) as (Hs2 & Hm2 & Hg2).
    split; [by eapply same_on_trans|]. split; [by eapply same_on_trans|].
    intros y Hnb. rewrite Hg2; [apply Hg1|].
    by eapply not_below_same.
Qed.

Lemma same_on_valid {A} (f : Component -> A) h h' x :
  same_on f h h' -> is_Some (h !! x) -> is_Some (h' !! x).
Proof.
  intros Hs [c Hc]. destruct (same_on_lookup _ _ _ _ _ Hs Hc) as (c' & ? & _).
  eauto.
Qed.

Lemma render_each_terminates g xs :
  (forall x, x ∈ xs -> is_Some (g x)) -> is_Some (render_each g xs).
Proof.
  induction xs as [|a xs IH]; simpl; intros H; [eauto|].
  destruct (H a) as [ta ->]; [left|].
  destruct IH as [t ->]; [|eauto].
  intros x Hx. apply H. by right.
Qed.

Lemma render_terminates h rank :
  ranked h rank ->
  forall fuel r, is_Some (h !! r) -> rank r < fuel -> is_Some (render fuel h r).
Proof.
  intros Hrk. induction fuel as [|f IH]; intros r [c Hr] Hlt; [lia|].
  simpl. rewrite Hr. destruct (cls c); [eauto|].
  destruct (render_each_terminates (render f h)
              (List.filter (visible h) (_children c))) as [t ->]; [|eauto].
  intros x Hx. apply list_elem_of_In, filter_In in Hx as [Hx _].
  apply list_elem_of_In in Hx.
  destruct (Hrk r c x Hr Hx) as [Hv Hltx]. apply IH; [done|lia].
Qed.

Section LayoutTermination.
Variable upd : ref -> heap -> option (heap * trace).
Hypothesis Hupd : frames upd.
Variable rank : ref -> nat.

Lemma setter_terminates (wr : Component -> Component) x h :
  is_Some (h !! x) -> is_Some (upd x (alter wr x h)) ->
  is_Some (match h !! x with
           | None => None
           | Some c =>
               if _is_mounted c then upd x (alter wr x h)
               else Some (alter wr x h, [])
           end).
Proof. intros [c ->] Hu. destruct (_is_mounted c); eauto. Qed.

Lemma layout_loop_terminates r place step : forall xs cur h,
  ranked h rank -> is_Some (h !! r) ->
  (forall x, x ∈ xs -> is_Some (h !! x)) ->
  (forall x h1, x ∈ xs -> ranked h1 rank -> is_Some (h1 !! x) ->
     is_Some (upd x h1)) ->
  is_Some (layout_loop upd r place step cur xs h).
Proof.
  induction xs as [|x xs IH]; simpl; intros cur h Hrk Hr Hv Hu; [eauto|].
  assert (Hvx : is_Some (h !! x)) by (apply Hv; left).
  destruct (setter_terminates (set_pos (place cur).1) x h Hvx)
    as [[h1 t1] Hp].
  { apply Hu; [left| |].
    - eapply ranked_same; [|exact Hrk]. by apply same_on_alter.
    - eapply same_on_valid; [|exact Hvx]. by apply (same_on_alter skel). }
  fold (position_setter upd x (place cur).1 h) in Hp. rewrite Hp.
  destruct (position_setter_frame upd Hupd _ _ _ _ _ Hp) as (Hs1 & _).
  assert (Hvx1 : is_Some (h1 !! x)) by (by eapply same_on_valid).
  assert (Hrk1 : ranked h1 rank) by (by eapply ranked_same).
  destruct (setter_terminates (set_sz (place cur).2) x h1 Hvx1)
    as [[h2 t2] Hz].
  { apply Hu; [left| |].
    - eapply ranked_same; [|exact Hrk1]. by apply same_on_alter.
    - eapply same_on_valid; [|exact Hvx1]. by apply (same_on_alter skel). }
  fold (size_setter upd x (place cur).2 h1) in Hz. rewrite Hz.
  destruct (size_setter_frame upd Hupd _ _ _ _ _ Hz) as (Hs2 & _).
  assert (Hs12 : same_on skel h h2) by (by eapply same_on_trans).
  destruct (same_on_valid skel h h2 r Hs12 Hr) as [c2 Hr2]. rewrite Hr2.
  destruct (IH (cur + (step + _layout_spacing c2))%Z h2) as [[h3 t3] ->];
    eauto.
  - by eapply ranked_same.
  - intros y Hy. eapply same_on_valid; [exact Hs12|]. apply Hv. by right.
  - intros y h' Hy. apply Hu. by right.
Qed.

Lemma calculate_layout_terminates r h c :
  ranked h rank -> h !! r = Some c ->
  (forall x h1, x ∈ _children c -> ranked h1 rank -> is_Some (h1 !! x) ->
     is_Some (upd x h1)) ->
  is_Some (calculate_layout_with upd r h).
Proof.
  intros Hrk Hr Hu. unfold calculate_layout_with. rewrite Hr.
  destruct (_children c) as [|k ks] eqn:Hks; [eauto|]. rewrite <- Hks in *.
  destruct (List.filter (visible h) (_children c)) as [|v vs] eqn:Hvs;
    [eauto|].
  rewrite <- Hvs.
  assert (Hin : forall x, x ∈ List.filter (visible h) (_children c) ->
            x ∈ _children c).
  { intros x Hx. apply list_elem_of_In, filter_In in Hx as [Hx _].
    by apply list_elem_of_In. }
  assert (Hv : forall x, x ∈ List.filter (visible h) (_children c) ->
            is_Some (h !! x)).
  { intros x Hx. by destruct (Hrk r c x Hr (Hin x Hx)). }
  assert (Hu' : forall x h1, x ∈ List.filter (visible h) (_children c) ->
            ranked h1 rank -> is_Some (h1 !! x) -> is_Some (upd x h1)).
  { intros x h1 Hx. apply Hu. by apply Hin. }
  destruct (decide (_layout_direction c = "vertical"));
    apply layout_loop_terminates; eauto.
Qed.
End LayoutTermination.

(** With fuel two above the rank, [update] returns. *)
Lemma update_terminates rank fuel : forall r h,
  ranked h rank -> is_Some (h !! r) -> S (rank r) < fuel ->
  is_Some (update fuel r h).
Proof.
  induction fuel as [|f IH]; intros r h Hrk [c Hr] Hlt; [lia|].
  simpl. rewrite Hr.
  assert (Hbase : exists h1 t1, Component_update (render f) r h = Some (h1, t1)).
  { unfold Component_update. rewrite Hr. destruct (_is_mounted c); [|eauto].
    destruct (render_terminates (alter (set_state UPDATED) r h) rank)
      with (fuel := f) (r := r) as [t ->]; eauto; [| |lia].
    - eapply ranked_same; [|exact Hrk]. by apply same_on_alter.
    - eapply same_on_valid; [by apply (same_on_alter skel)|eauto]. }
  destruct Hbase as (h1 & t1 & Hb). rewrite Hb.
  destruct (cls c); [eauto|].
  destruct (Component_update_frame _ _ _ _ _ Hb) as (Hs1 & _).
  destruct (same_on_lookup _ _ _ _ _ Hs1 Hr) as (c1 & Hr1 & Hsk).
  destruct (calculate_layout_terminates (update f) (update_frames f) rank
              r h1 c1) as [[h2 t2] ->]; eauto.
  - by eapply ranked_same.
  - intros x h' Hx Hrk' Hv. apply IH; [done|done|].
    rewrite (skel_children _ _ Hsk) in Hx.
    destruct (Hrk r c x Hr Hx) as [_ Hltx]. lia.
Qed.

(** Two visible children of a vertical container: each gets half of what
    the spacing leaves of the height, the full width, and the second one
    starts after the first and the spacing. *)
Lemma vertical_pair_layout fuel r h c a b rank :
  ranked h rank -> rank r < fuel ->
  h !! r = Some c -> _layout_direction c = "vertical" ->
  List.filter (visible h) (_children c) = [a; b] ->
  a <> b -> ~ below h a b -> ~ below h b a ->
  let per := (Z.max 0 ((_size c).1 - _layout_spacing c * (2 - 1)) / 2)%Z in
  exists h' t,
    calculate_layout fuel r h = Some (h', t) /\
    geom <$> (h' !! a) =
      Some (((_position c).1, (_position c).2), (per, (_size c).2)) /\
    geom <$> (h' !! b) =
      Some ((((_position c).1 + (per + _layout_spacing c))%Z,
             (_position c).2), (per, (_size c).2)).
Proof.
  intros Hrk Hlt Hr Hdir Hvis Hab Hnab Hnba per.
  assert (Hirr : forall x, ~ below h x x).
  { intros x Hb. destruct (below_valid h rank x x Hrk Hb). lia. }
  destruct (calculate_layout_terminates (update fuel) (update_frames fuel)
              rank r h c Hrk Hr) as [[h' t] Hcl].
  { intros x h1 Hx Hrk1 Hv. apply (update_terminates rank); [done|done|].
    destruct (Hrk r c x Hr Hx) as [_ Hltx]. lia. }
  exists h', t. split; [exact Hcl|].
  unfold calculate_layout_with in Hcl. rewrite Hr in Hcl.
  destruct (_children c) as [|k ks] eqn:Hks; [discriminate|].
  rewrite Hvis in Hcl.
  rewrite decide_True in Hcl by done. simpl length in Hcl.
  change (Z.of_nat 2) with 2%Z in Hcl.
  pose proof (layout_loop_places (update fuel) (update_frames fuel) r _ _
                (_layout_spacing c) _ _ _ _ _ Hcl) as Hpl.
  rewrite Hr in Hpl. specialize (Hpl eq_refl).
  assert (Hnd : NoDup [a; b]).
  { apply NoDup_cons. split; [|apply NoDup_singleton].
    intros Hin. apply list_elem_of_singleton in Hin. done. }
  assert (Hpair : forall x y, x ∈ [a; b] -> y ∈ [a; b] -> ~ below h x y).
  { intros x y Hx Hy.
    apply elem_of_cons in Hx as [->|Hx];
      [|apply list_elem_of_singleton in Hx; subst x];
    (apply elem_of_cons in Hy as [->|Hy];
      [|apply list_elem_of_singleton in Hy; subst y]); auto. }
  specialize (Hpl Hnd Hpair). split.
  - rewrite (Hpl 0 a eq_refl). fold per. do 3 f_equal. lia.
  - rewrite (Hpl 1 b eq_refl). fold per. do 3 f_equal. lia.
Qed.

(** C3: a vertical container at (0, 0) of size (100, 200) with the two
    visible children [a] and [b]: with spacing 0 they end at (0, 0) and
    (50, 0), each 50 by 200; with spacing 10 at (0, 0) and (55, 0), each
    45 by 200.  Positions are (row, column), sizes (height, width). *)
Theorem C3_vertical_layout_example
    (fuel : nat) (r a b : ref) (h : heap) (c : Component)
    (rank : ref -> nat) :
  ranked h rank -> rank r < fuel ->
  h !! r = Some c -> _layout_direction c = "vertical" ->
  _position c = (0, 0)%Z -> _size c = (100, 200)%Z ->
  List.filter (visible h) (_children c) = [a; b] ->
  a <> b -> ~ below h a b -> ~ below h b a ->
  (_layout_spacing c = 0%Z ->
   exists h' t,
     calculate_layout fuel r h = Some (h', t) /\
     geom <$> (h' !! a) = Some ((0, 0), (50, 200))%Z /\
     geom <$> (h' !! b) = Some ((50, 0), (50, 200))%Z) /\
  (_layout_spacing c = 10%Z ->
   exists h' t,
     calculate_layout fuel r h = Some (h', t) /\
     geom <$> (h' !! a) = Some ((0, 0), (45, 200))%Z /\
     geom <$> (h' !! b) = Some ((55, 0), (45, 200))%Z).
Proof.
  intros Hrk Hlt Hr Hdir Hpos Hsz Hvis Hab Hnab Hnba.
  destruct (vertical_pair_layout fuel r h c a b rank Hrk Hlt Hr Hdir Hvis
              Hab Hnab Hnba) as (h' & t & Hcl & Ha & Hb).
  rewrite Hpos, Hsz in Ha, Hb. simpl in Ha, Hb.
  split; intros Hsp; rewrite Hsp in Ha, Hb; exists h', t;
    (split; [exact Hcl|]); split; [exact Ha|exact Hb|exact Ha|exact Hb].
Qed.

Lemma leaf_not_below h x c y :
  h !! x = Some c -> _children c = [] -> ~ below h x y.
Proof.
  intros Hx Hc Hb.
  assert (He : exists z, edge h x z).
  { inversion Hb; subst; eauto. }
  destruct He as (z & pc & Hp & Hz). rewrite Hx in Hp. inversion Hp; subst pc.
  rewrite Hc in Hz. by apply elem_of_nil in Hz.
Qed.

Lemma vbox_ranked sp : ranked (vbox sp) sample_rank.
Proof. apply ranked_check_ok. vm_compute. reflexivity. Defined.

Lemma C3_vertical_layout_example_witness :
  (exists h' t,
     calculate_layout 2 0 (vbox 0) = Some (h', t) /\
     geom <$> (h' !! 1) = Some ((0, 0), (50, 200))%Z /\
     geom <$> (h' !! 2) = Some ((50, 0), (50, 200))%Z) /\
  (exists h' t,
     calculate_layout 2 0 (vbox 10) = Some (h', t) /\
     geom <$> (h' !! 1) = Some ((0, 0), (45, 200))%Z /\
     geom <$> (h' !! 2) = Some ((55, 0), (45, 200))%Z).
Proof.
  assert (Hlt : sample_rank 0 < 2) by (vm_compute; lia).
  assert (Hne : 1 <> 2) by discriminate.
  split.
  - refine (proj1 (C3_vertical_layout_example 2 0 1 2 (vbox 0) _ sample_rank
              (vbox_ranked 0) Hlt eq_refl eq_refl eq_refl eq_refl eq_refl
              Hne _ _) eq_refl).
    + by eapply leaf_not_below.
    + by eapply leaf_not_below.
  - refine (proj2 (C3_vertical_layout_example 2 0 1 2 (vbox 10) _ sample_rank
              (vbox_ranked 10) Hlt eq_refl eq_refl eq_refl eq_refl eq_refl
              Hne _ _) eq_refl).
    + by eapply leaf_not_below.
    + by eapply leaf_not_below.
Defined.

Example vbox_layout_computed :
  option_map (fun r => map geom r.1) (calculate_layout 2 0 (vbox 10)) =
    Some [((0, 0), (100, 200)); ((0, 0), (45, 200)); ((55, 0), (45, 200))]%Z.
Proof. vm_compute. reflexivity. Qed.

(** ** Setters *)

(** An [update] of a mounted component starts by emitting [update]. *)
Lemma update_head fuel r h h' t :
  update fuel r h = Some (h', t) -> is_mounted h r = true ->
  exists t', t = (r, Events.UPDATE) :: t'.
Proof.
  destruct fuel as [|f]; simpl; [discriminate|].
  unfold is_mounted, Component_update.
  destruct (h !! r) as [c|] eqn:Hr; [|discriminate].
  intros Hu Hm. rewrite Hm in Hu.
  destruct (render f _ r) as [tr|]; [|by destruct (cls c)].
  destruct (cls c).
  - inversion Hu; subst. eauto.
  - destruct (calculate_layout_with _ _ _) as [[h2 t2]|]; [|discriminate].
    inversion Hu; subst. simpl. eauto.
Qed.

(** On a plain mounted [Component], [update] marks it updated, emits
    [update] and renders. *)
Lemma update_plain fuel r h c :
  h !! r = Some c -> cls c = KComponent -> _is_mounted c = true ->
  update (S (S fuel)) r h =
    Some (alter (set_state UPDATED) r h,
          [(r, Events.UPDATE); (r, Events.RENDER)]).
Proof.
  intros Hr Hk Hm. simpl. rewrite Hr, Hk. unfold Component_update.
  rewrite Hr, Hm. rewrite list_lookup_alter_eq, Hr. simpl. by rewrite Hk.
Qed.

(** C9, as stated, fails: assigning to a mounted component the position
    (or the size) it already has does run [update]. *)
Lemma C9_equal_position_updates :
  (exists c, mounted_leaf !! 0 = Some c /\ _is_mounted c = true /\
             _position c = (0, 0)%Z /\ _size c = (0, 0)%Z) /\
  set_position 2 0 (0, 0)%Z mounted_leaf =
    Some (alter (set_state UPDATED) 0 mounted_leaf,
          [(0, Events.UPDATE); (0, Events.RENDER)]) /\
  set_size 2 0 (0, 0)%Z mounted_leaf =
    Some (alter (set_state UPDATED) 0 mounted_leaf,
          [(0, Events.UPDATE); (0, Events.RENDER)]).
Proof.
  split; [eexists; repeat split; reflexivity|].
  split; vm_compute; reflexivity.
Qed.

(** C9, amended: on a mounted component the position setter and the size
    setter run [update] whatever value is assigned, also the current one
    (on a plain [Component] that is one [update] and one [render]
    emission); on an unmounted one they only store the value.  The
    visibility setter does nothing when the flag is assigned its current
    value, runs [update] when the flag flips on a mounted component, and
    only stores the flag when it flips on an unmounted one. *)
Theorem C9_setters_update
    (fuel : nat) (r : ref) (h : heap) (c : Component) :
  h !! r = Some c ->
  (forall v, _is_mounted c = true ->
     (forall h' t, set_position fuel r v h = Some (h', t) ->
        exists t', t = (r, Events.UPDATE) :: t') /\
     (forall h' t, set_size fuel r v h = Some (h', t) ->
        exists t', t = (r, Events.UPDATE) :: t') /\
     (cls c = KComponent ->
        set_position (S (S fuel)) r v h =
          Some (alter (set_state UPDATED) r (alter (set_pos v) r h),
                [(r, Events.UPDATE); (r, Events.RENDER)]) /\
        set_size (S (S fuel)) r v h =
          Some (alter (set_state UPDATED) r (alter (set_sz v) r h),
                [(r, Events.UPDATE); (r, Events.RENDER)]))) /\
  (forall v, _is_mounted c = false ->
     set_position fuel r v h = Some (alter (set_pos v) r h, []) /\
     set_size fuel r v h = Some (alter (set_sz v) r h, [])) /\
  (forall v, _is_visible c = v -> set_visible fuel r v h = Some (h, [])) /\
  (forall v, _is_visible c <> v ->
     (_is_mounted c = true ->
        forall h' t, set_visible fuel r v h = Some (h', t) ->
          exists t', t = (r, Events.UPDATE) :: t') /\
     (_is_mounted c = false ->
        set_visible fuel r v h =
          Some (alter (set_visible_flag v) r h, []))) /\
  (forall rank v b, ranked h rank -> S (rank r) < fuel ->
     is_Some (set_position fuel r v h) /\ is_Some (set_size fuel r v h) /\
     is_Some (set_visible fuel r b h)).
Proof.
  intros Hr. split; [|split; [|split; [|split]]].
  - intros v Hm.
    assert (Hmp : is_mounted (alter (set_pos v) r h) r = true).
    { unfold is_mounted. by rewrite list_lookup_alter_eq, Hr. }
    assert (Hms : is_mounted (alter (set_sz v) r h) r = true).
    { unfold is_mounted. by rewrite list_lookup_alter_eq, Hr. }
    split; [|split].
    + intros h' t. unfold set_position, position_setter. rewrite Hr, Hm.
      intros Hu. by eapply update_head.
    + intros h' t. unfold set_size, size_setter. rewrite Hr, Hm.
      intros Hu. by eapply update_head.
    + intros Hk. unfold set_position, position_setter, set_size, size_setter.
      rewrite Hr, Hm. split.
      * apply (update_plain fuel r _ (set_pos v c)); try done.
        by rewrite list_lookup_alter_eq, Hr.
      * apply (update_plain fuel r _ (set_sz v c)); try done.
        by rewrite list_lookup_alter_eq, Hr.
  - intros v Hm. unfold set_position, position_setter, set_size, size_setter.
    by rewrite Hr, Hm.
  - intros v Hv. unfold set_visible. rewrite Hr.
    rewrite bool_decide_eq_false_2; [done|]. intros Hne. by apply Hne.
  - intros v Hv. unfold set_visible. rewrite Hr.
    rewrite bool_decide_eq_true_2 by done. split.
    + intros Hm h' t. rewrite Hm. intros Hu. eapply update_head; [done|].
      unfold is_mounted. by rewrite list_lookup_alter_eq, Hr.
    + intros Hm. by rewrite Hm.
  - intros rank v b Hrk Hlt.
    assert (Hup : forall wr, (forall c0, _children (wr c0) = _children c0) ->
              is_Some (update fuel r (alter wr r h))).
    { intros wr Hwr. apply (update_terminates rank); [|eauto|done].
      - by apply ranked_alter.
      - rewrite list_lookup_alter_eq, Hr. simpl. eauto. }
    unfold set_position, position_setter, set_size, size_setter, set_visible.
    rewrite Hr. split; [|split].
    + destruct (_is_mounted c); [by apply Hup|eauto].
    + destruct (_is_mounted c); [by apply Hup|eauto].
    + destruct (bool_decide (_is_visible c <> b)); [|eauto].
      destruct (_is_mounted c); [by apply Hup|eauto].
Qed.

Lemma C9_setters_update_witness :
  set_position 2 0 (3, 4)%Z mounted_leaf =
    Some (alter (set_state UPDATED) 0 (alter (set_pos (3, 4)%Z) 0 mounted_leaf),
          [(0, Events.UPDATE); (0, Events.RENDER)]) /\
  set_visible 2 0 true mounted_leaf = Some (mounted_leaf, []) /\
  set_position 2 3 (3, 4)%Z sample = Some (alter (set_pos (3, 4)%Z) 3 sample, []).
Proof.
  split; [|split].
  - refine (proj1 (proj2 (proj2 (proj1 (C9_setters_update 0 0 mounted_leaf
              _ eq_refl) (3, 4)%Z eq_refl)) eq_refl)).
  - refine (proj1 (proj2 (proj2 (C9_setters_update 2 0 mounted_leaf
              _ eq_refl))) true eq_refl).
  - refine (proj1 (proj1 (proj2 (C9_setters_update 2 3 sample
              _ eq_refl)) (3, 4)%Z eq_refl)).
Defined.

(** ** Identity uniqueness *)

Example shared_child_build_result :
  option_map (map (fun c => (id c, _parent c, _children c)))
    shared_child_build =
  Some [ (Some "x", None, [1]); (None, Some 2, [3]); (None, None, [1]);
         (Some "x", Some 1, []) ].
Proof. vm_compute. reflexivity. Qed.

(** C1, as stated, fails: all three insertions are accepted, and then the
    root [0] and its grandchild [3] both carry the id ["x"]. *)
Lemma C1_shared_child_duplicates_id :
  exists h,
    shared_child_build = Some h /\
    (exists c0, h !! 0 = Some c0 /\ _parent c0 = None) /\
    reach h 0 0 /\ reach h 0 3 /\
    id_of h 0 = Some "x" /\ id_of h 3 = Some "x" /\ 0 <> 3 /\
    ~ unique_ids h.
Proof.
  eexists. split; [vm_compute; reflexivity|].
  assert (H03 : reach
            [ mkComponent KComponent [] (Some "x") None CREATED None [1]
                false true (0, 0)%Z (0, 0)%Z "vertical" 0%Z;
              mkComponent KComponent [] None None CREATED (Some 2) [3]
                false true (0, 0)%Z (0, 0)%Z "vertical" 0%Z;
              mkComponent KComponent [] None None CREATED None [1]
                false true (0, 0)%Z (0, 0)%Z "vertical" 0%Z;
              mkComponent KComponent [] (Some "x") None CREATED (Some 1) []
                false true (0, 0)%Z (0, 0)%Z "vertical" 0%Z ] 0 3).
  { eapply rtc_l; [eexists; split; [reflexivity|]; apply list_elem_of_here|].
    eapply rtc_l; [eexists; split; [reflexivity|]; apply list_elem_of_here|].
    apply rtc_refl. }
  split; [eexists; split; reflexivity|].
  split; [apply rtc_refl|]. split; [exact H03|].
  split; [reflexivity|]. split; [reflexivity|]. split; [discriminate|].
  intros Hu. specialize (Hu 0 0 3 "x" (rtc_refl _ _) H03 eq_refl eq_refl).
  discriminate.
Qed.

Lemma forest_same h h' : same_on skel h h' -> forest h -> forest h'.
Proof.
  intros Hs (I1 & I2 & I3 & I4).
  pose proof (same_on_sym _ _ _ Hs) as Hs'.
  split; [|split; [|split]].
  - intros x cx' p Hx Hp.
    destruct (same_on_lookup _ _ _ _ _ Hs' Hx) as (cx & Hx0 & Hsk).
    eapply edge_same; [exact Hs|]. eapply I1; [exact Hx0|].
    by rewrite (skel_parent _ _ Hsk).
  - intros p x He. apply (edge_same _ _ _ _ Hs') in He.
    destruct (I2 p x He) as (cx & Hx & Hp).
    destruct (same_on_lookup _ _ _ _ _ Hs Hx) as (cx' & Hx' & Hsk).
    exists cx'. split; [done|]. by rewrite (skel_parent _ _ Hsk).
  - intros x Hv. destruct (I3 x) as [R HR].
    + by eapply same_on_valid.
    + exists R. by eapply root_of_same.
  - intros R x y i Hx Hy Hix Hiy.
    apply (I4 R x y i); try (by eapply root_of_same).
    + by rewrite <- (id_of_same _ _ x Hs).
    + by rewrite <- (id_of_same _ _ y Hs).
Qed.

Lemma root_reach h x R :
  forest h -> root_of h x R -> reach h R x.
Proof.
  intros (I1 & _). induction 1 as [r c Hr Hp|r c p R Hr Hp _ IH].
  - apply rtc_refl.
  - eapply rtc_r; [exact IH|]. by eapply I1.
Qed.

Lemma reach_root h R x :
  forest h -> reach h R x ->
  x = R \/ exists R', root_of h R R' /\ root_of h x R'.
Proof.
  intros (I1 & I2 & I3 & I4) Hreach. revert x Hreach.
  apply (rtc_ind_r (fun x => x = R \/
           exists R', root_of h R R' /\ root_of h x R')); [by left|].
  intros y z Hreach He IH.
  right. destruct (I2 y z He) as (cz & Hz & Hpz).
  destruct IH as [->|(R' & HR & Hy)].
  - destruct He as (pc & Hp & _). destruct (I3 R) as [R' HR]; [eauto|].
    exists R'. split; [done|]. eapply root_of_up; eauto.
  - exists R'. split; [done|]. eapply root_of_up; eauto.
Qed.

Lemma forest_unique_ids h : forest h -> unique_ids h.
Proof.
  intros Hf R x y i Hx Hy Hix Hiy.
  pose proof Hf as (I1 & I2 & I3 & I4).
  destruct (reach_root h R x Hf Hx) as [->|(Rx & HRx & Hrx)];
    destruct (reach_root h R y Hf Hy) as [->|(Ry & HRy & Hry)]; try done.
  - eapply I4; eauto.
  - eapply I4; eauto.
  - rewrite (root_of_fun _ _ _ _ HRy HRx) in Hry. eapply I4; eauto.
Qed.

(** *** A constructor call keeps the forest *)

Lemma root_of_valid h x R : root_of h x R -> x < length h /\ R < length h.
Proof.
  induction 1 as [r c Hr Hp|r c p R Hr Hp _ [_ IH]];
    apply lookup_lt_Some in Hr; auto.
Qed.

Lemma lookup_snoc (h : heap) (o : Component) (x : ref) :
  (h ++ [o]) !! x = if decide (x = length h) then Some o else h !! x.
Proof.
  destruct (decide (x = length h)) as [->|Hne].
  - rewrite lookup_app_r by lia. by rewrite Nat.sub_diag.
  - destruct (decide (x < length h)) as [Hlt|Hge].
    + by rewrite lookup_app_l.
    + rewrite !lookup_ge_None_2; [done|lia|].
      rewrite length_app. simpl. lia.
Qed.

Lemma lookup_snoc_old (h : heap) (o c : Component) (x : ref) :
  h !! x = Some c -> (h ++ [o]) !! x = Some c.
Proof.
  intros Hx. rewrite lookup_snoc. rewrite decide_False; [done|].
  apply lookup_lt_Some in Hx. lia.
Qed.

Section Constructor.
Variables (h : heap) (o : Component).
Hypothesis Hparent : _parent o = None.
Hypothesis Hchildren : _children o = [].

Lemma edge_snoc p x : edge (h ++ [o]) p x <-> edge h p x.
Proof.
  split; intros (pc & Hp & Hx).
  - rewrite lookup_snoc in Hp. destruct (decide (p = length h)).
    + inversion Hp; subst pc. rewrite Hchildren in Hx.
      by apply elem_of_nil in Hx.
    + exists pc. auto.
  - exists pc. split; [by apply lookup_snoc_old|done].
Qed.

Lemma root_of_snoc_old x R : root_of h x R -> root_of (h ++ [o]) x R.
Proof.
  induction 1 as [r c Hr Hp|r c p R Hr Hp _ IH].
  - eapply root_of_top; [by apply lookup_snoc_old|done].
  - eapply root_of_up; [by apply lookup_snoc_old|done|done].
Qed.

Lemma root_of_snoc_new : root_of (h ++ [o]) (length h) (length h).
Proof.
  eapply root_of_top; [|exact Hparent].
  rewrite lookup_snoc. by rewrite decide_True.
Qed.

Lemma root_of_snoc_inv x R :
  forest h -> root_of (h ++ [o]) x R ->
  (x = length h /\ R = length h) \/ root_of h x R.
Proof.
  intros (I1 & _). induction 1 as [r c Hr Hp|r c p R Hr Hp _ IH].
  - rewrite lookup_snoc in Hr. destruct (decide (r = length h)); [by left|].
    right. eapply root_of_top; eauto.
  - rewrite lookup_snoc in Hr. destruct (decide (r = length h)) as [->|Hne].
    { inversion Hr; subst c. congruence. }
    right. destruct IH as [[-> ->]|IH].
    + destruct (I1 r c (length h) Hr Hp) as (pc & Hpc & _).
      apply lookup_lt_Some in Hpc. lia.
    + eapply root_of_up; eauto.
Qed.

Lemma id_of_snoc_old x :
  x <> length h -> id_of (h ++ [o]) x = id_of h x.
Proof. intros Hne. unfold id_of. rewrite lookup_snoc. by rewrite decide_False. Qed.

Lemma forest_snoc : forest h -> forest (h ++ [o]).
Proof.
  intros Hf. pose proof Hf as (I1 & I2 & I3 & I4).
  split; [|split; [|split]].
  - intros x cx p Hx Hp. rewrite lookup_snoc in Hx.
    destruct (decide (x = length h)).
    + inversion Hx; subst cx. congruence.
    + apply edge_snoc. eauto.
  - intros p x He. apply edge_snoc in He.
    destruct (I2 p x He) as (cx & Hx & Hp).
    exists cx. split; [by apply lookup_snoc_old|done].
  - intros x [c Hx]. rewrite lookup_snoc in Hx.
    destruct (decide (x = length h)) as [->|].
    + exists (length h). apply root_of_snoc_new.
    + destruct (I3 x) as [R HR]; [eauto|]. exists R.
      by apply root_of_snoc_old.
  - intros R x y i Hx Hy Hix Hiy.
    destruct (root_of_snoc_inv x R Hf Hx) as [[-> ->]|Hx'];
      destruct (root_of_snoc_inv y _ Hf Hy) as [[-> Hy1]|Hy']; try done.
    + destruct (root_of_valid _ _ _ Hy'). lia.
    + destruct (root_of_valid _ _ _ Hx'). lia.
    + destruct (root_of_valid _ _ _ Hx'). destruct (root_of_valid _ _ _ Hy').
      rewrite id_of_snoc_old in Hix, Hiy by lia. eauto.
Qed.
End Constructor.

(** *** An insertion of a detached component keeps the forest *)

Section Insertion.
Variables (h : heap) (p c R : ref) (pc cc : Component).
Hypothesis Hp : h !! p = Some pc.
Hypothesis Hc : h !! c = Some cc.
Hypothesis Hdetached : _parent cc = None.
Hypothesis Hroot : root_of h p R.
Hypothesis Hother : R <> c.
Hypothesis Hforest : forest h.

Lemma parent_not_child : p <> c.
Proof.
  intros Heq. subst p. apply Hother.
  eapply root_of_fun; [exact Hroot|]. eapply root_of_top; eauto.
Qed.

Lemma lookup_inserted x :
  (inserted h p c) !! x =
    if decide (x = c) then Some (set_parent (Some p) cc)
    else if decide (x = p) then
           Some (set_children (_children pc ++ [c]) pc)
         else h !! x.
Proof.
  pose proof parent_not_child as Hne. unfold inserted.
  destruct (decide (x = c)) as [->|Hxc].
  - rewrite list_lookup_alter_eq, list_lookup_alter_ne by done.
    by rewrite Hc.
  - rewrite list_lookup_alter_ne by done.
    destruct (decide (x = p)) as [->|Hxp].
    + by rewrite list_lookup_alter_eq, Hp.
    + by rewrite list_lookup_alter_ne.
Qed.

Lemma inserted_lookup_inv x cx' :
  (inserted h p c) !! x = Some cx' ->
  exists cx, h !! x = Some cx /\ id cx' = id cx /\
    _parent cx' = (if decide (x = c) then Some p else _parent cx) /\
    _children cx' =
      (if decide (x = p) then _children cx ++ [c] else _children cx).
Proof.
  pose proof parent_not_child as Hne. rewrite lookup_inserted.
  destruct (decide (x = c)) as [->|Hxc].
  - intros [= <-]. exists cc. rewrite decide_False by done. auto.
  - destruct (decide (x = p)) as [->|Hxp].
    + intros [= <-]. exists pc. auto.
    + intros Hx. exists cx'. auto.
Qed.

Lemma inserted_lookup x cx :
  h !! x = Some cx ->
  exists cx', (inserted h p c) !! x = Some cx' /\ id cx' = id cx /\
    _parent cx' = (if decide (x = c) then Some p else _parent cx) /\
    _children cx' =
      (if decide (x = p) then _children cx ++ [c] else _children cx).
Proof.
  pose proof parent_not_child as Hne. intros Hx. rewrite lookup_inserted.
  destruct (decide (x = c)) as [->|Hxc].
  - rewrite Hc in Hx. inversion Hx; subst cx.
    eexists. split; [done|]. rewrite decide_False by done. auto.
  - destruct (decide (x = p)) as [->|Hxp].
    + rewrite Hp in Hx. inversion Hx; subst cx. eexists. split; [done|]. auto.
    + exists cx. auto.
Qed.

Lemma edge_inserted a b :
  edge (inserted h p c) a b <-> edge h a b \/ (a = p /\ b = c).
Proof.
  split.
  - intros (ac' & Ha' & Hb).
    destruct (inserted_lookup_inv _ _ Ha') as (ac & Ha & _ & _ & Hch).
    rewrite Hch in Hb. destruct (decide (a = p)) as [->|Hne].
    + apply elem_of_app in Hb as [Hb|Hb].
      * left. exists ac. auto.
      * apply list_elem_of_singleton in Hb. auto.
    + left. exists ac. auto.
  - intros [(ac & Ha & Hb)|[-> ->]].
    + destruct (inserted_lookup _ _ Ha) as (ac' & Ha' & _ & _ & Hch).
      exists ac'. split; [done|]. rewrite Hch.
      destruct (decide (a = p)); [|done]. apply elem_of_app. by left.
    + destruct (inserted_lookup _ _ Hp) as (pc' & Hp' & _ & _ & Hch).
      exists pc'. split; [done|]. rewrite Hch, decide_True by done.
      apply elem_of_app. right. by apply list_elem_of_singleton.
Qed.

Lemma id_of_inserted x : id_of (inserted h p c) x = id_of h x.
Proof.
  unfold id_of. destruct (h !! x) as [cx|] eqn:Hx.
  - destruct (inserted_lookup _ _ Hx) as (cx' & -> & Hid & _). done.
  - destruct ((inserted h p c) !! x) as [cx'|] eqn:Hx'; [|done].
    destruct (inserted_lookup_inv _ _ Hx') as (cx & Hx0 & _). congruence.
Qed.

(** Trees other than the one of [c] keep their root. *)
Lemma root_of_kept x Rx :
  root_of h x Rx -> Rx <> c -> root_of (inserted h p c) x Rx.
Proof.
  induction 1 as [r c0 Hr Hpar|r c0 q Rx Hr Hpar _ IH]; intros Hne.
  - destruct (inserted_lookup _ _ Hr) as (c0' & Hr' & _ & Hpar' & _).
    eapply root_of_top; [exact Hr'|].
    rewrite Hpar', decide_False by done. done.
  - destruct (inserted_lookup _ _ Hr) as (c0' & Hr' & _ & Hpar' & _).
    assert (Hrc : r <> c) by (intros ->; congruence).
    eapply root_of_up; [exact Hr'| |by apply IH].
    rewrite Hpar', decide_False by done. done.
Qed.

(** The tree of [c] hangs below the root of [p]. *)
Lemma root_of_moved_gen x Rc :
  root_of h x Rc -> Rc = c -> root_of (inserted h p c) x R.
Proof.
  induction 1 as [r c0 Hr Hpar|r c0 q Rx Hr Hpar _ IH]; intros Heq.
  - subst r.
    destruct (inserted_lookup _ _ Hr) as (c0' & Hr' & _ & Hpar' & _).
    eapply root_of_up; [exact Hr'| |by apply root_of_kept].
    rewrite Hpar', decide_True by done. done.
  - destruct (inserted_lookup _ _ Hr) as (c0' & Hr' & _ & Hpar' & _).
    assert (Hrc : r <> c) by (intros ->; congruence).
    eapply root_of_up; [exact Hr'| |by apply IH].
    rewrite Hpar', decide_False by done. done.
Qed.

Lemma root_of_moved x : root_of h x c -> root_of (inserted h p c) x R.
Proof. intros Hx. by eapply root_of_moved_gen. Qed.

Lemma root_of_inserted x R' :
  root_of (inserted h p c) x R' ->
  exists Rx, root_of h x Rx /\ R' = (if decide (Rx = c) then R else Rx).
Proof.
  intros Hx'. destruct Hforest as (_ & _ & I3 & _).
  assert (Hv : is_Some (h !! x)).
  { inversion Hx' as [? cx' Hl|? cx' ? ? Hl]; subst;
      destruct (inserted_lookup_inv _ _ Hl) as (cx & ? & _); eauto. }
  destruct (I3 x Hv) as [Rx HRx]. exists Rx. split; [done|].
  destruct (decide (Rx = c)) as [->|Hne].
  - eapply root_of_fun; [exact Hx'|]. by apply root_of_moved.
  - eapply root_of_fun; [exact Hx'|]. by apply root_of_kept.
Qed.
End Insertion.

Section InsertionForest.
Variables (h : heap) (p c R : ref) (pc cc : Component).
Hypothesis Hp : h !! p = Some pc.
Hypothesis Hc : h !! c = Some cc.
Hypothesis Hdetached : _parent cc = None.
Hypothesis Hroot : root_of h p R.
Hypothesis Hother : R <> c.
Hypothesis Hforest : forest h.
Hypothesis Hfresh : forall x y i,
  reach h R x -> reach h c y ->
  id_of h x = Some i -> id_of h y = Some i -> False.

Lemma forest_inserted : forest (inserted h p c).
Proof.
  pose proof Hforest as (I1 & I2 & I3 & I4).
  pose proof (parent_not_child h p c R pc cc Hp Hc Hdetached Hroot Hother)
    as Hne.
  pose proof (inserted_lookup h p c R pc cc Hp Hc Hdetached Hroot Hother)
    as Hfw.
  pose proof (inserted_lookup_inv h p c R pc cc Hp Hc Hdetached Hroot Hother)
    as Hbw.
  pose proof (edge_inserted h p c R pc cc Hp Hc Hdetached Hroot Hother)
    as Hedge.
  split; [|split; [|split]].
  - intros x cx' q Hx' Hq.
    destruct (Hbw _ _ Hx') as (cx & Hx & _ & Hpar & _).
    rewrite Hpar in Hq. apply Hedge.
    destruct (decide (x = c)) as [->|Hxc].
    + inversion Hq; subst q. by right.
    + left. eauto.
  - intros a b He. apply Hedge in He as [He|[-> ->]].
    + destruct (I2 a b He) as (cb & Hb & Hpb).
      destruct (Hfw _ _ Hb) as (cb' & Hb' & _ & Hpar & _).
      exists cb'. split; [done|]. rewrite Hpar.
      rewrite decide_False; [done|]. intros ->. congruence.
    + destruct (Hfw _ _ Hc) as (cc' & Hc' & _ & Hpar & _).
      exists cc'. split; [done|]. by rewrite Hpar, decide_True.
  - intros x [cx' Hx'].
    destruct (Hbw _ _ Hx') as (cx & Hx & _).
    destruct (I3 x) as [Rx HRx]; [eauto|].
    destruct (decide (Rx = c)) as [->|HRc].
    + exists R. by eapply root_of_moved.
    + exists Rx. by eapply root_of_kept.
  - intros R' x y i Hx' Hy' Hix Hiy.
    rewrite (id_of_inserted h p c R pc cc) in Hix, Hiy by done.
    destruct (root_of_inserted h p c R pc cc Hp Hc Hdetached Hroot Hother
                Hforest x R' Hx') as (Rx & HRx & Hx1).
    destruct (root_of_inserted h p c R pc cc Hp Hc Hdetached Hroot Hother
                Hforest y R' Hy') as (Ry & HRy & Hy1).
    destruct (decide (Rx = c)) as [->|Hxc];
      destruct (decide (Ry = c)) as [->|Hyc].
    + eapply I4; eauto.
    + exfalso. subst R'. subst Ry.
      eapply (Hfresh y x i); eauto using root_reach.
    + exfalso. subst R'. subst Rx.
      eapply (Hfresh x y i); eauto using root_reach.
    + subst R'. subst Ry. eapply I4; eauto.
Qed.
End InsertionForest.

Lemma forest_empty : forest [].
Proof.
  split; [|split; [|split]].
  - intros x cx p Hx. by rewrite lookup_nil in Hx.
  - intros p x (pc & Hp & _). by rewrite lookup_nil in Hp.
  - intros x [cx Hx]. by rewrite lookup_nil in Hx.
  - intros R x y i Hx. destruct (root_of_valid _ _ _ Hx). simpl in *. lia.
Qed.

Lemma forest_add_child h fuel p c h' t :
  forest h -> detached h p c ->
  add_child fuel p c h = Some (Returned, h', t) -> forest h'.
Proof.
  intros Hf [(cc & Hc & Hpar) Hnr] Hadd.
  destruct (h !! p) as [pc|] eqn:Hp.
  2:{ unfold add_child in Hadd. by rewrite Hp in Hadd. }
  destruct (decide (c ∈ _children pc)) as [Hin|Hnin].
  { rewrite (add_child_again fuel p c h pc cc Hp Hc Hin)
      in Hadd. by inversion Hadd; subst. }
  pose proof Hf as (_ & _ & I3 & _).
  destruct (I3 p) as [R HR]; [eauto|].
  assert (HRc : R <> c) by (intros ->; done).
  assert (Hf2 : forest (inserted h p c)).
  { eapply (forest_inserted h p c R pc cc); eauto.
    intros x y i Hx Hy Hix Hiy.
    eapply (add_child_no_collision fuel p c h pc cc h' t R x y i); eauto. }
  destruct (add_child_Returned_inv _ _ _ _ _ _ _ _ Hp Hc Hnin Hadd)
    as (_ & _ & _ & Hres).
  simpl in Hres. fold (inserted h p c) in Hres.
  destruct (_is_mounted pc).
  - eapply forest_same; [|exact Hf2].
    eapply mount_same_on; [|exact Hres]. reflexivity.
  - destruct Hres as [-> _]. exact Hf2.
Qed.

Lemma built_forest h : built h -> forest h.
Proof.
  induction 1 as [|h k i n _ IH|h fuel p c h' t _ IH Hd Hadd
                  |h fuel r h' t _ IH Hm|h fuel r h' t _ IH Hm].
  - apply forest_empty.
  - simpl. by apply forest_snoc.
  - by eapply forest_add_child.
  - eapply forest_same; [|exact IH].
    eapply mount_same_on; [|exact Hm]. reflexivity.
  - eapply forest_same; [|exact IH].
    eapply unmount_same_on; [|exact Hm]. reflexivity.
Qed.

Lemma root_of_parentless h x cx R :
  h !! x = Some cx -> _parent cx = None -> root_of h x R -> R = x.
Proof.
  intros Hx Hp Hr. eapply root_of_fun; [exact Hr|]. by eapply root_of_top.
Qed.

(** *** On a forest, [add_child] returns *)

(** More fuel does not change an answer. *)
Lemma root_mono f : forall f' h x R,
  root f h x = Some R -> f <= f' -> root f' h x = Some R.
Proof.
  induction f as [|f IH]; intros f' h x R; simpl; [discriminate|].
  destruct f' as [|f']; [lia|]. simpl. intros Hroot Hle.
  destruct (h !! x) as [c|]; [|discriminate].
  destruct (_parent c); [|done]. apply IH; [done|lia].
Qed.

Lemma first_found_mono (g g' : ref -> option (option ref)) xs r :
  (forall x r0, g x = Some r0 -> g' x = Some r0) ->
  first_found g xs = Some r -> first_found g' xs = Some r.
Proof.
  intros Hg. induction xs as [|a xs IH]; simpl; [done|].
  destruct (g a) as [[y|]|] eqn:Ha; [| |discriminate];
    rewrite (Hg _ _ Ha); auto.
Qed.

Lemma find_by_id_mono f : forall f' h x i r,
  find_by_id f h x i = Some r -> f <= f' -> find_by_id f' h x i = Some r.
Proof.
  induction f as [|f IH]; intros f' h x i r; simpl; [discriminate|].
  destruct f' as [|f']; [lia|]. simpl. intros Hfind Hle.
  destruct (h !! x) as [c|]; [|discriminate].
  destruct (decide (id c = Some i)); [done|].
  eapply first_found_mono; [|exact Hfind].
  intros y r0 Hy. apply IH; [done|lia].
Qed.

Lemma collect_mono (g g' : ref -> option (list ref)) xs r :
  (forall x r0, g x = Some r0 -> g' x = Some r0) ->
  collect g xs = Some r -> collect g' xs = Some r.
Proof.
  intros Hg. revert r. induction xs as [|a xs IH]; simpl; intros r; [done|].
  destruct (g a) as [da|] eqn:Ha; [|discriminate]. rewrite (Hg _ _ Ha).
  destruct (collect g xs) as [rest|]; [|discriminate].
  by rewrite (IH _ eq_refl).
Qed.

Lemma descendants_mono f : forall f' h x r,
  _get_all_descendants f h x = Some r -> f <= f' ->
  _get_all_descendants f' h x = Some r.
Proof.
  induction f as [|f IH]; intros f' h x r; simpl; [discriminate|].
  destruct f' as [|f']; [lia|]. simpl. intros Hd Hle.
  destruct (h !! x) as [c|]; [|discriminate].
  eapply collect_mono; [|exact Hd].
  intros y r0 Hy. apply IH; [done|lia].
Qed.

Lemma id_taken_mono f f' h p i b :
  id_taken f h p i = Some b -> f <= f' -> id_taken f' h p i = Some b.
Proof.
  destruct i as [s|]; simpl; [|done]. unfold exists_in_tree.
  destruct (root f h p) as [R|] eqn:Hr; [|discriminate].
  destruct (find_by_id f h R s) as [r|] eqn:Hf; [|discriminate].
  intros Hb Hle.
  by rewrite (root_mono _ _ _ _ _ Hr Hle), (find_by_id_mono _ _ _ _ _ _ Hf Hle).
Qed.

Lemma first_duplicate_mono f f' h p ds r :
  first_duplicate f h p ds = Some r -> f <= f' ->
  first_duplicate f' h p ds = Some r.
Proof.
  intros Hfd Hle. revert Hfd. induction ds as [|d ds IH]; simpl; [done|].
  destruct (h !! d) as [dc|]; [|discriminate].
  destruct (id_taken f h p (id dc)) as [b|] eqn:Hb; [|discriminate].
  rewrite (id_taken_mono _ _ _ _ _ _ Hb Hle). destruct b; auto.
Qed.

Lemma depth_of_stable f : forall h x R,
  root f h x = Some R ->
  depth_of f h x < f /\
  forall f', f <= f' -> depth_of f' h x = depth_of f h x.
Proof.
  induction f as [|f IH]; intros h x R; simpl; [discriminate|].
  destruct (h !! x) as [c|] eqn:Hx; [|discriminate].
  destruct (_parent c) as [p|] eqn:Hp.
  - intros Hr. destruct (IH _ _ _ Hr) as [Hlt Hst]. split; [lia|].
    intros [|f'] Hle; [lia|]. simpl. rewrite Hx, Hp.
    f_equal. apply Hst. lia.
  - intros _. split; [lia|]. intros [|f'] Hle; [lia|]. simpl.
    by rewrite Hx, Hp.
Qed.

Lemma forest_bound h :
  forest h -> exists N, forall x, is_Some (h !! x) -> is_Some (root N h x).
Proof.
  intros (_ & _ & I3 & _).
  assert (Hk : forall k, exists N, forall x,
            x < k -> is_Some (h !! x) -> is_Some (root N h x)).
  { induction k as [|k [N IH]]; [exists 0; intros; lia|].
    destruct (h !! k) as [ck|] eqn:Hck.
    - destruct (I3 k) as [R HR]; [eauto|].
      destruct (root_complete _ _ _ HR) as [f0 Hf0].
      exists (N `max` f0). intros x Hlt Hv.
      destruct (decide (x = k)) as [->|Hne].
      + rewrite Hf0; [eauto|lia].
      + destruct (IH x) as [Rx HRx]; [lia|done|].
        rewrite (root_mono _ (N `max` f0) _ _ _ HRx); [eauto|lia].
    - exists N. intros x Hlt Hv. destruct (decide (x = k)) as [->|Hne].
      + rewrite Hck in Hv. by destruct Hv.
      + apply IH; [lia|done]. }
  destruct (Hk (length h)) as [N HN]. exists N. intros x Hv.
  apply HN; [|done]. by apply lookup_lt_is_Some.
Qed.

(** A forest is acyclic in both directions, with explicit bounds. *)
Lemma forest_ranked h :
  forest h ->
  exists rank depth N,
    ranked h rank /\ parents_ranked h depth /\
    forall fuel, N <= fuel -> enough h rank depth fuel.
Proof.
  intros Hf. pose proof Hf as (I1 & I2 & I3 & I4).
  destruct (forest_bound h Hf) as [N HN].
  assert (Hstep : forall x cx p, h !! x = Some cx -> _parent cx = Some p ->
            is_Some (h !! p) /\
            depth_of N h x = S (depth_of N h p) /\ depth_of N h x < N).
  { intros x cx p Hx Hp.
    destruct (I1 x cx p Hx Hp) as (pc & Hpc & _).
    destruct (HN x) as [R HR]; [eauto|].
    destruct (depth_of_stable _ _ _ _ HR) as [Hlt _].
    split; [eauto|]. split; [|done].
    destruct N as [|f]; [discriminate|]. simpl in HR. rewrite Hx, Hp in HR.
    destruct (depth_of_stable _ _ _ _ HR) as [_ Hst].
    simpl depth_of at 1. rewrite Hx, Hp. f_equal. symmetry. apply Hst. lia. }
  exists (fun x => N - depth_of N h x), (depth_of N h), (S N).
  split; [|split].
  - intros x cx y Hx Hy.
    destruct (I2 x y) as (cy & Hcy & Hpy); [exists cx; auto|].
    destruct (Hstep y cy x Hcy Hpy) as (_ & Heq & Hlt).
    split; [eauto|]. lia.
  - intros x cx p Hx Hp. destruct (Hstep x cx p Hx Hp) as (Hv & Heq & _).
    split; [done|]. lia.
  - intros fuel Hle x Hv. destruct (HN x Hv) as [R HR].
    destruct (depth_of_stable _ _ _ _ HR) as [Hlt _]. lia.
Qed.

Lemma checks_fresh fuel h p c cc ds R :
  h !! c = Some cc ->
  id_taken fuel h p (id cc) = Some false ->
  _get_all_descendants fuel h c = Some ds ->
  first_duplicate fuel h p ds = Some None ->
  root_of h p R ->
  forall x y i, reach h R x -> reach h c y ->
    id_of h x = Some i -> id_of h y = Some i -> False.
Proof.
  intros Hc Hself Hds Hfd Hroot x y i Hx Hy Hix Hiy.
  assert (Htaken : id_taken fuel h p (Some i) = Some false).
  { apply rtc_tc in Hy as [<-|Hb].
    - unfold id_of in Hiy. rewrite Hc in Hiy. by rewrite <- Hiy.
    - rewrite <- Hiy. eapply first_duplicate_None; [exact Hfd|].
      eapply descendants_complete; eauto. }
  apply id_taken_false in Htaken as (R' & Hroot' & Hnone).
  rewrite (root_of_fun _ _ _ _ Hroot' Hroot) in Hnone.
  by apply (Hnone x Hx).
Qed.

(** On a forest, attaching a detached component returns, given enough
    fuel: every search ends, and so does the mounting of the attached
    subtree. *)
Lemma add_child_terminates h p c :
  forest h -> detached h p c -> is_Some (h !! p) ->
  exists fuel0, forall fuel, fuel0 <= fuel -> is_Some (add_child fuel p c h).
Proof.
  intros Hf [(cc & Hc & Hpar) Hnr] [pc Hp].
  destruct (forest_ranked h Hf) as (rank & depth & N & Hrk & Hprk & Hen).
  pose proof Hf as (_ & _ & I3 & _).
  destruct (I3 p) as [R HR]; [eauto|].
  assert (HRc : R <> c) by (intros ->; done).
  destruct (decide (c ∈ _children pc)) as [Hin|Hnin].
  { exists 0. intros fuel _. rewrite (add_child_again fuel p c h pc cc); eauto. }
  destruct (name_clash h (name cc) (_children pc)) eqn:Hname.
  { exists 0. intros fuel _. unfold add_child. rewrite Hp, Hc.
    rewrite bool_decide_eq_false_2 by done. rewrite Hname. eauto. }
  destruct (id_taken_terminates h rank depth N p (id cc)) as [bs Hself];
    eauto.
  destruct (descendants_terminates h rank Hrk N c) as [ds Hds]; [eauto| |].
  { apply (Hen N); eauto. }
  destruct (first_duplicate_terminates h rank depth N p ds) as [fd Hfd];
    eauto.
  { intros d Hd. eapply below_valid; [exact Hrk|].
    eapply descendants_sound; eauto. }
  assert (Hchecks : forall fuel, N <= fuel ->
            add_child fuel p c h =
              if bs then Some (Raised (DuplicateId (default "" (id cc))), h, [])
              else match fd with
                   | Some d =>
                       Some (Raised (DuplicateId (default "" (id_of h d))),
                             h, [])
                   | None =>
                       if _is_mounted pc then
                         match mount fuel c (inserted h p c) with
                         | None => None
                         | Some (h3, t) => Some (Returned, h3, t)
                         end
                       else Some (Returned, inserted h p c, [])
                   end).
  { intros fuel Hle. unfold add_child. rewrite Hp, Hc.
    rewrite bool_decide_eq_false_2 by done. rewrite Hname.
    rewrite (id_taken_mono _ _ _ _ _ _ Hself Hle). destruct bs; [done|].
    rewrite (descendants_mono _ _ _ _ _ Hds Hle).
    rewrite (first_duplicate_mono _ _ _ _ _ _ Hfd Hle).
    by destruct fd. }
  destruct bs.
  { exists N. intros fuel Hle. rewrite Hchecks by done. eauto. }
  destruct fd as [d|].
  { exists N. intros fuel Hle. rewrite Hchecks by done. eauto. }
  assert (Hf2 : forest (inserted h p c)).
  { eapply (forest_inserted h p c R pc cc); eauto.
    eapply checks_fresh; eauto. }
  destruct (forest_ranked _ Hf2) as (rank2 & _ & _ & Hrk2 & _ & _).
  exists (N `max` S (rank2 c)). intros fuel Hle.
  rewrite Hchecks by lia. destruct (_is_mounted pc); [|eauto].
  destruct (mount_terminates rank2 fuel c (inserted h p c))
    as (h3 & t & -> & _); eauto; [|lia].
  destruct (inserted_lookup h p c R pc cc Hp Hc Hpar HR HRc c cc Hc)
    as (cc' & Hcc' & _). eauto.
Qed.

(** C1, amended: in every store built from constructor calls and from
    [add_child] calls that attach a component which has no parent and is
    not the root of the tree it is attached to, no two components below
    one root share an id; on such a store an accepted insertion of a
    detached component keeps that, a rejected one leaves the store
    exactly as it was, and with enough fuel the call returns. *)
Theorem C1_unique_ids_of_detached_insertions (h : heap) :
  built h ->
  unique_ids h /\
  (forall fuel p c o h' t,
     detached h p c -> add_child fuel p c h = Some (o, h', t) ->
     match o with
     | Returned => unique_ids h'
     | Raised _ => h' = h /\ t = []
     end) /\
  (forall p c,
     detached h p c -> is_Some (h !! p) ->
     exists fuel0, forall fuel, fuel0 <= fuel ->
       is_Some (add_child fuel p c h)).
Proof.
  intros Hb. split; [|split].
  - by apply forest_unique_ids, built_forest.
  - intros fuel p c [|e] h' t Hd Hadd.
    + apply forest_unique_ids. eapply forest_add_child; eauto.
      by apply built_forest.
    + by eapply add_child_Raised_inv.
  - intros p c Hd Hv. apply add_child_terminates; [|done|done].
    by apply built_forest.
Qed.

Lemma small_tree_built : built small_tree.
Proof.
  refine (built_add
            [ new_object KComponent [] (Some "x") None;
              new_object KComponent [] (Some "y") None;
              new_object KComponent [] (Some "x") None;
              new_object KComponent [] (Some "z") None ]
            3 0 1 small_tree [] _ _ _).
  - exact (built_new _ KComponent (Some "z") None
             (built_new _ KComponent (Some "x") None
                (built_new _ KComponent (Some "y") None
                   (built_new _ KComponent (Some "x") None built_empty)))).
  - split; [eexists; split; reflexivity|].
    intros Hr.
    assert (H0 : 1 = 0); [|discriminate].
    eapply root_of_parentless; [| |exact Hr]; reflexivity.
  - vm_compute. reflexivity.
Defined.

Lemma small_tree_detached x : x = 2 \/ x = 3 -> detached small_tree 1 x.
Proof.
  intros Hx. split.
  - destruct Hx as [-> | ->]; eexists; split; reflexivity.
  - intros Hr.
    assert (H0 : root_of small_tree 1 0).
    { eapply root_of_up; [reflexivity|reflexivity|].
      eapply root_of_top; reflexivity. }
    pose proof (root_of_fun _ _ _ _ Hr H0) as Heq.
    destruct Hx; subst; discriminate.
Defined.

Lemma C1_unique_ids_of_detached_insertions_witness :
  unique_ids small_tree /\
  (exists h', add_child 3 1 3 small_tree = Some (Returned, h', []) /\
              unique_ids h') /\
  add_child 3 1 2 small_tree = Some (Raised (DuplicateId "x"), small_tree, []).
Proof.
  pose proof (C1_unique_ids_of_detached_insertions small_tree
                small_tree_built) as (Hu & Hstep & _).
  split; [exact Hu|]. split.
  - eexists. split; [vm_compute; reflexivity|].
    exact (Hstep 3 1 3 Returned _ [] (small_tree_detached 3 (or_intror eq_refl))
             eq_refl).
  - vm_compute. reflexivity.
Defined.


(* ================================================================== *)
(** * Part IV: further properties of the code *)
(* ================================================================== *)

(** ** The observable state, continued *)

Section StateStore.
Import State.

Lemma set_get (s : t) (key : string) (v : value) :
  get (set key v s).1 key = v /\
  forall k d, k <> key ->
    get_default (set key v s).1 k d = get_default s k d /\
    get_previous (set key v s).1 k d = get_previous s k d.
Proof.
  unfold set. destruct (bool_decide (get s key <> v)) eqn:Hd; simpl.
  - split.
    + unfold get, get_default. simpl. by rewrite lookup_insert_eq.
    + intros k d Hne. unfold get_default, get_previous. simpl.
      by rewrite !lookup_insert_ne.
  - split; [|done]. apply bool_decide_eq_false in Hd.
    destruct (decide (get s key = v)); [done|]. by exfalso; apply Hd.
Qed.

(** X1: [get] after [set] reads the value that was set, whether or not the
    call changed anything, and no other key is affected, in the current
    values or in the previous ones. *)
Theorem state_set_then_get (s : t) (key : string) (v : value) :
  get (set key v s).1 key = v /\
  forall k d, k <> key ->
    get_default (set key v s).1 k d = get_default s k d /\
    get_previous (set key v s).1 k d = get_previous s k d.
Proof. apply set_get. Qed.

(** X2: A [set] that changes the value records the value it replaced, which
    is [None] for a key that was not set (the default of [get_previous]
    is not used then); a [set] of the current value records nothing. *)
Theorem state_previous_tracks_changes (s : t) (key : string) (v d : value) :
  (get s key <> v -> get_previous (set key v s).1 key d = get s key) /\
  (get s key = v -> get_previous (set key v s).1 key d = get_previous s key d).
Proof.
  unfold set. split; intros Hv.
  - rewrite bool_decide_eq_true_2 by done. unfold get_previous. simpl.
    by rewrite lookup_insert_eq.
  - rewrite bool_decide_eq_false_2; [done|]. intros Hne. by apply Hne.
Qed.

Lemma state_previous_tracks_changes_witness :
  get_previous (set "a" (VInt 2) C7_state0).1 "a" (VInt 9) = VInt 1 /\
  get_previous (set "b" (VInt 2) C7_state0).1 "b" (VInt 9) = VNone /\
  get_previous (set "a" (VInt 1) C7_state0).1 "a" (VInt 9) = VInt 9.
Proof.
  split; [|split].
  - apply (proj1 (state_previous_tracks_changes C7_state0 "a" (VInt 2) _)).
    vm_compute. discriminate.
  - apply (proj1 (state_previous_tracks_changes C7_state0 "b" (VInt 2) _)).
    vm_compute. discriminate.
  - apply (proj2 (state_previous_tracks_changes C7_state0 "a" (VInt 1) _)).
    vm_compute. reflexivity.
Defined.

(** X3: Setting the same value twice: the second call changes nothing and
    emits nothing. *)
Theorem state_set_twice (s : t) (key : string) (v : value) :
  set key v (set key v s).1 = ((set key v s).1, []).
Proof.
  destruct (set_get s key v) as [Hg _].
  unfold set at 1. rewrite Hg.
  rewrite bool_decide_eq_false_2; [done|]. intros Hne. by apply Hne.
Qed.

Lemma update_loop_state items : forall s acc,
  (update_loop items s acc).1 =
    foldl (fun s0 kv => (set kv.1 kv.2 s0).1) s items.
Proof.
  induction items as [|[k v] items IH]; intros s acc; simpl; [done|].
  unfold set at 2.
  destruct (bool_decide (get s k <> v)); simpl; apply IH.
Qed.

Lemma foldl_set_get_other items : forall s k,
  k ∉ map fst items ->
  get (foldl (fun s0 kv => (set kv.1 kv.2 s0).1) s items) k = get s k.
Proof.
  induction items as [|[k' v'] items IH]; intros s k Hk; simpl; [done|].
  simpl in Hk. apply not_elem_of_cons in Hk as [Hne Hk].
  rewrite IH by done.
  destruct (set_get s k' v') as [_ Ho].
  by destruct (Ho k VNone Hne).
Qed.

(** X4: [update] leaves the state that setting the items one by one, in
    order, leaves; an item of a dict is read back by [get], and a key
    that is not in the dict keeps its value. *)
Theorem state_update_is_sets (s : t) (updates : list (string * value)) :
  (update updates s).1 =
    foldl (fun s0 kv => (set kv.1 kv.2 s0).1) s updates /\
  (forall k, k ∉ map fst updates -> get (update updates s).1 k = get s k) /\
  (NoDup (map fst updates) ->
   forall k v, (k, v) ∈ updates -> get (update updates s).1 k = v).
Proof.
  assert (Hst : (update updates s).1 =
            foldl (fun s0 kv => (set kv.1 kv.2 s0).1) s updates).
  { unfold update. rewrite <- (update_loop_state updates s []).
    destruct (update_loop updates s []) as [s' [|c cs]]; reflexivity. }
  split; [exact Hst|]. rewrite Hst. split.
  - intros k Hk. by apply foldl_set_get_other.
  - clear Hst. revert s.
    induction updates as [|[k' v'] items IH]; intros s Hnd k v Hin.
    + by apply elem_of_nil in Hin.
    + simpl in Hnd. apply NoDup_cons in Hnd as [Hk' Hnd]. simpl.
      apply elem_of_cons in Hin as [Heq|Hin].
      * inversion Heq; subst k' v'.
        rewrite foldl_set_get_other by done.
        by destruct (set_get s k v).
      * by apply IH.
Qed.

Lemma state_update_is_sets_witness :
  get (update [("a", VInt 7); ("b", VStr "x")] C7_state0).1 "b" = VStr "x" /\
  get (update [("b", VStr "x")] C7_state0).1 "a" = VInt 1.
Proof.
  split.
  - apply (proj2 (proj2 (state_update_is_sets C7_state0
             [("a", VInt 7); ("b", VStr "x")]))).
    + apply (bool_decide_unpack (NoDup ["a"; "b"])). vm_compute. exact I.
    + apply list_elem_of_further, list_elem_of_here.
  - rewrite (proj1 (proj2 (state_update_is_sets C7_state0
               [("b", VStr "x")])) "a"); [reflexivity|].
    apply (bool_decide_unpack ("a" ∉ ["b"])). vm_compute. exact I.
Defined.
End StateStore.

Lemma state_set_then_get_witness :
  State.get (State.set "b" (VInt 2) C7_state0).1 "b" = VInt 2 /\
  State.get_default (State.set "b" (VInt 2) C7_state0).1 "a" VNone = VInt 1.
Proof.
  destruct (state_set_then_get C7_state0 "b" (VInt 2)) as [Hg Ho].
  split; [exact Hg|].
  rewrite (proj1 (Ho "a" VNone ltac:(discriminate))). reflexivity.
Defined.

(** ** The registry and the bus, continued *)

Section RegistryStore.
Import StateManager.

Lemma _states_setattr o m :
  _states (setattr "_states" (AStates m) o) = m.
Proof. unfold _states, setattr. simpl. by rewrite lookup_insert_eq. Qed.

(** X5: On an initialised registry: a name that is not there is created
    with the given initial values and is then served by [get_state]; the
    other names are unaffected; creating it again raises. *)
Theorem registry_create_then_get
    (o : object) (states : gmap string State.t) (n : string)
    (initial_state : gmap string value) :
  attrs o !! "_states" = Some (AStates states) -> states !! n = None ->
  (create_state n initial_state o).2 = Ok (State.init initial_state) /\
  get_state n (create_state n initial_state o).1 =
    Ok (State.init initial_state) /\
  (forall m, m <> n ->
     get_state m (create_state n initial_state o).1 = get_state m o) /\
  (forall i2, (create_state n i2 (create_state n initial_state o).1).2
              = ValueError).
Proof.
  intros Hattr Hstates.
  assert (Hn : _states o !! n = None).
  { unfold _states. by rewrite Hattr. }
  unfold create_state at 1 2 3.
  rewrite bool_decide_eq_false_2 by (rewrite Hn; intros [? ?]; discriminate).
  simpl. split; [done|]. split; [|split].
  - unfold get_state. by rewrite _states_setattr, lookup_insert_eq.
  - intros m Hne. unfold get_state.
    by rewrite _states_setattr, lookup_insert_ne.
  - intros i2. apply create_state_twice.
Qed.

Lemma registry_create_then_get_witness :
  get_state "a"
    (create_state "a" {[ "k" := VInt 1 ]}
       (mkObject 0 {[ "_states" := AStates ∅ ]})).1 =
  Ok (State.init {[ "k" := VInt 1 ]}).
Proof.
  refine (proj1 (proj2 (registry_create_then_get
            (mkObject 0 {[ "_states" := AStates ∅ ]}) ∅ "a"
            {[ "k" := VInt 1 ]} _ _))); reflexivity.
Defined.
End RegistryStore.

Section Bus.
Import Blinker EventBus.

Lemma acquire_flagged pr :
  exists o, _instance (acquire pr).1 = Some o /\
    _initialized o = Some true /\ oid o = (acquire pr).2.
Proof.
  unfold acquire, __new__. destruct (_instance pr) as [o|]; simpl.
  - unfold __init__. destruct (_initialized o) as [[]|] eqn:Hi; simpl; eauto.
  - eauto.
Qed.

(** X6: The bus is initialised once: after a first acquisition, whatever
    emitter method is called through the bus, acquiring the bus again
    hands out the same object and leaves it, and so its handlers, as they
    are. *)
Theorem eventbus_reacquire_keeps_state
    (pr : process) (ns : namespace)
    (m : namespace * EventEmitter.t -> namespace * EventEmitter.t) :
  acquire (through m (ns, (acquire pr).1)).2 =
    ((through m (ns, (acquire pr).1)).2, (acquire pr).2).
Proof.
  destruct (acquire_flagged pr) as (o & Ho & Hi & Hid).
  unfold through. simpl. rewrite Ho.
  destruct (emitter o) as [e|] eqn:He.
  - destruct (m (ns, e)) as [ns' e']. simpl.
    unfold acquire, __new__, __init__. simpl. by rewrite Hi, Hid.
  - simpl. unfold acquire at 1, __new__, __init__. rewrite Ho, Hi.
    simpl. rewrite Hid. destruct (acquire pr).1 as [nx inst]. simpl in *.
    by rewrite Ho.
Qed.

(** A handler registered through one reference to the bus is called by an
    emission through a reference acquired later. *)
Example eventbus_handler_survives :
  let pr1 := (acquire start).1 in
  let st := through (EventEmitter.on "test" 7) (∅, pr1) in
  emit "test" [] [("value", VStr "world")] (st.1, (acquire st.2).1)
  = [mkCall 7 0 [] [("value", VStr "world")]].
Proof. vm_compute. reflexivity. Qed.
End Bus.

(** ** The event emitter, continued *)

Section EmitterHandlers.
Import Blinker EventEmitter.

Lemma receivers_connect ns n f m :
  receivers (connect n f ns) m =
    if decide (m = n) then
      if bool_decide (f ∈ receivers ns n) then receivers ns n
      else receivers ns n ++ [f]
    else receivers ns m.
Proof.
  unfold connect. unfold receivers at 1.
  destruct (bool_decide _); destruct (decide (m = n)) as [->|Hne];
    unfold namespace, signal in *;
    by rewrite ?lookup_insert_eq, ?lookup_insert_ne.
Qed.

Lemma receivers_disconnect ns n f m :
  receivers (disconnect n f ns) m =
    if decide (m = n) then
      List.filter (fun g => negb (Nat.eqb g f)) (receivers ns n)
    else receivers ns m.
Proof.
  unfold disconnect. unfold receivers at 1.
  destruct (decide (m = n)) as [->|Hne]; unfold namespace, signal in *;
    by rewrite ?lookup_insert_eq, ?lookup_insert_ne.
Qed.

Lemma emit_callees n a kw ns e c :
  c ∈ emit n a kw (ns, e) -> callee c ∈ receivers ns n.
Proof.
  unfold emit, send. destruct (bool_decide (n ∈ _signals e)).
  - intros Hc. apply list_elem_of_In, in_map_iff in Hc as (g & <- & Hg).
    by apply list_elem_of_In.
  - intros Hc. by apply elem_of_nil in Hc.
Qed.

Lemma receivers_disconnect_all n l : forall ns g,
  g ∈ receivers (foldr (disconnect n) ns l) n -> g ∉ l.
Proof.
  induction l as [|f l IH]; intros ns g Hg; simpl in *.
  - intros H. by apply elem_of_nil in H.
  - rewrite receivers_disconnect, decide_True in Hg by done.
    apply list_elem_of_In, filter_In in Hg as [Hg Hne].
    apply list_elem_of_In in Hg. apply not_elem_of_cons. split; [|eauto].
    intros ->. by rewrite Nat.eqb_refl in Hne.
Qed.

(** X7: A handler registered with [on] is called by the next [emit] of that
    event name, with the emitter as sender and the keyword payload,
    provided the payload has no keyword named [_async_wrapper], which
    the signal library keeps for itself; emissions of other event names
    are what they were before. *)
Theorem emitter_on_then_emit
    (st : namespace * t) (n : string) (f : handler)
    (a : list value) (kw : list (string * value)) :
  ("_async_wrapper" ∉ map fst kw ->
   mkCall f (self st.2) [] kw ∈ emit n a kw (on n f st)) /\
  forall m, m <> n -> emit m a kw (on n f st) = emit m a kw st.
Proof.
  destruct st as [ns e]. simpl. split.
  - intros _. unfold emit, on, send. simpl.
    rewrite bool_decide_eq_true_2
      by (apply elem_of_union_l; by apply elem_of_singleton).
    apply list_elem_of_In, in_map_iff. exists f. split; [done|].
    apply list_elem_of_In. rewrite receivers_connect, decide_True by done.
    destruct (bool_decide (f ∈ receivers ns n)) eqn:Hd.
    + by apply bool_decide_eq_true in Hd.
    + apply elem_of_app. right. by apply list_elem_of_singleton.
  - intros m Hne. unfold emit, on, send. simpl.
    rewrite receivers_connect, decide_False by done.
    assert (Hiff : m ∈ {[n]} ∪ _signals e <-> m ∈ _signals e).
    { rewrite elem_of_union, elem_of_singleton. tauto. }
    by rewrite (bool_decide_ext _ _ Hiff).
Qed.

Lemma emitter_on_then_emit_witness :
  mkCall 7 0 [] [("value", VInt 1)] ∈
    emit "test" [] [("value", VInt 1)] (on "test" 7 (∅, init 0)) /\
  emit "other" [] [] (on "test" 7 (∅, init 0)) = emit "other" [] [] (∅, init 0).
Proof.
  split.
  - apply (proj1 (emitter_on_then_emit (∅, init 0) "test" 7 []
                    [("value", VInt 1)])).
    intros Hin. apply list_elem_of_singleton in Hin. discriminate.
  - apply (proj2 (emitter_on_then_emit (∅, init 0) "test" 7 [] [])).
    discriminate.
Defined.

(** X8: After [off(name, handler)] an [emit] of that name does not call the
    handler; after [off(name)] it calls none of the handlers that this
    emitter holds for the name. *)
Theorem emitter_off_silences
    (st : namespace * t) (n : string) (f : handler)
    (a : list value) (kw : list (string * value)) :
  (forall c, c ∈ emit n a kw (off n (Some f) st) -> callee c <> f) /\
  (f ∈ default [] (_event_handlers st.2 !! n) ->
   forall c, c ∈ emit n a kw (off n None st) -> callee c <> f).
Proof.
  destruct st as [ns e]. simpl. split.
  - intros c. unfold off.
    destruct (bool_decide (n ∈ _signals e)) eqn:Hs.
    + intros Hc. apply emit_callees in Hc.
      rewrite receivers_disconnect, decide_True in Hc by done.
      apply list_elem_of_In, filter_In in Hc as [_ Hne].
      intros Heq. rewrite Heq in Hne. by rewrite Nat.eqb_refl in Hne.
    + unfold emit. rewrite Hs. intros Hc. by apply elem_of_nil in Hc.
  - intros Hf c. unfold off.
    destruct (bool_decide (n ∈ _signals e)) eqn:Hs.
    + destruct (_event_handlers e !! n) as [l|] eqn:Hl; simpl in Hf.
      * intros Hc. apply emit_callees in Hc.
        apply receivers_disconnect_all in Hc. intros Heq. by rewrite Heq in Hc.
      * by apply elem_of_nil in Hf.
    + unfold emit. rewrite Hs. intros Hc. by apply elem_of_nil in Hc.
Qed.

Lemma emitter_off_silences_witness :
  emit "test" [] [] (off "test" None (on "test" 7 (∅, init 0))) = [] /\
  forall c, c ∈ emit "test" [] [] (off "test" None (on "test" 7 (∅, init 0)))
            -> callee c <> 7.
Proof.
  split; [vm_compute; reflexivity|].
  apply (proj2 (emitter_off_silences (on "test" 7 (∅, init 0)) "test" 7
                  [] [])).
  vm_compute. apply list_elem_of_here.
Defined.
End EmitterHandlers.

(** ** Queries on the tree *)

(** X9: [find_by_id] answers with a component below [r] that carries the id,
    or with [None] when no component below [r] carries it; where ids are
    unique it answers with the component that carries it; and on an
    acyclic tree it returns. *)
Theorem find_by_id_correct
    (fuel : nat) (h : heap) (r : ref) (i : string) (res : option ref) :
  find_by_id fuel h r i = Some res ->
  (match res with
   | Some x => reach h r x /\ id_of h x = Some i
   | None => forall x, reach h r x -> id_of h x <> Some i
   end) /\
  (unique_ids h ->
   forall x, reach h r x -> id_of h x = Some i -> res = Some x).
Proof.
  intros Hf.
  assert (Hres : match res with
                 | Some x => reach h r x /\ id_of h x = Some i
                 | None => forall x, reach h r x -> id_of h x <> Some i
                 end).
  { destruct res as [x|].
    - by eapply find_by_id_Some.
    - by eapply find_by_id_None. }
  split; [exact Hres|].
  intros Hu x Hx Hix. destruct res as [y|].
  - destruct Hres as [Hy Hiy]. f_equal. eapply Hu; eauto.
  - by destruct (Hres x Hx).
Qed.

Lemma find_by_id_correct_witness :
  find_by_id 3 sample 0 "b" = Some (Some 2) /\
  reach sample 0 2 /\ id_of sample 2 = Some "b" /\
  forall x, reach sample 0 x -> id_of sample x <> Some "zz".
Proof.
  split; [vm_compute; reflexivity|].
  pose proof (proj1 (find_by_id_correct 3 sample 0 "b" (Some 2) eq_refl))
    as [H1 H2].
  split; [exact H1|]. split; [exact H2|].
  exact (proj1 (find_by_id_correct 3 sample 0 "zz" None eq_refl)).
Defined.

Lemma root_of_end h x R :
  root_of h x R -> exists c, h !! R = Some c /\ _parent c = None.
Proof. induction 1; eauto. Qed.

(** X10: [root] answers with a component that has no parent and that is its
    own root, reached from [x] through parent references; in a forest
    [x] is below it. *)
Theorem root_correct (fuel : nat) (h : heap) (x R : ref) :
  root fuel h x = Some R ->
  (exists c, h !! R = Some c /\ _parent c = None) /\
  root_of h x R /\
  (forall fuel', root (S fuel') h R = Some R) /\
  (forest h -> reach h R x).
Proof.
  intros Hr. pose proof (root_sound _ _ _ _ Hr) as Hof.
  destruct (root_of_end _ _ _ Hof) as (c & Hc & Hp).
  split; [eauto|]. split; [done|]. split.
  - intros fuel'. simpl. by rewrite Hc, Hp.
  - intros Hf. by apply root_reach.
Qed.

Lemma root_correct_witness :
  root 3 sample 2 = Some 0 /\ root_of sample 2 0 /\
  forall fuel', root (S fuel') sample 0 = Some 0.
Proof.
  split; [vm_compute; reflexivity|].
  pose proof (root_correct 3 sample 2 0 eq_refl) as (_ & H1 & H2 & _).
  split; [exact H1|exact H2].
Defined.

(** X11: [_get_all_descendants] lists exactly the descendants; on an acyclic
    tree the component itself is not among them, and the call
    returns. *)
Theorem descendants_exact
    (fuel : nat) (h : heap) (r : ref) (ds : list ref) :
  _get_all_descendants fuel h r = Some ds ->
  (forall y, y ∈ ds <-> below h r y) /\
  (forall rank, ranked h rank ->
     (r ∉ ds) /\ forall y, y ∈ ds -> rank y < rank r).
Proof.
  intros Hd. split.
  - intros y. split.
    + by eapply descendants_sound.
    + by eapply descendants_complete.
  - intros rank Hrk.
    assert (Hlt : forall y, y ∈ ds -> rank y < rank r).
    { intros y Hy. eapply below_valid; [exact Hrk|].
      by eapply descendants_sound. }
    split; [|exact Hlt]. intros Hin. specialize (Hlt r Hin). lia.
Qed.

Lemma descendants_exact_witness :
  _get_all_descendants 3 sample 0 = Some [1; 2] /\
  (forall y, y ∈ [1; 2] <-> below sample 0 y) /\ (0 ∉ [1; 2]).
Proof.
  split; [vm_compute; reflexivity|].
  pose proof (descendants_exact 3 sample 0 [1; 2] eq_refl) as [H1 H2].
  split; [exact H1|]. exact (proj1 (H2 sample_rank sample_ranked)).
Defined.

(** ** Attaching and detaching *)

Lemma children_same h h' x :
  same_on skel h h' -> children h' x = children h x.
Proof.
  intros Hs. unfold children. specialize (Hs x).
  destruct (h !! x) as [c|], (h' !! x) as [c'|]; simpl in Hs; try done.
  assert (Hsk : skel c' = skel c) by congruence. by apply skel_children.
Qed.

Lemma parent_same h h' x :
  same_on skel h h' -> _parent <$> (h' !! x) = _parent <$> (h !! x).
Proof.
  intros Hs. specialize (Hs x).
  destruct (h !! x) as [c|], (h' !! x) as [c'|]; simpl in *; try done.
  assert (Hsk : skel c' = skel c) by congruence.
  by rewrite (skel_parent _ _ Hsk).
Qed.

Lemma mount_mounts fuel r h h' t :
  mount fuel r h = Some (h', t) -> is_mounted h' r = true.
Proof.
  intros Hm. pose proof (mount_again _ _ _ _ _ Hm 0) as Hagain.
  simpl in Hagain. unfold is_mounted.
  destruct (h' !! r) as [c'|]; [|discriminate].
  destruct (_is_mounted c') eqn:Hc; [done|].
  destruct (for_each _ _ _) as [[h2 t2]|]; discriminate.
Qed.

Lemma add_child_shape
    (fuel : nat) (p c : ref) (h h' : heap) (pc cc : Component) (t : trace) :
  h !! p = Some pc -> h !! c = Some cc -> c ∉ _children pc ->
  add_child fuel p c h = Some (Returned, h', t) ->
  children h' p = _children pc ++ [c] /\
  _parent <$> (h' !! c) = Some (Some p) /\
  is_mounted h' c = _is_mounted pc || _is_mounted cc /\
  (_is_mounted pc = false -> t = []) /\
  (forall x, x <> p -> children h' x = children h x) /\
  (forall x, x <> c -> _parent <$> (h' !! x) = _parent <$> (h !! x)) /\
  (forall x, id_of h' x = id_of h x).
Proof.
  intros Hp Hc Hnin Hadd.
  destruct (add_child_Returned_inv _ _ _ _ _ _ _ _ Hp Hc Hnin Hadd)
    as (_ & _ & _ & Hres). simpl in Hres.
  set (h2 := alter (set_parent (Some p)) c
               (alter (fun x => set_children (_children x ++ [c]) x) p h))
    in *.
  assert (Hl2 : forall x, h2 !! x =
            (if decide (c = x) then set_parent (Some p) else fun y => y) <$>
            ((if decide (p = x)
              then fun y => set_children (_children y ++ [c]) y
              else fun y => y) <$> (h !! x))).
  { intros x. unfold h2. rewrite !list_lookup_alter.
    destruct (decide (c = x)) as [->|]; destruct (decide (p = x)) as [->|];
      by destruct (h !! x). }
  assert (H2 : children h2 p = _children pc ++ [c] /\
               _parent <$> (h2 !! c) = Some (Some p) /\
               is_mounted h2 c = _is_mounted cc /\
               (forall x, x <> p -> children h2 x = children h x) /\
               (forall x, x <> c ->
                  _parent <$> (h2 !! x) = _parent <$> (h !! x)) /\
               (forall x, id_of h2 x = id_of h x)).
  { split; [|split; [|split; [|split; [|split]]]].
    - unfold children. rewrite Hl2, Hp.
      rewrite (decide_True (P := p = p)) by done.
      by destruct (decide (c = p)).
    - rewrite Hl2, Hc. rewrite (decide_True (P := c = c)) by done.
      by destruct (decide (p = c)).
    - unfold is_mounted. rewrite Hl2, Hc.
      rewrite (decide_True (P := c = c)) by done.
      by destruct (decide (p = c)).
    - intros x Hne. unfold children. rewrite Hl2.
      rewrite (decide_False (P := p = x)) by done.
      by destruct (decide (c = x)), (h !! x).
    - intros x Hne. rewrite Hl2.
      rewrite (decide_False (P := c = x)) by done.
      by destruct (decide (p = x)), (h !! x).
    - intros x. unfold id_of. rewrite Hl2.
      by destruct (decide (c = x)), (decide (p = x)), (h !! x). }
  destruct H2 as (Hch & Hpar & Hmc & Hoch & Hopar & Hid).
  destruct (_is_mounted pc) eqn:Hmp.
  - assert (Hs : same_on skel h2 h').
    { eapply mount_same_on; [|exact Hres]. reflexivity. }
    split; [by rewrite (children_same _ _ _ Hs)|].
    split; [by rewrite (parent_same _ _ _ Hs)|].
    split; [by rewrite (mount_mounts _ _ _ _ _ Hres)|].
    split; [done|].
    split; [intros x Hx; rewrite (children_same _ _ _ Hs); auto|].
    split; [intros x Hx; rewrite (parent_same _ _ _ Hs); auto|].
    intros x. by rewrite (id_of_same _ _ _ Hs).
  - destruct Hres as [-> ->]. simpl. auto 10.
Qed.

(** X12: An insertion that [add_child] accepts puts the child at the end of
    the child list, sets its parent reference, mounts it when the parent
    is mounted (and emits nothing otherwise), and leaves the other child
    lists, the other parent references and every id as they were. *)
Theorem add_child_attaches
    (fuel : nat) (p c : ref) (h h' : heap) (pc cc : Component) (t : trace) :
  h !! p = Some pc -> h !! c = Some cc -> c ∉ _children pc ->
  add_child fuel p c h = Some (Returned, h', t) ->
  children h' p = _children pc ++ [c] /\
  _parent <$> (h' !! c) = Some (Some p) /\
  is_mounted h' c = _is_mounted pc || _is_mounted cc /\
  (_is_mounted pc = false -> t = []) /\
  (forall x, x <> p -> children h' x = children h x) /\
  (forall x, x <> c -> _parent <$> (h' !! x) = _parent <$> (h !! x)) /\
  (forall x, id_of h' x = id_of h x).
Proof. apply add_child_shape. Qed.

Lemma add_child_attaches_witness :
  exists h', add_child 3 1 3 small_tree = Some (Returned, h', []) /\
    children h' 1 = [3] /\ _parent <$> (h' !! 3) = Some (Some 1) /\
    is_mounted h' 3 = false.
Proof.
  eexists. split; [vm_compute; reflexivity|].
  pose proof (add_child_attaches 3 1 3 small_tree _ _ _ _
                eq_refl eq_refl
                (bool_decide_unpack (3 ∉ @nil nat) I) eq_refl)
    as (H1 & H2 & H3 & _).
  split; [exact H1|]. split; [exact H2|exact H3].
Defined.

Lemma edge_children h a b : edge h a b <-> b ∈ children h a.
Proof.
  unfold edge, children. split.
  - intros (ac & -> & Hb). done.
  - destruct (h !! a) as [ac|]; [eauto|]. intros Hb.
    by apply elem_of_nil in Hb.
Qed.

Lemma forest_detached_not_child h p c pc :
  forest h -> detached h p c -> h !! p = Some pc -> c ∉ _children pc.
Proof.
  intros (_ & I2 & _) [(cc & Hc & Hpar) _] Hp Hin.
  destruct (I2 p c) as (cc' & Hc' & Hpar'); [exists pc; auto|]. congruence.
Qed.

(** X13: In a forest, a component that [add_child] attached is the one that
    [find_by_id] answers with when the root of the tree is asked for its
    id. *)
Theorem add_child_then_find
    (fuel fuel' : nat) (p c R : ref) (h h' : heap) (t : trace)
    (i : string) (res : option ref) :
  forest h -> detached h p c ->
  add_child fuel p c h = Some (Returned, h', t) ->
  root_of h p R -> id_of h c = Some i ->
  find_by_id fuel' h' R i = Some res -> res = Some c.
Proof.
  intros Hf Hd Hadd Hroot Hid Hfind.
  destruct (h !! p) as [pc|] eqn:Hp.
  2:{ unfold add_child in Hadd. by rewrite Hp in Hadd. }
  pose proof Hd as [(cc & Hc & Hpar) _].
  pose proof (forest_detached_not_child h p c pc Hf Hd Hp) as Hnin.
  destruct (add_child_shape fuel p c h h' pc cc t Hp Hc Hnin Hadd)
    as (Hch & _ & _ & _ & Hoch & _ & Hids).
  assert (Hedge : forall a b, edge h a b -> edge h' a b).
  { intros a b He. apply edge_children. apply edge_children in He.
    destruct (decide (a = p)) as [->|Hne].
    - rewrite Hch. apply elem_of_app. left.
      unfold children in He. by rewrite Hp in He.
    - by rewrite Hoch. }
  assert (Hreach : reach h' R c).
  { eapply rtc_r.
    - eapply (rtc_subrel (edge h) (edge h')); [exact Hedge|].
      by apply root_reach.
    - apply edge_children. rewrite Hch. apply elem_of_app. right.
      by apply list_elem_of_singleton. }
  assert (Hu : unique_ids h').
  { apply forest_unique_ids. by eapply forest_add_child. }
  assert (Hidc : id_of h' c = Some i) by (by rewrite Hids).
  destruct res as [x|].
  - destruct (find_by_id_Some _ _ _ _ _ Hfind) as [Hx Hix].
    f_equal. eapply Hu; eauto.
  - by destruct (find_by_id_None _ _ _ _ Hfind c Hreach).
Qed.

Lemma add_child_then_find_witness :
  exists h' res, add_child 3 1 3 small_tree = Some (Returned, h', []) /\
    find_by_id 4 h' 0 "z" = Some res /\ res = Some 3.
Proof.
  eexists _, _. split; [vm_compute; reflexivity|].
  split; [vm_compute; reflexivity|].
  assert (Hroot : root_of small_tree 1 0).
  { eapply root_of_up; [reflexivity|reflexivity|].
    eapply root_of_top; reflexivity. }
  exact (add_child_then_find 3 4 1 3 0 small_tree _ [] "z" _
           (built_forest _ small_tree_built)
           (small_tree_detached 3 (or_intror eq_refl))
           eq_refl Hroot eq_refl eq_refl).
Defined.

Lemma list_remove_snoc c l : c ∉ l -> list_remove c (l ++ [c]) = l.
Proof.
  induction l as [|x l IH]; simpl; intros Hnin.
  - by rewrite Nat.eqb_refl.
  - apply not_elem_of_cons in Hnin as [Hne Hnin].
    destruct (Nat.eqb_spec x c) as [->|_]; [done|]. by rewrite IH.
Qed.

Lemma list_remove_subseteq c l x : x ∈ list_remove c l -> x ∈ l.
Proof.
  induction l as [|y l IH]; simpl; [done|].
  destruct (Nat.eqb_spec y c) as [->|_]; intros Hx.
  - by apply list_elem_of_further.
  - apply elem_of_cons in Hx as [->|Hx];
      [apply list_elem_of_here|apply list_elem_of_further; auto].
Qed.

Lemma list_remove_other c l x : x <> c -> x ∈ l -> x ∈ list_remove c l.
Proof.
  intros Hne. induction l as [|y l IH]; simpl; [done|].
  intros Hx. apply elem_of_cons in Hx as [<-|Hx].
  - destruct (Nat.eqb_spec x c); [done|apply list_elem_of_here].
  - destruct (Nat.eqb_spec y c); [done|].
    apply list_elem_of_further; auto.
Qed.

Lemma list_remove_NoDup c l : NoDup l -> c ∉ list_remove c l.
Proof.
  induction 1 as [|y l Hy Hnd IH]; simpl; [apply not_elem_of_nil|].
  destruct (Nat.eqb_spec y c) as [->|Hne]; [done|].
  apply not_elem_of_cons. split; [congruence|done].
Qed.

Lemma unmount_unmounts fuel r h h' t :
  unmount fuel r h = Some (h', t) -> is_mounted h' r = false.
Proof.
  intros Hu. pose proof (unmount_again _ _ _ _ _ Hu 0) as Hag.
  simpl in Hag. unfold is_mounted.
  destruct (h' !! r) as [c|]; [|done].
  destruct (_is_mounted c); [|done].
  destruct (for_each _ _ _) as [[h1 t1]|]; [|done].
  injection Hag as _ Ht. by destruct t1.
Qed.

(** The store after the two writes of [remove_child]. *)
Lemma lookup_removed (h : heap) (p c x : ref) :
  alter (set_parent None) c
    (alter (fun o => set_children (list_remove c (_children o)) o) p h) !! x
  = (fun o => if decide (c = x) then set_parent None o else o) <$>
    ((fun o => if decide (p = x)
               then set_children (list_remove c (_children o)) o else o) <$>
     (h !! x)).
Proof.
  rewrite !list_lookup_alter.
  destruct (decide (c = x)) as [->|]; destruct (decide (p = x)) as [->|];
    destruct (h !! x); done.
Qed.

(** X14: [remove_child] of a child: the child is unmounted first when the
    parent is mounted, with one [unmount] emission for each component whose
    flag moved; the first occurrence of the child leaves the child list,
    and the child's parent reference is cleared.  No other child list, no
    other parent reference and no id changes. *)
Theorem remove_child_detaches
    (rank : ref -> nat) (fuel : nat) (p c : ref) (h : heap)
    (pc : Component) :
  ranked h rank -> rank c < fuel ->
  h !! p = Some pc -> c ∈ _children pc ->
  exists h' t,
    remove_child fuel p c h = Some (h', t) /\
    children h' p = list_remove c (_children pc) /\
    _parent <$> (h' !! c) = Some None /\
    is_mounted h' c = (if _is_mounted pc then false else is_mounted h c) /\
    flips false Events.UNMOUNT h h' t /\
    (_is_mounted pc = false -> t = []) /\
    (forall x, x <> p -> children h' x = children h x) /\
    (forall x, x <> c -> _parent <$> (h' !! x) = _parent <$> (h !! x)) /\
    (forall x, id_of h' x = id_of h x).
Proof.
  intros Hrk Hlt Hp Hin.
  destruct (Hrk p pc c Hp Hin) as [[cc Hc] _].
  assert (Hun : exists h1 t,
    (if _is_mounted pc then unmount fuel c h else Some (h, [])) =
      Some (h1, t) /\
    same_on skel h h1 /\ flips false Events.UNMOUNT h h1 t /\
    is_mounted h1 c = (if _is_mounted pc then false else is_mounted h c) /\
    (_is_mounted pc = false -> t = [])).
  { destruct (_is_mounted pc).
    - destruct (unmount_terminates rank fuel c h Hrk) as (h1 & t & Hu & Hsk);
        [eauto|done|].
      exists h1, t. split; [done|]. split; [done|]. split.
      { by destruct (unmount_flips rank fuel c h h1 t Hrk Hu). }
      split; [by eapply unmount_unmounts|done].
    - exists h, []. split; [done|]. split; [apply same_on_refl|].
      split; [apply flips_nil|done]. }
  destruct Hun as (h1 & t & Hun & Hsk & Hfl & Hmc & Hnil).
  exists (alter (set_parent None) c
            (alter (fun o => set_children (list_remove c (_children o)) o)
               p h1)), t.
  assert (Hm : forall x,
    is_mounted (alter (set_parent None) c
                  (alter (fun o => set_children
                                     (list_remove c (_children o)) o) p h1)) x
    = is_mounted h1 x).
  { intros x. unfold is_mounted. rewrite lookup_removed.
    destruct (h1 !! x) as [o|]; [|done]. simpl.
    destruct (decide (c = x)); destruct (decide (p = x)); done. }
  destruct (same_on_lookup _ _ _ _ _ Hsk Hp) as (pc1 & Hp1 & Hskp).
  destruct (same_on_lookup _ _ _ _ _ Hsk Hc) as (cc1 & Hc1 & Hskc).
  split.
  { unfold remove_child. rewrite Hp, bool_decide_eq_true_2 by done.
    by rewrite Hun. }
  split.
  { unfold children. rewrite lookup_removed, Hp1. simpl.
    rewrite (decide_True (P := p = p)) by done.
    rewrite (skel_children _ _ Hskp).
    by destruct (decide (c = p)). }
  split.
  { rewrite lookup_removed, Hc1. simpl.
    rewrite (decide_True (P := c = c)) by done.
    by destruct (decide (p = c)). }
  split; [by rewrite Hm|].
  split.
  { destruct Hfl as (F1 & F2 & F3 & F4 & F5).
    split; [|split; [|split; [|split]]]; try done.
    - intros x Hx. rewrite Hm. auto.
    - intros x Hx. rewrite Hm. auto.
    - intros x Hx. rewrite Hm. auto. }
  split; [done|].
  split.
  { intros x Hne. rewrite <- (children_same h h1 x Hsk).
    unfold children. rewrite lookup_removed.
    destruct (h1 !! x) as [o|]; [|done]. simpl.
    rewrite (decide_False (P := p = x)) by done.
    by destruct (decide (c = x)). }
  split.
  { intros x Hne. rewrite <- (parent_same h h1 x Hsk).
    rewrite lookup_removed.
    destruct (h1 !! x) as [o|]; [|done]. simpl.
    rewrite (decide_False (P := c = x)) by done.
    by destruct (decide (p = x)). }
  intros x. rewrite <- (id_of_same h h1 x Hsk).
  unfold id_of. rewrite lookup_removed.
  destruct (h1 !! x) as [o|]; [|done]. simpl.
  destruct (decide (c = x)); destruct (decide (p = x)); done.
Qed.

Lemma remove_child_detaches_witness :
  exists h' t,
    remove_child 1 0 1 sample_mounted = Some (h', t) /\
    children h' 0 = [2] /\ _parent <$> (h' !! 1) = Some None /\
    is_mounted h' 1 = false.
Proof.
  destruct (remove_child_detaches sample_rank 1 0 1 sample_mounted _
              sample_mounted_ranked (le_n 1) eq_refl
              (list_elem_of_here 1 [2]))
    as (h' & t & H1 & H2 & H3 & H4 & _).
  exists h', t. split; [exact H1|]. split; [exact H2|].
  split; [exact H3|exact H4].
Defined.

(** X15: On an unmounted parent, [remove_child] undoes an [add_child] that
    attached a component without a parent: the store is the one before
    the two calls, and nothing is emitted. *)
Theorem add_then_remove_child
    (fuel fuel' : nat) (p c : ref) (h h' : heap) (pc cc : Component)
    (t : trace) :
  h !! p = Some pc -> h !! c = Some cc ->
  c ∉ _children pc -> _parent cc = None -> _is_mounted pc = false ->
  add_child fuel p c h = Some (Returned, h', t) ->
  remove_child fuel' p c h' = Some (h, []).
Proof.
  intros Hp Hc Hnin Hpar Hm Hadd.
  assert (Hh' : h' = inserted h p c).
  { unfold add_child in Hadd. rewrite Hp, Hc in Hadd.
    rewrite bool_decide_eq_false_2 in Hadd by done.
    destruct (name_clash _ _ _); [done|].
    destruct (id_taken _ _ _ _) as [[|]|]; try done.
    destruct (_get_all_descendants _ _ _) as [ds|]; [|done].
    destruct (first_duplicate _ _ _ _) as [[d|]|]; try done.
    rewrite Hm in Hadd. by injection Hadd as <- _. }
  subst h'. unfold remove_child, inserted.
  rewrite !list_lookup_alter.
  assert (Hp' : exists pc',
    (if decide (c = p) is left _
     then set_parent (Some p) <$>
          (if decide (p = c) is left _
           then (fun x => set_children (_children x ++ [c]) x) <$> h !! p
           else h !! c)
     else if decide (p = p) is left _
          then (fun x => set_children (_children x ++ [c]) x) <$> h !! p
          else h !! p) = Some pc' /\
    _children pc' = _children pc ++ [c] /\ _is_mounted pc' = false).
  { rewrite (decide_True (P := p = p)) by done.
    destruct (decide (c = p)) as [->|Hne].
    - rewrite (decide_True (P := p = p)) by done. rewrite Hp. simpl. eauto.
    - rewrite Hp. simpl. eauto. }
  destruct Hp' as (pc' & -> & Hch & Hm').
  rewrite bool_decide_eq_true_2.
  2:{ rewrite Hch. apply elem_of_app. right. by apply list_elem_of_singleton. }
  rewrite Hm'. do 2 f_equal.
  apply list_eq. intros x. rewrite !list_lookup_alter.
  repeat case_decide; subst; try done; rewrite ?Hp, ?Hc; simpl; f_equal.
  - rewrite list_remove_snoc by done.
    assert (cc = pc) by congruence. subst cc.
    destruct pc; simpl in *; by subst.
  - destruct cc; simpl in *; by subst.
  - rewrite list_remove_snoc by done. by destruct pc.
Qed.

Lemma add_then_remove_child_witness :
  exists h', add_child 3 1 3 small_tree = Some (Returned, h', []) /\
    remove_child 0 1 3 h' = Some (small_tree, []).
Proof.
  eexists. split; [vm_compute; reflexivity|].
  exact (add_then_remove_child 3 0 1 3 small_tree _ _ _ []
           eq_refl eq_refl (bool_decide_unpack (3 ∉ @nil nat) I)
           eq_refl eq_refl eq_refl).
Defined.

(** ** The mount and unmount cascades *)

Lemma mounted_down_check_ok h : mounted_down_check h = true -> mounted_down h.
Proof.
  unfold mounted_down_check. rewrite forallb_forall.
  intros H p c (pc & Hp & Hc) Hm.
  assert (Hin : In p (seq 0 (length h))).
  { apply in_seq. apply lookup_lt_Some in Hp. lia. }
  specialize (H p Hin). rewrite Hm in H. simpl in H.
  rewrite forallb_forall in H. apply H. apply list_elem_of_In.
  unfold children. by rewrite Hp.
Qed.

Lemma unmounted_down_check_ok h :
  unmounted_down_check h = true -> unmounted_down h.
Proof.
  unfold unmounted_down_check. rewrite forallb_forall.
  intros H p c (pc & Hp & Hc) Hm.
  assert (Hin : In p (seq 0 (length h))).
  { apply in_seq. apply lookup_lt_Some in Hp. lia. }
  specialize (H p Hin). rewrite Hm in H. simpl in H.
  rewrite forallb_forall in H.
  apply negb_true_iff. apply H. apply list_elem_of_In.
  unfold children. by rewrite Hp.
Qed.

(** What [mount] and [unmount] emit stays within the subtree. *)
Lemma lifecycle_trace_reach
    (op : nat -> ref -> heap -> option (heap * trace)) f h c r h0 h1 t1 :
  (forall x h h' t, op f x h = Some (h', t) ->
     same_on skel h h' /\ forall e, e ∈ t -> reach h x e.1) ->
  h !! r = Some c -> same_on skel h h0 ->
  for_each (op f) (_children c) h0 = Some (h1, t1) ->
  forall e, e ∈ t1 -> reach h r e.1.
Proof.
  intros Hop Hr Hs Hloop.
  destruct (for_each_inv (op f) (fun h0 => same_on skel h h0)
              (fun _ _ t0 => forall e, e ∈ t0 ->
                 exists x, x ∈ _children c /\ reach h x e.1)
              (_children c)) with (h := h0) (h' := h1) (t := t1)
    as [Hin _]; try done.
  - intros _ e He. by apply elem_of_nil in He.
  - intros _ _ _ ta tb Ha Hb e He.
    apply elem_of_app in He as [He|He]; auto.
  - intros x ha hb t Hx Hsa Hrun.
    destruct (Hop _ _ _ _ Hrun) as [Hsab Hreach]. split.
    + intros e He. exists x. split; [done|].
      eapply reach_same; [apply same_on_sym; exact Hsa|]. auto.
    + eapply same_on_trans; eauto.
  - intros e He. destruct (Hin e He) as (x & Hx & Hreach).
    eapply rtc_l; [|exact Hreach]. exists c. auto.
Qed.

Lemma mount_trace_reach fuel : forall r h h' t,
  mount fuel r h = Some (h', t) -> forall e, e ∈ t -> reach h r e.1.
Proof.
  induction fuel as [|f IH]; intros r h h' t; simpl; [discriminate|].
  destruct (h !! r) as [c|] eqn:Hr; [|discriminate].
  destruct (_is_mounted c).
  { intros [= <- <-] e He. by apply elem_of_nil in He. }
  destruct (for_each _ _ _) as [[h2 t2]|] eqn:Hloop; [|discriminate].
  intros [= <- <-] e He. apply elem_of_cons in He as [->|He].
  { apply rtc_refl. }
  eapply (lifecycle_trace_reach mount); [|exact Hr| |exact Hloop|exact He].
  - intros x h0 h0' t0 Hrun. split; [|eauto].
    eapply mount_same_on; [|exact Hrun]. reflexivity.
  - by apply same_on_alter.
Qed.

Lemma unmount_trace_reach fuel : forall r h h' t,
  unmount fuel r h = Some (h', t) -> forall e, e ∈ t -> reach h r e.1.
Proof.
  induction fuel as [|f IH]; intros r h h' t; simpl; [discriminate|].
  destruct (h !! r) as [c|] eqn:Hr; [|discriminate].
  destruct (_is_mounted c).
  2:{ intros [= <- <-] e He. by apply elem_of_nil in He. }
  destruct (for_each _ _ _) as [[h2 t2]|] eqn:Hloop; [|discriminate].
  intros [= <- <-] e He. apply elem_of_app in He as [He|He].
  2:{ apply list_elem_of_singleton in He as ->. apply rtc_refl. }
  eapply (lifecycle_trace_reach unmount); [|exact Hr| |exact Hloop|exact He].
  - intros x h0 h0' t0 Hrun. split; [|eauto].
    eapply unmount_same_on; [|exact Hrun]. reflexivity.
  - apply same_on_refl.
Qed.

(** A loop of [mount] calls leaves every listed component mounted. *)
Lemma for_each_mount_all f : forall xs h h' t,
  for_each (mount f) xs h = Some (h', t) ->
  forall x, x ∈ xs -> is_mounted h' x = true.
Proof.
  induction xs as [|a xs IH]; simpl; intros h h' t.
  - intros _ x Hx. by apply elem_of_nil in Hx.
  - destruct (mount f a h) as [[h1 t1]|] eqn:Ha; [|discriminate].
    destruct (for_each _ xs h1) as [[h2 t2]|] eqn:Hrest; [|discriminate].
    intros [= <- <-] x Hx. apply elem_of_cons in Hx as [->|Hx]; [|eauto].
    destruct (for_each_inv (mount f) (fun _ => True)
                (flips true Events.MOUNT) xs) with (h := h1) (h' := h2)
                (t := t2) as [(Hmono & _) _];
      eauto using flips_nil, flips_app.
    { intros. split; [|done]. by eapply mount_flips. }
    apply Hmono. by eapply mount_mounts.
Qed.

(** [mount] keeps "children of mounted components are mounted" for every
    component outside the set [S] of components whose own [mount] call is
    still running. *)
Lemma mount_closed fuel : forall r h h' t (S : ref -> Prop),
  (forall p c, ~ S p -> edge h p c -> is_mounted h p = true ->
     is_mounted h c = true) ->
  mount fuel r h = Some (h', t) ->
  forall p c, ~ S p -> edge h' p c -> is_mounted h' p = true ->
    is_mounted h' c = true.
Proof.
  induction fuel as [|f IH]; intros r h h' t S HJ; simpl; [discriminate|].
  destruct (h !! r) as [cr|] eqn:Hr; [|discriminate].
  destruct (_is_mounted cr) eqn:Hm.
  { by intros [= <- <-]. }
  destruct (for_each _ _ _) as [[h2 t2]|] eqn:Hloop; [|discriminate].
  intros [= <- <-].
  set (h1 := alter (set_lifecycle true MOUNTED) r h) in *.
  assert (Hs1 : same_on skel h h1) by (by apply same_on_alter).
  destruct (for_each_inv (mount f)
              (fun h0 => forall p c, ~ (S p \/ p = r) -> edge h0 p c ->
                 is_mounted h0 p = true -> is_mounted h0 c = true)
              (fun h0 h0' _ => same_on skel h0 h0')
              (_children cr)) with (h := h1) (h' := h2) (t := t2)
    as [Hs2 HJ2]; eauto using same_on_refl, same_on_trans.
  - intros x h0 h0' t0 Hx HJ0 Hrun. split.
    + eapply mount_same_on; [|exact Hrun]. reflexivity.
    + eapply IH; eauto.
  - intros p c Hp He Hmp.
    assert (Hne : p <> r) by tauto.
    unfold h1 in *. rewrite is_mounted_alter in *.
    rewrite decide_False in Hmp by done.
    destruct (decide (c = r)); [by rewrite Hr|].
    apply (HJ p c); [tauto| |done].
    eapply edge_same; [apply same_on_sym; exact Hs1|done].
  - intros p c Hp He Hmp. destruct (decide (p = r)) as [->|Hne].
    + eapply for_each_mount_all; [exact Hloop|].
      destruct He as (cr2 & Hr2 & Hc).
      destruct (same_on_lookup _ _ _ _ _
                  (same_on_trans _ _ _ _ Hs1 Hs2) Hr) as (cr' & Hr' & Hsk).
      assert (cr2 = cr') by congruence. subst cr2.
      by rewrite <- (skel_children _ _ Hsk).
    + apply (HJ2 p c); [tauto|done|done].
Qed.

Lemma mounted_down_reach h r x :
  mounted_down h -> is_mounted h r = true -> reach h r x ->
  is_mounted h x = true.
Proof.
  intros Hd Hm Hreach. induction Hreach as [r|r y z He _ IH]; [done|].
  apply IH. by eapply Hd.
Qed.

(** X16: On a store where the children of mounted components are mounted,
    [mount] returns, keeps that property, and leaves mounted exactly the
    components that were mounted and the subtree of its argument. *)
Theorem mount_cascade
    (rank : ref -> nat) (fuel : nat) (r : ref) (h : heap) :
  ranked h rank -> is_Some (h !! r) -> rank r < fuel ->
  mounted_down h ->
  exists h' t,
    mount fuel r h = Some (h', t) /\
    mounted_down h' /\
    forall x, is_mounted h' x = true <->
              (is_mounted h x = true \/ reach h r x).
Proof.
  intros Hrk Hv Hlt Hd.
  destruct (mount_terminates rank fuel r h Hrk Hv Hlt) as (h' & t & Hrun & Hs).
  exists h', t. split; [done|].
  assert (Hd' : mounted_down h').
  { intros p c. eapply (mount_closed fuel r h h' t (fun _ => False)); eauto. }
  split; [done|].
  destruct (mount_flips _ _ _ _ _ Hrun) as (Hmono & _ & Hnew & _).
  intros x. split.
  - intros Hx. destruct (is_mounted h x) eqn:Hhx; [by left|right].
    apply (mount_trace_reach _ _ _ _ _ Hrun (x, Events.MOUNT)).
    by apply Hnew.
  - intros [Hx|Hx]; [by apply Hmono|].
    eapply mounted_down_reach; [done|by eapply mount_mounts|].
    by eapply reach_same.
Qed.

Lemma mount_cascade_witness :
  exists h' t,
    mount 2 0 sample = Some (h', t) /\
    mounted_down h' /\
    forall x, is_mounted h' x = true <->
              (is_mounted sample x = true \/ reach sample 0 x).
Proof.
  exact (mount_cascade sample_rank 2 0 sample sample_ranked
           (ex_intro _ _ eq_refl) (le_n 2)
           (mounted_down_check_ok sample eq_refl)).
Defined.

Lemma unmount_mono fuel : forall r h h' t,
  unmount fuel r h = Some (h', t) ->
  forall x, is_mounted h x = false -> is_mounted h' x = false.
Proof.
  induction fuel as [|f IH]; intros r h h' t; simpl; [discriminate|].
  destruct (h !! r) as [c|] eqn:Hr; [|discriminate].
  destruct (_is_mounted c).
  2:{ by intros [= <- <-]. }
  destruct (for_each _ _ _) as [[h1 t1]|] eqn:Hloop; [|discriminate].
  intros [= <- <-] x Hx.
  destruct (for_each_inv (unmount f) (fun _ => True)
              (fun h0 h0' _ => forall x, is_mounted h0 x = false ->
                 is_mounted h0' x = false)
              (_children c)) with (h := h) (h' := h1) (t := t1)
    as [Hmono _]; eauto.
  rewrite is_mounted_alter. destruct (decide (x = r)); [|auto].
  by destruct (h1 !! r).
Qed.

(** A loop of [unmount] calls leaves every listed component unmounted. *)
Lemma for_each_unmount_all f : forall xs h h' t,
  for_each (unmount f) xs h = Some (h', t) ->
  forall x, x ∈ xs -> is_mounted h' x = false.
Proof.
  induction xs as [|a xs IH]; simpl; intros h h' t.
  - intros _ x Hx. by apply elem_of_nil in Hx.
  - destruct (unmount f a h) as [[h1 t1]|] eqn:Ha; [|discriminate].
    destruct (for_each _ xs h1) as [[h2 t2]|] eqn:Hrest; [|discriminate].
    intros [= <- <-] x Hx. apply elem_of_cons in Hx as [->|Hx]; [|eauto].
    destruct (for_each_inv (unmount f) (fun _ => True)
                (fun h0 h0' _ => forall x, is_mounted h0 x = false ->
                   is_mounted h0' x = false) xs)
      with (h := h1) (h' := h2) (t := t2) as [Hmono _]; eauto.
    { intros. split; [|done]. by eapply unmount_mono. }
    apply Hmono. by eapply unmount_unmounts.
Qed.

Lemma unmount_closed fuel : forall r h h' t,
  unmounted_down h -> unmount fuel r h = Some (h', t) -> unmounted_down h'.
Proof.
  induction fuel as [|f IH]; intros r h h' t Hd; simpl; [discriminate|].
  destruct (h !! r) as [cr|] eqn:Hr; [|discriminate].
  destruct (_is_mounted cr) eqn:Hm.
  2:{ by intros [= <- <-]. }
  destruct (for_each _ _ _) as [[h1 t1]|] eqn:Hloop; [|discriminate].
  intros [= <- <-].
  destruct (for_each_inv (unmount f) unmounted_down
              (fun h0 h0' _ => same_on skel h0 h0')
              (_children cr)) with (h := h) (h' := h1) (t := t1)
    as [Hs1 Hd1]; eauto using same_on_refl, same_on_trans.
  { intros x h0 h0' t0 Hx Hd0 Hrun. split; [|eauto].
    eapply unmount_same_on; [|exact Hrun]. reflexivity. }
  intros p c He Hmp.
  assert (He1 : edge h1 p c).
  { eapply edge_same; [|exact He]. apply same_on_sym.
    by apply same_on_alter. }
  rewrite is_mounted_alter in *.
  destruct (decide (c = r)); [by destruct (h1 !! r)|].
  destruct (decide (p = r)) as [->|Hne]; [|by apply (Hd1 p c)].
  eapply for_each_unmount_all; [exact Hloop|].
  destruct He1 as (cr1 & Hr1 & Hc).
  destruct (same_on_lookup _ _ _ _ _ Hs1 Hr) as (cr' & Hr' & Hsk).
  assert (cr1 = cr') by congruence. subst cr1.
  by rewrite <- (skel_children _ _ Hsk).
Qed.

Lemma unmounted_down_reach h r x :
  unmounted_down h -> is_mounted h r = false -> reach h r x ->
  is_mounted h x = false.
Proof.
  intros Hd Hm Hreach. induction Hreach as [r|r y z He _ IH]; [done|].
  apply IH. by eapply Hd.
Qed.

(** X17: On a store where the children of unmounted components are unmounted,
    [unmount] returns, keeps that property, and leaves mounted exactly
    the components that were mounted and are outside the subtree of its
    argument. *)
Theorem unmount_cascade
    (rank : ref -> nat) (fuel : nat) (r : ref) (h : heap) :
  ranked h rank -> is_Some (h !! r) -> rank r < fuel ->
  unmounted_down h ->
  exists h' t,
    unmount fuel r h = Some (h', t) /\
    unmounted_down h' /\
    forall x, is_mounted h' x = true <->
              (is_mounted h x = true /\ ~ reach h r x).
Proof.
  intros Hrk Hv Hlt Hd.
  destruct (unmount_terminates rank fuel r h Hrk Hv Hlt)
    as (h' & t & Hrun & Hs).
  exists h', t. split; [done|].
  assert (Hd' : unmounted_down h') by (by eapply unmount_closed).
  split; [done|].
  destruct (unmount_flips rank _ _ _ _ _ Hrk Hrun)
    as [(_ & _ & Hnew & _) _].
  intros x. split.
  - intros Hx. split.
    + destruct (is_mounted h x) eqn:Hhx; [done|].
      by rewrite (unmount_mono _ _ _ _ _ Hrun x Hhx) in Hx.
    + intros Hreach.
      rewrite (unmounted_down_reach h' r x) in Hx; [done|done| |].
      * by eapply unmount_unmounts.
      * by eapply reach_same.
  - intros [Hx Hnr]. destruct (is_mounted h' x) eqn:Hx'; [done|].
    destruct Hnr.
    apply (unmount_trace_reach _ _ _ _ _ Hrun (x, Events.UNMOUNT)).
    by apply Hnew.
Qed.

Lemma unmount_cascade_witness :
  exists h' t,
    unmount 2 0 sample_mounted = Some (h', t) /\
    unmounted_down h' /\
    forall x, is_mounted h' x = true <->
              (is_mounted sample_mounted x = true /\
               ~ reach sample_mounted 0 x).
Proof.
  exact (unmount_cascade sample_rank 2 0 sample_mounted sample_mounted_ranked
           (ex_intro _ _ eq_refl) (le_n 2)
           (unmounted_down_check_ok sample_mounted eq_refl)).
Defined.

(** ** Layout of any number of children *)

Lemma layout_places rank fuel r h c :
  ranked h rank -> rank r < fuel -> h !! r = Some c ->
  NoDup (List.filter (visible h) (_children c)) ->
  (forall x y, x ∈ List.filter (visible h) (_children c) ->
     y ∈ List.filter (visible h) (_children c) -> ~ below h x y) ->
  exists h' t,
    calculate_layout fuel r h = Some (h', t) /\
    same_on skel h h' /\ same_on _is_mounted h h' /\
    (forall i x, List.filter (visible h) (_children c) !! i = Some x ->
       geom <$> (h' !! x) =
         Some (slot c (length (List.filter (visible h) (_children c))) i)) /\
    (forall y, y ∉ List.filter (visible h) (_children c) ->
       (forall x, x ∈ List.filter (visible h) (_children c) ->
          ~ below h x y) ->
       geom <$> (h' !! y) = geom <$> (h !! y)).
Proof.
  intros Hrk Hlt Hr Hnd Hnb.
  destruct (calculate_layout_terminates (update fuel) (update_frames fuel)
              rank r h c Hrk Hr) as [[h' t] Hcl].
  { intros x h1 Hx Hrk1 Hv. apply (update_terminates rank); [done|done|].
    destruct (Hrk r c x Hr Hx) as [_ Hltx]. lia. }
  exists h', t. split; [exact Hcl|].
  unfold calculate_layout_with in Hcl. rewrite Hr in Hcl.
  assert (Hnone : Some (h, @nil (ref * string)) = Some (h', t) ->
    List.filter (visible h) (_children c) = [] ->
    same_on skel h h' /\ same_on _is_mounted h h' /\
    (forall i x, List.filter (visible h) (_children c) !! i = Some x ->
       geom <$> (h' !! x) =
         Some (slot c (length (List.filter (visible h) (_children c))) i)) /\
    (forall y, y ∉ List.filter (visible h) (_children c) ->
       (forall x, x ∈ List.filter (visible h) (_children c) ->
          ~ below h x y) ->
       geom <$> (h' !! y) = geom <$> (h !! y))).
  { intros [= <- <-] Hvs. split; [apply same_on_refl|].
    split; [apply same_on_refl|]. split; [|done].
    intros i x Hi. by rewrite Hvs, lookup_nil in Hi. }
  destruct (_children c) as [|k ks] eqn:Hks; [by apply Hnone|].
  rewrite <- Hks in *.
  destruct (List.filter (visible h) (_children c)) as [|v vs] eqn:Hvs;
    [by apply Hnone|].
  rewrite <- Hvs in *. clear Hnone.
  assert (Hloop : forall place step cur,
    layout_loop (update fuel) r place step cur
      (List.filter (visible h) (_children c)) h = Some (h', t) ->
    same_on skel h h' /\ same_on _is_mounted h h' /\
    (forall i x, List.filter (visible h) (_children c) !! i = Some x ->
       geom <$> (h' !! x) =
         Some (place (cur + Z.of_nat i * (step + _layout_spacing c))%Z)) /\
    (forall y, y ∉ List.filter (visible h) (_children c) ->
       (forall x, x ∈ List.filter (visible h) (_children c) ->
          ~ below h x y) ->
       geom <$> (h' !! y) = geom <$> (h !! y))).
  { intros place step cur Hl.
    destruct (layout_loop_frame (update fuel) (update_frames fuel)
                _ _ _ _ _ _ _ _ Hl) as (Hs & Hm & Ho).
    split; [done|]. split; [done|]. split; [|done].
    eapply (layout_loop_places (update fuel) (update_frames fuel));
      [exact Hl| |done|done].
    by rewrite Hr. }
  unfold slot, share.
  destruct (decide (_layout_direction c = "vertical"));
    exact (Hloop _ _ _ Hcl).
Qed.

(** X18: [calculate_layout] on a container with any number of children, on
    either axis: it returns, the [i]-th visible child ends in its slot,
    and no other component that is outside the subtrees of the visible
    children is moved or resized; hidden children in particular keep
    their geometry. *)
Theorem calculate_layout_places
    (rank : ref -> nat) (fuel : nat) (r : ref) (h : heap) (c : Component) :
  ranked h rank -> rank r < fuel -> h !! r = Some c ->
  NoDup (List.filter (visible h) (_children c)) ->
  (forall x y, x ∈ List.filter (visible h) (_children c) ->
     y ∈ List.filter (visible h) (_children c) -> ~ below h x y) ->
  exists h' t,
    calculate_layout fuel r h = Some (h', t) /\
    (forall i x, List.filter (visible h) (_children c) !! i = Some x ->
       geom <$> (h' !! x) =
         Some (slot c (length (List.filter (visible h) (_children c))) i)) /\
    (forall y, y ∉ List.filter (visible h) (_children c) ->
       (forall x, x ∈ List.filter (visible h) (_children c) ->
          ~ below h x y) ->
       geom <$> (h' !! y) = geom <$> (h !! y)).
Proof.
  intros Hrk Hlt Hr Hnd Hnb.
  destruct (layout_places rank fuel r h c Hrk Hlt Hr Hnd Hnb)
    as (h' & t & Hcl & _ & _ & Hslots & Hrest).
  eauto.
Qed.

Lemma hbox_ranked : ranked hbox sample_rank.
Proof. apply ranked_check_ok. vm_compute. reflexivity. Defined.

Lemma hbox_leaves x y : x ∈ [1; 3] -> ~ below hbox x y.
Proof.
  intros Hx. apply elem_of_cons in Hx as [->|Hx];
    [|apply list_elem_of_singleton in Hx as ->];
    eapply leaf_not_below; reflexivity.
Qed.

Lemma calculate_layout_places_witness :
  exists h' t,
    calculate_layout 2 0 hbox = Some (h', t) /\
    geom <$> (h' !! 1) = Some ((5, 7), (10, 49))%Z /\
    geom <$> (h' !! 3) = Some ((5, 58), (10, 49))%Z /\
    geom <$> (h' !! 2) = geom <$> (hbox !! 2).
Proof.
  assert (Hnd : NoDup [1; 3]).
  { apply NoDup_cons. split; [|apply NoDup_singleton].
    intros Hin. by apply list_elem_of_singleton in Hin. }
  destruct (calculate_layout_places sample_rank 2 0 hbox _ hbox_ranked
              (le_n 2) eq_refl Hnd (fun x y Hx _ => hbox_leaves x y Hx))
    as (h' & t & Hcl & Hslots & Hrest).
  exists h', t. split; [exact Hcl|].
  split; [exact (Hslots 0 1 eq_refl)|].
  split; [exact (Hslots 1 3 eq_refl)|].
  apply Hrest.
  - intros Hin. apply elem_of_cons in Hin as [Hin|Hin]; [done|].
    by apply list_elem_of_singleton in Hin.
  - intros x Hx. by apply hbox_leaves.
Defined.

Lemma share_fits (total sp : Z) (n i : nat) :
  (0 <= sp)%Z -> i < n -> (sp * (Z.of_nat n - 1) <= total)%Z ->
  (0 <= share total sp n)%Z /\
  (Z.of_nat i * (share total sp n + sp) + share total sp n <= total)%Z.
Proof.
  intros Hsp Hi Htot. unfold share.
  set (a := Z.max 0 (total - sp * (Z.of_nat n - 1))).
  assert (Ha : a = (total - sp * (Z.of_nat n - 1))%Z) by lia.
  assert (Hn : (0 < Z.of_nat n)%Z) by lia.
  assert (H0 : (0 <= a / Z.of_nat n)%Z) by (apply Z.div_pos; lia).
  assert (Hmul : (Z.of_nat n * (a / Z.of_nat n) <= a)%Z)
    by (apply Z.mul_div_le; lia).
  split; [done|]. nia.
Qed.

(** X19: When the spacing is not negative and the gaps fit in the container,
    [calculate_layout] keeps every visible child inside the container
    along the primary axis, and each child starts where the one before
    it ends plus the spacing. *)
Theorem calculate_layout_fits
    (rank : ref -> nat) (fuel : nat) (r : ref) (h : heap) (c : Component) :
  ranked h rank -> rank r < fuel -> h !! r = Some c ->
  NoDup (List.filter (visible h) (_children c)) ->
  (forall x y, x ∈ List.filter (visible h) (_children c) ->
     y ∈ List.filter (visible h) (_children c) -> ~ below h x y) ->
  (0 <= _layout_spacing c)%Z ->
  (_layout_spacing c *
     (Z.of_nat (length (List.filter (visible h) (_children c))) - 1)
   <= along c (_size c))%Z ->
  exists h' t,
    calculate_layout fuel r h = Some (h', t) /\
    forall i x cx,
      List.filter (visible h) (_children c) !! i = Some x ->
      h' !! x = Some cx ->
      (along c (_position c) <= along c (_position cx))%Z /\
      (along c (_position cx) + along c (_size cx)
       <= along c (_position c) + along c (_size c))%Z /\
      forall y cy,
        List.filter (visible h) (_children c) !! (S i) = Some y ->
        h' !! y = Some cy ->
        along c (_position cy) =
          (along c (_position cx) + along c (_size cx)
           + _layout_spacing c)%Z.
Proof.
  intros Hrk Hlt Hr Hnd Hnb Hsp Hgap.
  destruct (layout_places rank fuel r h c Hrk Hlt Hr Hnd Hnb)
    as (h' & t & Hcl & _ & _ & Hslots & _).
  exists h', t. split; [exact Hcl|].
  intros i x cx Hi Hx.
  pose proof (Hslots i x Hi) as Hgx. rewrite Hx in Hgx. simpl in Hgx.
  injection Hgx as Hgx. unfold geom in Hgx.
  assert (Hin : i < length (List.filter (visible h) (_children c)))
    by (by eapply lookup_lt_Some).
  assert (Hnext : forall y cy,
    List.filter (visible h) (_children c) !! (S i) = Some y ->
    h' !! y = Some cy ->
    (_position cy, _size cy) =
      slot c (length (List.filter (visible h) (_children c))) (S i)).
  { intros y cy Hy Hcy. pose proof (Hslots (S i) y Hy) as Hgy.
    rewrite Hcy in Hgy. simpl in Hgy. by injection Hgy. }
  unfold slot, along in *.
  destruct (decide (_layout_direction c = "vertical")).
  - destruct (share_fits (_size c).1 (_layout_spacing c) _ i Hsp Hin Hgap)
      as [H0 Hfit].
    injection Hgx as Hpos Hsz. rewrite Hpos, Hsz. simpl.
    split; [nia|]. split; [lia|].
    intros y cy Hy Hcy. specialize (Hnext y cy Hy Hcy).
    injection Hnext as Hpy _. rewrite Hpy. simpl. lia.
  - destruct (share_fits (_size c).2 (_layout_spacing c) _ i Hsp Hin Hgap)
      as [H0 Hfit].
    injection Hgx as Hpos Hsz. rewrite Hpos, Hsz. simpl.
    split; [nia|]. split; [lia|].
    intros y cy Hy Hcy. specialize (Hnext y cy Hy Hcy).
    injection Hnext as Hpy _. rewrite Hpy. simpl. lia.
Qed.

Lemma calculate_layout_fits_witness :
  exists h' t,
    calculate_layout 2 0 hbox = Some (h', t) /\
    forall cx, h' !! 3 = Some cx ->
      (7 <= (_position cx).2 /\ (_position cx).2 + (_size cx).2 <= 107)%Z.
Proof.
  assert (Hnd : NoDup [1; 3]).
  { apply NoDup_cons. split; [|apply NoDup_singleton].
    intros Hin. by apply list_elem_of_singleton in Hin. }
  destruct (calculate_layout_fits sample_rank 2 0 hbox _ hbox_ranked
              (le_n 2) eq_refl Hnd (fun x y Hx _ => hbox_leaves x y Hx))
    as (h' & t & Hcl & Hfit).
  { vm_compute. discriminate. }
  { vm_compute. discriminate. }
  exists h', t. split; [exact Hcl|]. intros cx Hcx.
  destruct (Hfit 1 3 cx eq_refl Hcx) as (H1 & H2 & _).
  split; [exact H1|exact H2].
Defined.

(** ** The layout setters of a container *)

Lemma edge_children_same h h' p x :
  same_on _children h h' -> edge h p x -> edge h' p x.
Proof.
  intros Hs (pc & Hp & Hx).
  destruct (same_on_lookup _ _ _ _ _ Hs Hp) as (pc' & Hp' & Hch).
  exists pc'. split; [done|]. by rewrite Hch.
Qed.

Lemma below_children_same h h' x y :
  same_on _children h h' -> below h x y -> below h' x y.
Proof.
  intros Hs Hb. induction Hb as [x y He|x y z He _ IH].
  - apply tc_once. eauto using edge_children_same.
  - eapply tc_l; eauto using edge_children_same.
Qed.

Lemma visible_same h h' :
  same_on _is_visible h h' -> forall x, visible h' x = visible h x.
Proof.
  intros Hs x. unfold visible. specialize (Hs x).
  destruct (h !! x), (h' !! x); simpl in Hs; congruence.
Qed.

Lemma filter_visible_same h h' l :
  same_on _is_visible h h' ->
  List.filter (visible h') l = List.filter (visible h) l.
Proof. intros Hs. apply filter_ext. intros x. by apply visible_same. Qed.

(** [update] on a container lays its visible children out, mounted or
    not. *)
Lemma update_places rank fuel r h c :
  ranked h rank -> S (rank r) < fuel ->
  h !! r = Some c -> cls c = KContainer ->
  NoDup (List.filter (visible h) (_children c)) ->
  (forall x y, x ∈ List.filter (visible h) (_children c) ->
     y ∈ List.filter (visible h) (_children c) -> ~ below h x y) ->
  exists h' t,
    update fuel r h = Some (h', t) /\
    same_on skel h h' /\
    forall i x, List.filter (visible h) (_children c) !! i = Some x ->
      geom <$> (h' !! x) =
        Some (slot c (length (List.filter (visible h) (_children c))) i).
Proof.
  intros Hrk Hlt Hr Hcls Hnd Hnb.
  destruct fuel as [|f]; [lia|]. simpl. rewrite Hr, Hcls.
  assert (Hbase : exists h1 t1 c1,
    Component_update (render f) r h = Some (h1, t1) /\
    h1 !! r = Some c1 /\ skel c1 = skel c /\ geom c1 = geom c).
  { unfold Component_update. rewrite Hr. destruct (_is_mounted c).
    - destruct (render_terminates (alter (set_state UPDATED) r h) rank)
        with (fuel := f) (r := r) as [t1 Ht1].
      + eapply ranked_alter; [|exact Hrk]. done.
      + rewrite list_lookup_alter_eq, Hr. eauto.
      + lia.
      + rewrite Ht1. eexists _, _, _. split; [done|].
        rewrite list_lookup_alter_eq, Hr. simpl. eauto.
    - eexists _, _, _. eauto. }
  destruct Hbase as (h1 & t1 & c1 & Hb & Hr1 & Hsk & Hg).
  rewrite Hb.
  destruct (Component_update_frame _ _ _ _ _ Hb) as (Hs1 & _ & _).
  assert (Hvis : List.filter (visible h1) (_children c1) =
                 List.filter (visible h) (_children c)).
  { rewrite (skel_children _ _ Hsk). apply filter_visible_same.
    intros x. specialize (Hs1 x).
    destruct (h !! x), (h1 !! x); simpl in *; try done.
    f_equal. apply skel_visible. congruence. }
  destruct (layout_places rank f r h1 c1) as (h2 & t2 & Hcl & Hs2 & _ & Hsl & _).
  - by eapply ranked_same.
  - lia.
  - done.
  - by rewrite Hvis.
  - rewrite Hvis. intros x y Hx Hy.
    eapply not_below_same; [exact Hs1|]. by apply Hnb.
  - unfold calculate_layout in Hcl. rewrite Hcl.
    exists h2, (t1 ++ t2). split; [done|].
    split; [by eapply same_on_trans|].
    intros i x Hi. rewrite Hvis in Hsl. rewrite (Hsl i x Hi).
    f_equal. unfold slot, share. unfold skel, geom in *.
    injection Hsk as _ _ _ _ _ _ _ Hd Hsp. injection Hg as Hpos Hsz.
    by rewrite Hd, Hsp, Hpos, Hsz.
Qed.

(** The same after a write to the container that changed, of the fields
    in [skel], its direction and its spacing only. *)
Lemma update_places_written
    rank fuel r h c (wr : Component -> Component) :
  (forall o, skel (set_direction (_layout_direction (wr o))
                     (set_spacing (_layout_spacing (wr o)) o)) =
             skel (wr o)) ->
  ranked h rank -> S (rank r) < fuel ->
  h !! r = Some c -> cls c = KContainer ->
  NoDup (List.filter (visible h) (_children c)) ->
  (forall x y, x ∈ List.filter (visible h) (_children c) ->
     y ∈ List.filter (visible h) (_children c) -> ~ below h x y) ->
  exists h' t,
    update fuel r (alter wr r h) = Some (h', t) /\
    skel <$> (h' !! r) = Some (skel (wr c)) /\
    forall i x, List.filter (visible h) (_children c) !! i = Some x ->
      geom <$> (h' !! x) =
        Some (slot (wr c)
                (length (List.filter (visible h) (_children c))) i).
Proof.
  intros Hwr Hrk Hlt Hr Hcls Hnd Hnb.
  assert (Hch : forall o, _children (wr o) = _children o).
  { intros o. specialize (Hwr o). unfold skel in Hwr. simpl in Hwr.
    congruence. }
  assert (Hvf : forall o, _is_visible (wr o) = _is_visible o).
  { intros o. specialize (Hwr o). unfold skel in Hwr. simpl in Hwr.
    congruence. }
  assert (Hcl : forall o, cls (wr o) = cls o).
  { intros o. specialize (Hwr o). unfold skel in Hwr. simpl in Hwr.
    congruence. }
  assert (Hsc : same_on _children h (alter wr r h))
    by (by apply same_on_alter).
  assert (Hsv : same_on _is_visible h (alter wr r h))
    by (by apply same_on_alter).
  assert (Hr1 : alter wr r h !! r = Some (wr c))
    by (by rewrite list_lookup_alter_eq, Hr).
  assert (Hvis : List.filter (visible (alter wr r h)) (_children (wr c)) =
                 List.filter (visible h) (_children c)).
  { rewrite Hch. by apply filter_visible_same. }
  destruct (update_places rank fuel r (alter wr r h) (wr c))
    as (h' & t & Hup & Hs & Hsl).
  - by apply ranked_alter.
  - done.
  - done.
  - by rewrite Hcl.
  - by rewrite Hvis.
  - rewrite Hvis. intros x y Hx Hy Hb. apply (Hnb x y Hx Hy).
    eapply below_children_same; [|exact Hb]. by apply same_on_sym.
  - exists h', t. split; [done|]. split.
    + rewrite (Hs r), Hr1. done.
    + intros i x Hi. rewrite Hvis in Hsl. by apply Hsl.
Qed.

(** X20: [set_layout_spacing] on a container, mounted or not: the spacing
    stored is the argument clamped at zero, and the visible children are
    laid out again with it. *)
Theorem set_layout_spacing_relayout
    (rank : ref -> nat) (fuel : nat) (r : ref) (sp : Z) (h : heap)
    (c : Component) :
  ranked h rank -> S (rank r) < fuel ->
  h !! r = Some c -> cls c = KContainer ->
  NoDup (List.filter (visible h) (_children c)) ->
  (forall x y, x ∈ List.filter (visible h) (_children c) ->
     y ∈ List.filter (visible h) (_children c) -> ~ below h x y) ->
  exists h' t,
    set_layout_spacing fuel r sp h = Some (h', t) /\
    _layout_spacing <$> (h' !! r) = Some (Z.max 0 sp) /\
    forall i x, List.filter (visible h) (_children c) !! i = Some x ->
      geom <$> (h' !! x) =
        Some (slot (set_spacing (Z.max 0 sp) c)
                (length (List.filter (visible h) (_children c))) i).
Proof.
  intros Hrk Hlt Hr Hcls Hnd Hnb.
  destruct (update_places_written rank fuel r h c (set_spacing (Z.max 0 sp)))
    as (h' & t & Hup & Hsk & Hsl); try done.
  exists h', t. split; [exact Hup|]. split; [|exact Hsl].
  destruct (h' !! r) as [c'|]; simpl in *; [|discriminate].
  f_equal.
  assert (Hsk' : skel c' = skel (set_spacing (Z.max 0 sp) c)) by congruence.
  by rewrite (skel_spacing _ _ Hsk').
Qed.

Lemma set_layout_spacing_relayout_witness :
  exists h' t,
    set_layout_spacing 3 0 (-4) hbox = Some (h', t) /\
    _layout_spacing <$> (h' !! 0) = Some 0%Z /\
    geom <$> (h' !! 1) = Some ((5, 7), (10, 50))%Z /\
    geom <$> (h' !! 3) = Some ((5, 57), (10, 50))%Z.
Proof.
  assert (Hnd : NoDup [1; 3]).
  { apply NoDup_cons. split; [|apply NoDup_singleton].
    intros Hin. by apply list_elem_of_singleton in Hin. }
  destruct (set_layout_spacing_relayout sample_rank 3 0 (-4) hbox _
              hbox_ranked (le_n 3) eq_refl eq_refl Hnd
              (fun x y Hx _ => hbox_leaves x y Hx))
    as (h' & t & Hset & Hsp & Hsl).
  exists h', t. split; [exact Hset|]. split; [exact Hsp|].
  split; [exact (Hsl 0 1 eq_refl)|exact (Hsl 1 3 eq_refl)].
Defined.

(** X21: [set_layout_direction]: a direction other than the two axes raises
    and nothing is written; one of the two axes is stored, and the
    visible children of the container, mounted or not, are laid out again
    along it. *)
Theorem set_layout_direction_relayout
    (rank : ref -> nat) (fuel : nat) (r : ref) (d : string) (h : heap)
    (c : Component) :
  ranked h rank -> S (rank r) < fuel ->
  h !! r = Some c -> cls c = KContainer ->
  NoDup (List.filter (visible h) (_children c)) ->
  (forall x y, x ∈ List.filter (visible h) (_children c) ->
     y ∈ List.filter (visible h) (_children c) -> ~ below h x y) ->
  (d <> "vertical" -> d <> "horizontal" ->
   set_layout_direction fuel r d h = inr tt) /\
  (d = "vertical" \/ d = "horizontal" ->
   exists h' t,
     set_layout_direction fuel r d h = inl (Some (h', t)) /\
     _layout_direction <$> (h' !! r) = Some d /\
     forall i x, List.filter (visible h) (_children c) !! i = Some x ->
       geom <$> (h' !! x) =
         Some (slot (set_direction d c)
                 (length (List.filter (visible h) (_children c))) i)).
Proof.
  intros Hrk Hlt Hr Hcls Hnd Hnb. unfold set_layout_direction. split.
  - intros Hv Hh. rewrite bool_decide_eq_false_2; [done|].
    intros Hin. apply elem_of_cons in Hin as [->|Hin]; [done|].
    by apply list_elem_of_singleton in Hin.
  - intros Hd. rewrite bool_decide_eq_true_2.
    2:{ destruct Hd as [->| ->];
          [apply list_elem_of_here|
           apply list_elem_of_further, list_elem_of_here]. }
    destruct (update_places_written rank fuel r h c (set_direction d))
      as (h' & t & Hup & Hsk & Hsl); try done.
    exists h', t. split; [by rewrite Hup|]. split; [|exact Hsl].
    destruct (h' !! r) as [c'|]; simpl in *; [|discriminate].
    f_equal. assert (Hsk' : skel c' = skel (set_direction d c))
      by congruence.
    unfold skel in Hsk'. simpl in Hsk'. congruence.
Qed.

Lemma set_layout_direction_relayout_witness :
  set_layout_direction 3 0 "diagonal" hbox = inr tt /\
  exists h' t,
    set_layout_direction 3 0 "vertical" hbox = inl (Some (h', t)) /\
    geom <$> (h' !! 1) = Some ((5, 7), (4, 100))%Z /\
    geom <$> (h' !! 3) = Some ((11, 7), (4, 100))%Z.
Proof.
  assert (Hnd : NoDup [1; 3]).
  { apply NoDup_cons. split; [|apply NoDup_singleton].
    intros Hin. by apply list_elem_of_singleton in Hin. }
  split.
  - apply (set_layout_direction_relayout sample_rank 3 0 "diagonal" hbox _
             hbox_ranked (le_n 3) eq_refl eq_refl Hnd
             (fun x y Hx _ => hbox_leaves x y Hx)); discriminate.
  - destruct (proj2 (set_layout_direction_relayout sample_rank 3 0 "vertical"
                       hbox _ hbox_ranked (le_n 3) eq_refl eq_refl Hnd
                       (fun x y Hx _ => hbox_leaves x y Hx))
                (or_introl eq_refl))
      as (h' & t & Hset & _ & Hsl).
    exists h', t. split; [exact Hset|].
    split; [exact (Hsl 0 1 eq_refl)|exact (Hsl 1 3 eq_refl)].
Defined.

(** ** Rendering *)

Lemma render_each_elem g : forall xs t,
  render_each g xs = Some t ->
  (forall y, y ∈ xs -> exists ty, g y = Some ty /\ forall e, e ∈ ty -> e ∈ t) /\
  (forall e, e ∈ t -> exists y ty, y ∈ xs /\ g y = Some ty /\ e ∈ ty).
Proof.
  induction xs as [|a xs IH]; simpl; intros t.
  - intros [= <-]. split.
    + intros y Hy. by apply elem_of_nil in Hy.
    + intros e He. by apply elem_of_nil in He.
  - destruct (g a) as [ta|] eqn:Ha; [|discriminate].
    destruct (render_each g xs) as [t'|] eqn:Hrest; [|discriminate].
    intros [= <-]. destruct (IH t' eq_refl) as [IH1 IH2]. split.
    + intros y Hy. apply elem_of_cons in Hy as [->|Hy].
      * exists ta. split; [done|]. intros e He. apply elem_of_app. by left.
      * destruct (IH1 y Hy) as (ty & Hty & Hsub). exists ty.
        split; [done|]. intros e He. apply elem_of_app. right. auto.
    + intros e He. apply elem_of_app in He as [He|He].
      * exists a, ta. split; [apply list_elem_of_here|done].
      * destruct (IH2 e He) as (y & ty & Hy & Hty & Hin).
        exists y, ty. split; [by apply list_elem_of_further|done].
Qed.

Lemma render_trace fuel h : forall r t,
  render fuel h r = Some t ->
  forall x ev, (x, ev) ∈ t <-> ev = Events.RENDER /\ shown h r x.
Proof.
  induction fuel as [|f IH]; intros r t; simpl; [discriminate|].
  destruct (h !! r) as [c|] eqn:Hr; [|discriminate].
  destruct (cls c) eqn:Hcls.
  - intros [= <-] x ev. split.
    + intros He. apply list_elem_of_singleton in He. injection He as -> ->.
      split; [done|apply rtc_refl].
    + intros [-> Hs]. apply rtc_inv in Hs as [->|(y & (pc & Hp & Hk & _) & _)].
      * by apply list_elem_of_singleton.
      * congruence.
  - destruct (render_each _ _) as [t'|] eqn:Hloop; [|discriminate].
    intros [= <-] x ev.
    destruct (render_each_elem _ _ _ Hloop) as [Hall Hsome]. split.
    + intros He. apply elem_of_cons in He as [He|He].
      { injection He as -> ->. split; [done|apply rtc_refl]. }
      destruct (Hsome _ He) as (y & ty & Hy & Hty & Hin).
      destruct (proj1 (IH y ty Hty x ev) Hin) as [-> Hs].
      split; [done|]. eapply rtc_l; [|exact Hs].
      apply list_elem_of_In, filter_In in Hy as [Hy Hvis].
      exists c. split; [done|]. split; [done|].
      split; [by apply list_elem_of_In|done].
    + intros [-> Hs].
      apply rtc_inv in Hs as [->|(y & (pc & Hp & _ & Hy & Hvis) & Hs)].
      { apply list_elem_of_here. }
      assert (pc = c) by congruence. subst pc.
      destruct (Hall y) as (ty & Hty & Hsub).
      { apply list_elem_of_In, filter_In. split; [|done].
        by apply list_elem_of_In. }
      apply list_elem_of_further, Hsub. by apply (IH y ty Hty).
Qed.

(** X22: [render] emits [render] events only, for the component it is called
    on, hidden or not, and for what is linked to it through visible
    children of containers: it does not go into the children of a plain
    component or below a hidden child. *)
Theorem render_shown
    (rank : ref -> nat) (fuel : nat) (h : heap) (r : ref) :
  ranked h rank -> is_Some (h !! r) -> rank r < fuel ->
  exists t, render fuel h r = Some t /\
    forall x ev, (x, ev) ∈ t <-> ev = Events.RENDER /\ shown h r x.
Proof.
  intros Hrk Hv Hlt.
  destruct (render_terminates h rank Hrk fuel r Hv Hlt) as [t Ht].
  exists t. split; [done|]. by eapply render_trace.
Qed.

Lemma render_shown_witness :
  exists t, render 2 buttons 0 = Some t /\
    forall x ev, (x, ev) ∈ t <-> ev = Events.RENDER /\ shown buttons 0 x.
Proof.
  exact (render_shown sample_rank 2 buttons 0
           (ranked_check_ok buttons sample_rank eq_refl)
           (ex_intro _ _ eq_refl) (le_n 2)).
Defined.

(** ** The [visible] setter *)

(** X23: [set_visible] returns and leaves the flag at its argument.  With the
    value the flag already has it writes and emits nothing; with another
    value on a mounted component it runs [update], which starts with an
    [update] emission.  It never lays the parent out again: position and
    size of everything that is not a descendant of the component stay as
    they were. *)
Theorem set_visible_effect
    (rank : ref -> nat) (fuel : nat) (r : ref) (v : bool) (h : heap)
    (c : Component) :
  ranked h rank -> S (rank r) < fuel -> h !! r = Some c ->
  exists h' t,
    set_visible fuel r v h = Some (h', t) /\
    visible h' r = v /\
    (_is_visible c = v -> h' = h /\ t = []) /\
    (_is_mounted c = false -> t = []) /\
    (_is_visible c <> v -> _is_mounted c = true ->
     exists t', t = (r, Events.UPDATE) :: t') /\
    (forall y, ~ below h r y -> geom <$> (h' !! y) = geom <$> (h !! y)).
Proof.
  intros Hrk Hlt Hr. unfold set_visible. rewrite Hr.
  destruct (decide (_is_visible c = v)) as [Heq|Hne].
  { rewrite bool_decide_eq_false_2 by tauto.
    exists h, []. split; [done|]. unfold visible. rewrite Hr.
    split; [done|]. split; [done|]. split; [done|]. split; [done|done]. }
  rewrite bool_decide_eq_true_2 by done.
  set (h1 := alter (set_visible_flag v) r h).
  assert (Hr1 : h1 !! r = Some (set_visible_flag v c)).
  { unfold h1. by rewrite list_lookup_alter_eq, Hr. }
  assert (Hg1 : same_on geom h h1) by (by apply same_on_alter).
  assert (Hc1 : same_on _children h h1) by (by apply same_on_alter).
  destruct (_is_mounted c) eqn:Hm.
  - destruct (update_terminates rank fuel r h1) as [[h' t] Hup].
    + by apply ranked_alter.
    + eauto.
    + done.
    + exists h', t. split; [done|].
      destruct (update_frames fuel r h1 h' t Hup) as (Hs & _ & Hgeo).
      split.
      { unfold visible. specialize (Hs r). rewrite Hr1 in Hs.
        destruct (h' !! r) as [c'|]; simpl in Hs; [|discriminate].
        assert (Hsk : skel c' = skel (set_visible_flag v c)) by congruence.
        by rewrite (skel_visible _ _ Hsk). }
      split; [done|]. split; [done|]. split.
      { intros _ _. eapply update_head; [exact Hup|].
        unfold is_mounted. by rewrite Hr1. }
      intros y Hnb. rewrite Hgeo, (Hg1 y); [done|].
      intros Hb. apply Hnb. eapply below_children_same; [|exact Hb].
      by apply same_on_sym.
  - exists h1, []. split; [done|]. split.
    { unfold visible. by rewrite Hr1. }
    split; [done|]. split; [done|]. split; [done|].
    intros y _. apply Hg1.
Qed.

Lemma set_visible_effect_witness :
  exists h' t,
    set_visible 3 2 false sample_mounted = Some (h', t) /\
    visible h' 2 = false /\
    geom <$> (h' !! 1) = geom <$> (sample_mounted !! 1).
Proof.
  destruct (set_visible_effect sample_rank 3 2 false sample_mounted _
              sample_mounted_ranked (le_S _ _ (le_n 2)) eq_refl)
    as (h' & t & Hset & Hvis & _ & _ & _ & Hgeo).
  exists h', t. split; [exact Hset|]. split; [exact Hvis|].
  apply Hgeo. eapply leaf_not_below; reflexivity.
Defined.

(** ** The tree under every operation *)

Lemma list_remove_keeps_NoDup c l : NoDup l -> NoDup (list_remove c l).
Proof.
  induction 1 as [|y l Hy Hnd IH]; simpl; [apply NoDup_nil_2|].
  destruct (Nat.eqb_spec y c); [done|].
  apply NoDup_cons. split; [|done].
  intros Hin. by apply Hy, (list_remove_subseteq c).
Qed.

Lemma remove_child_inv fuel p c h h' t pc :
  h !! p = Some pc -> remove_child fuel p c h = Some (h', t) ->
  ((c ∉ _children pc) /\ h' = h) \/
  ((c ∈ _children pc) /\
   exists h1, same_on skel h h1 /\ h' = removed h1 p c).
Proof.
  intros Hp. unfold remove_child. rewrite Hp.
  destruct (decide (c ∈ _children pc)) as [Hin|Hnin].
  - rewrite bool_decide_eq_true_2 by done. intros Hrun. right.
    split; [done|]. destruct (_is_mounted pc).
    + destruct (unmount fuel c h) as [[h1 t1]|] eqn:Hun; [|discriminate].
      injection Hrun as <- <-. exists h1. split; [|done].
      eapply unmount_same_on; [|exact Hun]. reflexivity.
    + injection Hrun as <- <-. exists h. split; [apply same_on_refl|done].
  - rewrite bool_decide_eq_false_2 by done. intros [= <- <-]. by left.
Qed.

Section Removal.
Variables (h : heap) (p c : ref) (pc : Component).
Hypothesis Hp : h !! p = Some pc.
Hypothesis Hin : c ∈ _children pc.
Hypothesis Hnd : NoDup (_children pc).
Hypothesis Hforest : forest h.

Lemma removed_child_parent : exists cc, h !! c = Some cc /\ _parent cc = Some p.
Proof.
  destruct Hforest as (_ & I2 & _). apply I2. exists pc. auto.
Qed.

Lemma removed_parent x :
  _parent <$> (removed h p c !! x) =
    if decide (x = c) then Some None else _parent <$> (h !! x).
Proof.
  unfold removed. rewrite lookup_removed.
  destruct removed_child_parent as (cc & Hc & _).
  destruct (decide (x = c)) as [->|Hne].
  - rewrite Hc. simpl. rewrite (decide_True (P := c = c)) by done.
    by destruct (decide (p = c)).
  - destruct (h !! x) as [o|]; [|done]. simpl.
    rewrite (decide_False (P := c = x)) by done.
    by destruct (decide (p = x)).
Qed.

Lemma removed_children x :
  children (removed h p c) x =
    if decide (x = p) then list_remove c (_children pc) else children h x.
Proof.
  unfold removed, children. rewrite lookup_removed.
  destruct (decide (x = p)) as [->|Hne].
  - rewrite Hp. simpl. rewrite (decide_True (P := p = p)) by done.
    by destruct (decide (c = p)).
  - destruct (h !! x) as [o|]; [|done]. simpl.
    rewrite (decide_False (P := p = x)) by done.
    by destruct (decide (c = x)).
Qed.

Lemma removed_id x : id_of (removed h p c) x = id_of h x.
Proof.
  unfold removed, id_of. rewrite lookup_removed.
  destruct (h !! x) as [o|]; [|done]. simpl.
  by destruct (decide (c = x)), (decide (p = x)).
Qed.

Lemma removed_valid x : is_Some (removed h p c !! x) <-> is_Some (h !! x).
Proof.
  unfold removed. rewrite lookup_removed.
  destruct (h !! x); simpl; split; intros [? ?]; eauto; discriminate.
Qed.

Lemma parent_lookup (g : heap) x q :
  _parent <$> (g !! x) = Some (Some q) <->
  exists cx, g !! x = Some cx /\ _parent cx = Some q.
Proof.
  destruct (g !! x) as [o|]; simpl; split.
  - intros [= Hq]. eauto.
  - intros (cx & [= <-] & Hq). by rewrite Hq.
  - discriminate.
  - intros (cx & Hc & _). discriminate.
Qed.

Lemma parentless_lookup (g : heap) x :
  _parent <$> (g !! x) = Some None <->
  exists cx, g !! x = Some cx /\ _parent cx = None.
Proof.
  destruct (g !! x) as [o|]; simpl; split.
  - intros [= Hq]. eauto.
  - intros (cx & [= <-] & Hq). by rewrite Hq.
  - discriminate.
  - intros (cx & Hc & _). discriminate.
Qed.

Lemma root_of_removed x R' :
  root_of (removed h p c) x R' ->
  forall Rc, root_of h c Rc ->
    root_of h x (if decide (R' = c) then Rc else R').
Proof.
  induction 1 as [x cx Hx Hpar|x cx q R' Hx Hpar _ IH]; intros Rc HRc.
  - destruct (decide (x = c)) as [->|Hne]; [done|].
    assert (Hpl : _parent <$> (removed h p c !! x) = Some None)
      by (apply parentless_lookup; eauto).
    rewrite removed_parent, decide_False in Hpl by done.
    apply parentless_lookup in Hpl as (cx' & Hx' & Hpar').
    by eapply root_of_top.
  - assert (Hpl : _parent <$> (removed h p c !! x) = Some (Some q))
      by (apply parent_lookup; eauto).
    rewrite removed_parent in Hpl.
    destruct (decide (x = c)); [discriminate|].
    apply parent_lookup in Hpl as (cx' & Hx' & Hpar').
    eapply root_of_up; eauto.
Qed.

Lemma forest_removed : forest (removed h p c).
Proof.
  pose proof Hforest as (I1 & I2 & I3 & I4).
  destruct removed_child_parent as (cc & Hc & Hcp).
  split; [|split; [|split]].
  - intros x cx q Hx Hpar.
    assert (Hpl : _parent <$> (removed h p c !! x) = Some (Some q))
      by (apply parent_lookup; eauto).
    rewrite removed_parent in Hpl.
    destruct (decide (x = c)) as [|Hne]; [discriminate|].
    apply parent_lookup in Hpl as (cx' & Hx' & Hpar').
    apply edge_children. rewrite removed_children.
    pose proof (I1 x cx' q Hx' Hpar') as He. apply edge_children in He.
    destruct (decide (q = p)) as [->|]; [|done].
    apply list_remove_other; [done|].
    unfold children in He. by rewrite Hp in He.
  - intros q x He. apply edge_children in He.
    rewrite removed_children in He.
    assert (Hold : x ∈ children h q /\ (q = p -> x <> c)).
    { destruct (decide (q = p)) as [->|Hne].
      - split.
        + unfold children. rewrite Hp. by eapply list_remove_subseteq.
        + intros _ ->. by apply (list_remove_NoDup c (_children pc)).
      - split; [done|]. intros. done. }
    destruct Hold as [Hold Hxc].
    destruct (I2 q x) as (cx & Hx & Hpar); [by apply edge_children|].
    assert (Hne : x <> c).
    { intros ->. apply Hxc; [|done]. congruence. }
    apply parent_lookup. rewrite removed_parent, decide_False by done.
    apply parent_lookup. eauto.
  - intros x Hv. apply removed_valid in Hv.
    destruct (I3 x Hv) as [R HR]. clear Hv.
    induction HR as [x cx Hx Hpar|x cx q R Hx Hpar _ IH].
    + exists x.
      assert (Hpl : _parent <$> (removed h p c !! x) = Some None).
      { rewrite removed_parent. destruct (decide (x = c)); [done|].
        apply parentless_lookup. eauto. }
      apply parentless_lookup in Hpl as (cx' & Hx' & Hpar').
      by eapply root_of_top.
    + destruct (decide (x = c)) as [->|Hne].
      * exists c.
        assert (Hpl : _parent <$> (removed h p c !! c) = Some None).
        { rewrite removed_parent. by rewrite decide_True. }
        apply parentless_lookup in Hpl as (cx' & Hx' & Hpar').
        by eapply root_of_top.
      * destruct IH as [R' HR'].
        exists R'.
        assert (Hpl : _parent <$> (removed h p c !! x) = Some (Some q)).
        { rewrite removed_parent, decide_False by done.
          apply parent_lookup. eauto. }
        apply parent_lookup in Hpl as (cx' & Hx' & Hpar').
        eapply root_of_up; eauto.
  - intros R x y i Hx Hy Hix Hiy.
    destruct (I3 c) as [Rc HRc]; [eauto|].
    rewrite removed_id in Hix, Hiy.
    eapply I4; [| |exact Hix|exact Hiy].
    + by apply (root_of_removed x R).
    + by apply (root_of_removed y R).
Qed.
End Removal.

Lemma forest_remove_child fuel p c h h' t :
  forest h -> (forall x, NoDup (children h x)) ->
  remove_child fuel p c h = Some (h', t) ->
  forest h' /\ forall x, NoDup (children h' x).
Proof.
  intros Hf Hnd Hrun.
  destruct (h !! p) as [pc|] eqn:Hp.
  2:{ unfold remove_child in Hrun. by rewrite Hp in Hrun. }
  destruct (remove_child_inv _ _ _ _ _ _ _ Hp Hrun)
    as [[_ ->]|(Hin & h1 & Hs & ->)]; [done|].
  destruct (same_on_lookup _ _ _ _ _ Hs Hp) as (pc1 & Hp1 & Hsk).
  assert (Hin1 : c ∈ _children pc1) by (by rewrite (skel_children _ _ Hsk)).
  assert (Hnd1 : forall x, NoDup (children h1 x)).
  { intros x. rewrite (children_same h h1 x Hs). apply Hnd. }
  assert (Hndp : NoDup (_children pc1)).
  { specialize (Hnd1 p). unfold children in Hnd1. by rewrite Hp1 in Hnd1. }
  assert (Hf1 : forest h1) by (by eapply forest_same).
  split; [by eapply forest_removed|].
  intros x. rewrite (removed_children h1 p c pc1 Hp1).
  destruct (decide (x = p)); [by apply list_remove_keeps_NoDup|done].
Qed.

Lemma children_snoc h o x :
  _children o = [] ->
  children (h ++ [o]) x = children h x.
Proof.
  intros Ho. unfold children.
  destruct (decide (x < length h)) as [Hlt|Hge].
  - by rewrite lookup_app_l.
  - rewrite (lookup_ge_None_2 h x) by lia.
    rewrite lookup_app_r by lia.
    by destruct (x - length h) as [|k].
Qed.

Lemma assembled_forest h :
  assembled h -> forest h /\ forall x, NoDup (children h x).
Proof.
  induction 1 as [|h k i n _ [IHf IHn]|h fuel p c h' t _ [IHf IHn] Hd Hadd
                  |h fuel p c h' t _ [IHf IHn] Hrm
                  |h fuel r h' t _ [IHf IHn] Hm
                  |h fuel r h' t _ [IHf IHn] Hm].
  - split; [apply forest_empty|]. intros x. unfold children.
    rewrite lookup_nil. apply NoDup_nil_2.
  - simpl. split; [by apply forest_snoc|].
    intros x. by rewrite children_snoc.
  - split; [by eapply forest_add_child|].
    destruct (h !! p) as [pc|] eqn:Hp.
    2:{ unfold add_child in Hadd. by rewrite Hp in Hadd. }
    pose proof Hd as [(cc & Hc & _) _].
    pose proof (forest_detached_not_child h p c pc IHf Hd Hp) as Hnin.
    destruct (add_child_shape fuel p c h h' pc cc t Hp Hc Hnin Hadd)
      as (Hch & _ & _ & _ & Hoch & _).
    intros x. destruct (decide (x = p)) as [->|Hne].
    + rewrite Hch. apply NoDup_app. split; [|split].
      * specialize (IHn p). unfold children in IHn. by rewrite Hp in IHn.
      * intros y Hy Hy'. apply list_elem_of_singleton in Hy'. by subst.
      * apply NoDup_singleton.
    + rewrite Hoch by done. apply IHn.
  - by eapply forest_remove_child.
  - assert (Hs : same_on skel h h').
    { eapply mount_same_on; [|exact Hm]. reflexivity. }
    split; [by eapply forest_same|].
    intros x. rewrite (children_same h h' x Hs). apply IHn.
  - assert (Hs : same_on skel h h').
    { eapply unmount_same_on; [|exact Hm]. reflexivity. }
    split; [by eapply forest_same|].
    intros x. rewrite (children_same h h' x Hs). apply IHn.
Qed.

Lemma built_assembled h : built h -> assembled h.
Proof.
  induction 1; eauto using assembled.
Qed.

(** X24: In every store built from constructor calls, [add_child] calls that
    attach a detached component, [remove_child], [mount] and [unmount]
    calls: no two components below one root share an id, no child list
    holds a component twice, a component is in the child list of exactly
    the component its parent reference names, and no component is its
    own descendant. *)
Theorem assembled_tree (h : heap) :
  assembled h ->
  unique_ids h /\
  (forall x, NoDup (children h x)) /\
  (forall p x, x ∈ children h p <-> _parent <$> (h !! x) = Some (Some p)) /\
  (forall x, ~ below h x x).
Proof.
  intros Ha. destruct (assembled_forest h Ha) as [Hf Hnd].
  split; [by apply forest_unique_ids|]. split; [done|]. split.
  - pose proof Hf as (I1 & I2 & _). intros p x. split.
    + intros Hx. apply parent_lookup. apply I2. by apply edge_children.
    + intros Hx. apply parent_lookup in Hx as (cx & Hx & Hpar).
      apply edge_children. eauto.
  - destruct (forest_ranked h Hf) as (rank & _ & _ & Hrk & _).
    intros x Hb. destruct (below_valid h rank x x Hrk Hb). lia.
Qed.

Lemma assembled_tree_witness :
  unique_ids small_tree /\
  (forall x, NoDup (children small_tree x)) /\
  (forall p x, x ∈ children small_tree p <->
               _parent <$> (small_tree !! x) = Some (Some p)) /\
  (forall x, ~ below small_tree x x).
Proof.
  exact (assembled_tree small_tree (built_assembled _ small_tree_built)).
Defined.

(** ** Emitters on one process *)

Section SharedSignals.
Import Blinker EventEmitter.

(** X25: Registering a handler a second time does not make an emission call
    it twice: the emissions of every event name are what they were after
    the first registration. *)
Theorem emitter_on_twice
    (st : namespace * t) (n m : string) (f : handler)
    (a : list value) (kw : list (string * value)) :
  emit m a kw (on n f (on n f st)) = emit m a kw (on n f st).
Proof.
  destruct st as [ns e]. unfold emit, on, send. simpl.
  assert (Hiff : m ∈ {[n]} ∪ ({[n]} ∪ _signals e) <->
                 m ∈ {[n]} ∪ _signals e).
  { rewrite !elem_of_union, !elem_of_singleton. tauto. }
  rewrite (bool_decide_ext _ _ Hiff).
  destruct (bool_decide (m ∈ {[n]} ∪ _signals e)); [|done].
  f_equal. rewrite (receivers_connect (connect n f ns)).
  destruct (decide (m = n)) as [->|Hne]; [|done].
  rewrite bool_decide_eq_true_2; [done|].
  rewrite receivers_connect, decide_True by done.
  destruct (bool_decide (f ∈ receivers ns n)) eqn:Hd.
  - by apply bool_decide_eq_true in Hd.
  - apply elem_of_app. right. by apply list_elem_of_singleton.
Qed.

Lemma receivers_collect ns f n :
  receivers (collect f ns) n =
    List.filter (fun g => negb (Nat.eqb g f)) (receivers ns n).
Proof.
  unfold receivers, collect. unfold namespace, signal in *.
  rewrite lookup_fmap. by destruct (_ !! _).
Qed.

(** X26: Signals are named per process, not per emitter: a handler that one
    emitter registered for an event name is called when another emitter
    that holds a handler for the same name emits it, with the emitting
    object as sender and the keyword payload (a payload without the
    keyword [_async_wrapper]), as long as the handler has not been
    garbage-collected; once it has been, the emission does not call
    it. *)
Theorem emitter_signals_are_shared
    (ns : namespace) (e1 e2 : t) (n : string) (f g : handler)
    (a : list value) (kw : list (string * value)) :
  let st1 := on n f (ns, e1) in
  let st2 := on n g (st1.1, e2) in
  ("_async_wrapper" ∉ map fst kw ->
   mkCall f (self e2) [] kw ∈ emit n a kw st2) /\
  (forall c, c ∈ emit n a kw (collect f st2.1, st2.2) -> callee c <> f).
Proof.
  intros st1 st2. split.
  - intros _. subst st1 st2. simpl. unfold emit, send.
    rewrite bool_decide_eq_true_2
      by (apply elem_of_union_l; by apply elem_of_singleton).
    apply list_elem_of_In, in_map_iff. exists f. split; [done|].
    apply list_elem_of_In.
    assert (Hf : f ∈ receivers (connect n f ns) n).
    { rewrite receivers_connect, decide_True by done.
      destruct (bool_decide (f ∈ receivers ns n)) eqn:Hd.
      - by apply bool_decide_eq_true in Hd.
      - apply elem_of_app. right. by apply list_elem_of_singleton. }
    rewrite receivers_connect, decide_True by done.
    destruct (bool_decide _); [done|]. apply elem_of_app. by left.
  - intros c Hc. apply emit_callees in Hc.
    rewrite receivers_collect in Hc.
    apply list_elem_of_In, filter_In in Hc as [_ Hne].
    intros Heq. rewrite Heq in Hne. by rewrite Nat.eqb_refl in Hne.
Qed.

Lemma emitter_signals_are_shared_witness :
  mkCall 8 0 [] [("value", VInt 1)] ∈
    emit "test" [] [("value", VInt 1)]
      (on "test" 7 ((on "test" 8 (∅, init 1)).1, init 0)) /\
  forall c,
    c ∈ emit "test" [] [("value", VInt 1)]
          (collect 8 (on "test" 7 ((on "test" 8 (∅, init 1)).1, init 0)).1,
           (on "test" 7 ((on "test" 8 (∅, init 1)).1, init 0)).2) ->
    callee c <> 8.
Proof.
  destruct (emitter_signals_are_shared ∅ (init 1) (init 0) "test" 8 7 []
              [("value", VInt 1)]) as [Hcall Hgone].
  split; [|exact Hgone].
  apply Hcall. intros Hin. apply list_elem_of_singleton in Hin. discriminate.
Defined.
End SharedSignals.

(** ** What [update] leaves alone *)

(** X27: [update] returns on an acyclic tree.  It changes no id, name, parent
    reference, child list, visible flag, layout setting or mounted flag
    of any component, and no position or size outside the descendants of
    the component it is called on.  On a plain component that is not
    mounted it does nothing at all; on a mounted component its first
    emission is [update]. *)
Theorem update_keeps_shape
    (rank : ref -> nat) (fuel : nat) (r : ref) (h : heap) (c : Component) :
  ranked h rank -> S (rank r) < fuel -> h !! r = Some c ->
  exists h' t,
    update fuel r h = Some (h', t) /\
    same_on skel h h' /\ same_on _is_mounted h h' /\
    (forall y, ~ below h r y -> geom <$> (h' !! y) = geom <$> (h !! y)) /\
    (_is_mounted c = false -> cls c = KComponent -> h' = h /\ t = []) /\
    (_is_mounted c = true -> exists t', t = (r, Events.UPDATE) :: t').
Proof.
  intros Hrk Hlt Hr.
  destruct (update_terminates rank fuel r h Hrk) as [[h' t] Hup];
    [eauto|done|].
  exists h', t. split; [done|].
  destruct (update_frames fuel r h h' t Hup) as (Hs & Hm & Hg).
  split; [done|]. split; [done|]. split; [done|]. split.
  - intros Hnm Hcls. destruct fuel as [|f]; [lia|]. simpl in Hup.
    rewrite Hr, Hcls in Hup. unfold Component_update in Hup.
    rewrite Hr, Hnm in Hup. by injection Hup as <- <-.
  - intros Hmt. eapply update_head; [exact Hup|].
    unfold is_mounted. by rewrite Hr.
Qed.

Lemma update_keeps_shape_witness :
  exists h' t,
    update 3 0 sample_mounted = Some (h', t) /\
    same_on skel sample_mounted h' /\
    exists t', t = (0, Events.UPDATE) :: t'.
Proof.
  destruct (update_keeps_shape sample_rank 3 0 sample_mounted _
              sample_mounted_ranked (le_n 3) eq_refl)
    as (h' & t & Hup & Hs & _ & _ & _ & Hhead).
  exists h', t. split; [exact Hup|]. split; [exact Hs|].
  apply Hhead. reflexivity.
Defined.
